(** * Macro-regime scoring engine (scripts/update_macro.py)

    A shallow embedding of the scoring pipeline of [scripts/update_macro.py]:
    monthly resampling, year-over-year change, trailing z-score, the clamped
    composite score, the regime label, the decaying projection and the run
    orchestrator with the two tables it writes.

    Numbers.  Python floats are modelled as real numbers extended with one
    not-a-number value [nan]; arithmetic is exact (rounding, overflow to an
    infinity and the sign of zero are abstracted away), [nan] propagates
    through every operation and every comparison with [nan] is false, as in
    IEEE 754.  A quotient by zero has no counterpart in this model; every
    theorem about a quotient assumes a divisor different from zero.  Where
    rounding decides what a function returns (the test of a deviation
    against zero in [zscore]), the function is given on binary64 as well,
    in [Binary64]. *)

From Stdlib Require Import Reals Lra Lia ZArith String Bool Arith List.
From Stdlib Require Import Sorted Permutation.
From Stdlib Require Floats Uint63.
Import ListNotations.

Local Open Scope R_scope.

(** * Model *)

(** ** Floats *)

Inductive float : Type :=
| nan
| fin (x : R).

Definition isnan (x : float) : bool :=
  match x with nan => true | fin _ => false end.

Definition Rltb (a b : R) : bool := if Rlt_dec a b then true else false.
Definition Rleb (a b : R) : bool := if Rle_dec a b then true else false.
Definition Reqb (a b : R) : bool := if Req_dec_T a b then true else false.

Definition flt (a b : float) : bool :=
  match a, b with fin x, fin y => Rltb x y | _, _ => false end.
Definition fle (a b : float) : bool :=
  match a, b with fin x, fin y => Rleb x y | _, _ => false end.
Definition fgt (a b : float) : bool := flt b a.
Definition fge (a b : float) : bool := fle b a.
Definition feq (a b : float) : bool :=
  match a, b with fin x, fin y => Reqb x y | _, _ => false end.

Definition lift2 (op : R -> R -> R) (a b : float) : float :=
  match a, b with fin x, fin y => fin (op x y) | _, _ => nan end.
Definition lift1 (op : R -> R) (a : float) : float :=
  match a with fin x => fin (op x) | nan => nan end.

Definition fadd : float -> float -> float := lift2 Rplus.
Definition fsub : float -> float -> float := lift2 Rminus.
Definition fmul : float -> float -> float := lift2 Rmult.
Definition fdiv : float -> float -> float := lift2 Rdiv.
Definition fneg : float -> float := lift1 Ropp.
Definition fexp : float -> float := lift1 exp.

(** Python's [int] operands are converted before they meet a float. *)
Definition of_int (n : Z) : float := fin (IZR n).

(** Python's builtin [min(a, b)] and [max(a, b)]: the first argument is kept
    unless the second one is strictly smaller (resp. larger). *)
Definition py_min (a b : float) : float := if flt b a then b else a.
Definition py_max (a b : float) : float := if fgt b a then b else a.

(** ** Helpers of the source *)

(** [clamp(x, lo, hi)] *)
Definition clamp (x lo hi : float) : float :=
  if isnan x then fin 0
  else py_max lo (py_min hi x).

(** [regime_from_score(score)] *)
Definition regime_from_score (score : float) : string :=
  if fge score (fin (5 / 10)) then "bull"%string
  else if fle score (fin (- (5 / 10))) then "bear"%string
  else "neutral"%string.

(** [range(n)] for a Python integer: empty when [n <= 0]. *)
Definition py_range (n : Z) : list Z := map Z.of_nat (seq 0 (Z.to_nat n)).

(** [exp_decay_curve(score_now, months, k)]: the loop appends one value per
    [m] in [range(months)]. *)
Definition exp_decay_step (score_now k : float) (vals : list float) (m : Z)
  : list float :=
  let val := fmul score_now (fexp (fmul (fneg k) (of_int m))) in
  vals ++ [val].

Definition exp_decay_curve (score_now : float) (months : Z) (k : float)
  : list float :=
  fold_left (exp_decay_step score_now k) (py_range months) [].

(** ** Dates and frames *)

(** A calendar date.  [date_key] is a chronological rank for dates with a
    month in 1..12 and a day in 1..31, [month_ord] counts months. *)
Record date : Type := mkdate { d_year : Z; d_month : Z; d_day : Z }.

Definition month_ord (d : date) : Z := 12 * d_year d + (d_month d - 1).
Definition date_key (d : date) : Z := 31 * month_ord d + (d_day d - 1).
Definition month_start (k : Z) : date := mkdate (k / 12) (k mod 12 + 1) 1.

(** A two-column frame (date or month, value) and a series indexed by month
    share one representation: the rows in order. *)
Definition frame : Type := list (date * float).

Definition df_empty (df : frame) : bool :=
  match df with [] => true | _ :: _ => false end.

(** ** The pandas operations the source calls

    These follow the documented behaviour of the library calls. *)

(** Stable sort for a strict order given as a test ([sort_values], the
    ordering that [resample] applies to a non-monotonic index, and Python's
    [sorted]): a row moves behind the rows that are strictly smaller. *)
Fixpoint insert_by {A : Type} (lt : A -> A -> bool) (x : A) (l : list A)
  : list A :=
  match l with
  | [] => [x]
  | y :: l' => if lt y x then y :: insert_by lt x l' else x :: y :: l'
  end.

Definition sort_by {A : Type} (lt : A -> A -> bool) (l : list A) : list A :=
  fold_right (insert_by lt) [] l.

Definition date_lt (a b : date * float) : bool :=
  (date_key (fst a) <? date_key (fst b))%Z.

(** [dropna] on a frame (rows with a missing value go) and on values. *)
Definition notna (v : float) : bool := negb (isnan v).

Definition dropna (s : frame) : frame := filter (fun r => notna (snd r)) s.

Definition notna_values (l : list float) : list R :=
  flat_map (fun v => match v with nan => [] | fin x => [x] end) l.

Definition Rsum (l : list R) : R := fold_right Rplus 0 l.

(** [Series.mean()]: missing values are skipped, no value gives [nan]. *)
Definition series_mean (l : list float) : float :=
  match notna_values l with
  | [] => nan
  | xs => fin (Rsum xs / INR (length xs))
  end.

(** [Series.std(ddof)]: square root of the sum of squared deviations from
    the mean over [count - ddof]; [nan] when [count <= ddof]. *)
Definition series_std (ddof : Z) (l : list float) : float :=
  let xs := notna_values l in
  let count := Z.of_nat (length xs) in
  if (count <=? ddof)%Z then nan
  else
    let avg := Rsum xs / IZR count in
    let sqr := map (fun v => (avg - v) ^ 2) xs in
    fin (sqrt (Rsum sqr / IZR (count - ddof))).

(** [GroupBy.last()]: the last value that is not missing, [nan] if none. *)
Definition group_last (l : list float) : float :=
  fold_left (fun acc v => if isnan v then acc else v) l nan.

(** [s.iloc[start:]] with Python's slice rules. *)
Definition iloc_from {A : Type} (start : Z) (l : list A) : list A :=
  let n := Z.of_nat (length l) in
  let i := if (start <? 0)%Z then Z.max 0 (start + n) else Z.min start n in
  skipn (Z.to_nat i) l.

Definition Zseq (lo : Z) (n : nat) : list Z :=
  map (fun i => (lo + Z.of_nat i)%Z) (seq 0 n).

(** The values of the rows that fall in month [k]. *)
Definition bucket (k : Z) (s : frame) : list float :=
  map snd (filter (fun r => (month_ord (fst r) =? k)%Z) s).

(** [s.resample("MS").agg()]: the index is put in order, then one bin per
    calendar month from the month of the first row to the month of the last
    one, labelled by the first day of the month; a bin without rows is kept
    and aggregates to [nan]. *)
Definition resample_MS (agg : list float -> float) (s : frame) : frame :=
  let s := sort_by date_lt s in
  match s with
  | [] => []
  | r0 :: _ =>
      let lo := month_ord (fst r0) in
      let hi := month_ord (fst (last s r0)) in
      map (fun k => (month_start k, agg (bucket k s)))
          (Zseq lo (Z.to_nat (hi - lo + 1)))
  end.

(** [Series.ffill()] *)
Fixpoint ffill_from (prev : float) (l : list float) : list float :=
  match l with
  | [] => []
  | x :: t => let y := if isnan x then prev else x in y :: ffill_from y t
  end.

Definition ffill (l : list float) : list float := ffill_from nan l.

(** [Series.shift(periods)] for [periods >= 0]. *)
Definition shift (periods : nat) (l : list float) : list float :=
  firstn (length l) (repeat nan periods ++ l).

(** [Series.pct_change(periods)].  Up to pandas 2 the default
    [fill_method] pads missing values forward before the change is taken;
    from pandas 3 nothing is filled.  [pad] tells which default is in
    force. *)
Definition pct_change (pad : bool) (periods : nat) (l : list float)
  : list float :=
  let data := if pad then ffill l else l in
  map (fun '(a, b) => fsub (fdiv a b) (fin 1))
      (combine data (shift periods data)).

(** ** Transforms of the source *)

(** [to_monthly(df, how)], for a frame with the columns date and value.
    The names of the columns are not kept here: the frame returned stands
    for the month/value frame of the source.  The source renames the date
    column, so what it returns is no input for a second call, and nothing
    below applies [to_monthly] to its own output. *)
Definition to_monthly (df : frame) (how : string) : frame :=
  if df_empty df then df
  else
    let s := df in
    let m := if String.eqb how "mean" then resample_MS series_mean s
             else resample_MS group_last s in
    m.

(** [yoy_from_level(monthly_df)] *)
Definition yoy_from_level (pad : bool) (monthly_df : frame) : frame :=
  let x := sort_by date_lt monthly_df in
  let yoy := map (fun c => fmul c (fin 100)) (pct_change pad 12 (map snd x)) in
  dropna (combine (map fst x) yoy).

(** [zscore(series, window)], on exact numbers: mean and deviation are
    not rounded here, so the test of the deviation against zero holds for
    every flat series.  On machine floats it does not; see
    [Binary64.zscore]. *)
Definition zscore (series : frame) (window : Z) : float :=
  let s := map snd (dropna series) in
  if (Z.of_nat (length s) <? Z.max 24 (window / 4))%Z then nan
  else
    let tail := if (Z.of_nat (length s) >=? window)%Z
                then iloc_from (- window) s else s in
    let mu := series_mean tail in
    let sd := series_std 0 tail in
    if feq sd (fin 0) || isnan sd then nan
    else fdiv (fsub (last s nan) mu) sd.

(** ** Exceptions, results and dictionaries *)

Record exn : Type := mkexn { exn_type : string; exn_msg : string }.

(** [str(e)] *)
Definition str (e : exn) : string := exn_msg e.

Inductive result (A : Type) : Type :=
| Raised (e : exn)
| Ok (a : A).
Arguments Raised {A} e.
Arguments Ok {A} a.

Class Monad (m : Type -> Type) : Type :=
  { ret : forall {A : Type}, A -> m A;
    bind : forall {A B : Type}, m A -> (A -> m B) -> m B }.

Declare Scope program_scope.
Delimit Scope program_scope with program.
Notation "x <- c ;; k" := (bind c (fun x => k))
  (at level 61, c at next level, right associativity) : program_scope.
Notation "' p <- c ;; k" := (bind c (fun x => let p := x in k))
  (at level 61, p pattern, c at next level, right associativity) : program_scope.
Notation "c ;;; k" := (bind c (fun _ => k))
  (at level 61, right associativity) : program_scope.
Local Open Scope program_scope.

#[export] Instance result_monad : Monad result :=
  { ret := fun A a => Ok a;
    bind := fun A B c k => match c with Raised e => Raised e | Ok a => k a end }.

(** A Python dict with string keys, in insertion order. *)
Definition dict (V : Type) : Type := list (string * V).

Fixpoint dict_get {V : Type} (d : dict V) (k : string) : option V :=
  match d with
  | [] => None
  | (k', v) :: d' => if String.eqb k' k then Some v else dict_get d' k
  end.

Fixpoint dict_set {V : Type} (k : string) (v : V) (d : dict V) : dict V :=
  match d with
  | [] => [(k, v)]
  | (k', v') :: d' => if String.eqb k' k then (k, v) :: d'
                      else (k', v') :: dict_set k v d'
  end.

(** A [KeyError]; its [str] is the [repr] of the argument it was raised
    with, quotes included. *)
Definition key_error (repr_of_arg : string) : exn := mkexn "KeyError" repr_of_arg.

Definition double_quote : string := String (Ascii.ascii_of_nat 34) EmptyString.

(** [d[k]] *)
Definition getitem {V : Type} (d : dict V) (k : string) : result V :=
  match dict_get d k with
  | Some v => Ok v
  | None => Raised (key_error ("'" ++ k ++ "'"))
  end.

(** ** Configuration *)

Record series_info : Type :=
  mkinfo { info_name : string; info_freq : string; info_direction : Z }.

Definition SERIES : dict series_info :=
  [ ("CPIAUCSL", mkinfo "CPI (level)" "m" (-1));
    ("UNRATE", mkinfo "Unemployment rate" "m" (-1));
    ("FEDFUNDS", mkinfo "Fed Funds" "m" (-1));
    ("T10Y2Y", mkinfo "10Y-2Y spread" "d" 1);
    ("BAMLH0A0HYM2", mkinfo "HY OAS" "d" (-1));
    ("SP500", mkinfo "S&P 500" "d" 1) ]%string.

Definition TARGET_YEAR : Z := 2026.

(** What a run finds outside the program: the outcome of the request for
    each series ([fred_observations], a sorted date/value frame or the
    exception it raises), which [pct_change] default the installed pandas
    has, the store calls that fail (by their rank in the run, with the
    exception raised; a failed call writes nothing) and the clock. *)
Record env : Type :=
  { fred_observations : string -> result frame;
    pct_change_pads : bool;
    store_fault : nat -> option exn;
    utcnow : nat -> string }.

(** ** Composite scorer *)

Record driver_spec : Type :=
  mkspec { spec_key : string; spec_name : string;
           direction : Z; spec_weight : float }.

Definition driver_specs : list driver_spec :=
  [ mkspec "CPI_YOY" "Inflation (CPI YoY)" (-1) (fin (30 / 100));
    mkspec "UNRATE" "Unemployment rate" (-1) (fin (25 / 100));
    mkspec "FEDFUNDS" "Fed Funds" (-1) (fin (20 / 100));
    mkspec "T10Y2Y" "Yield curve (10Y-2Y)" 1 (fin (15 / 100));
    mkspec "BAMLH0A0HYM2" "Credit stress (HY OAS)" (-1) (fin (10 / 100)) ]%string.

Record driver : Type :=
  { key : string;
    name : string;
    z_raw : option float;
    z_adj : float;
    weight : float;
    contribution : float;
    latest_value : option float;
    latest_month : option date }.

(** One round of the loop over [driver_specs], for the series [s] of the
    indicator and its z-score [z]. *)
Definition driver_record (d : driver_spec) (s : frame) (z : float) : driver :=
  let z_adj := fmul (of_int (direction d)) z in
  let z_adj := clamp z_adj (of_int (-3)) (of_int 3) in
  let contrib := fmul (spec_weight d) z_adj in
  {| key := spec_key d;
     name := spec_name d;
     z_raw := if isnan z then None else Some z;
     z_adj := z_adj;
     weight := spec_weight d;
     contribution := contrib;
     latest_value := match dropna s with
                     | [] => None
                     | r :: _ => Some (snd (last (dropna s) r))
                     end;
     latest_month := match dropna s with
                     | [] => None
                     | r :: _ => Some (fst (last (dropna s) r))
                     end |}.

(** [monthly.get(key)] followed by a method call on the result: [None] has
    no [dropna]. *)
Definition series_of (monthly : dict frame) (k : string) : result frame :=
  match dict_get monthly k with
  | Some s => Ok s
  | None => Raised (mkexn "AttributeError" "dropna")
  end.

(** The loop that fills [drivers] and [contribs]; [zf] is the z-score
    taken of each series ([zscore] at window 120 in the source). *)
Definition drivers_loop (zf : frame -> float) (monthly : dict frame)
  : result (list driver * list float) :=
  fold_left
    (fun acc d =>
       ' (drivers, contribs) <- acc ;;
       s <- series_of monthly (spec_key d) ;;
       let dr := driver_record d s (zf s) in
       ret (drivers ++ [dr], contribs ++ [contribution dr]))
    driver_specs (Ok ([], [])).

(** [np.nansum]: a missing term counts as zero. *)
Definition nansum (l : list float) : float :=
  fold_left fadd (map (fun c => if isnan c then fin 0 else c) l) (fin 0).

Definition composite_score (contribs : list float) : float :=
  clamp (nansum contribs) (of_int (-2)) (of_int 2).

Record extras : Type :=
  { sp500_latest : option float;
    sp500_month : option date;
    delta_proxy : dict float }.

Definition delta_of (monthly : dict frame) (k : string) : float :=
  match dict_get monthly k with
  | None => fin 0
  | Some s =>
      match rev (map snd (dropna s)) with
      | a :: b :: _ => fsub a b
      | _ => fin 0
      end
  end.

(** A frame that [to_monthly] handed back unchanged is the empty one, and
    it has no month column.  For CPI [yoy_from_level] is the first to ask
    for that column, in [sort_values("month")]; for the other series it is
    [set_index("month")].  Both raise a [KeyError], each with a text of its
    own. *)
Definition sort_values_error : exn := key_error "'month'".

Definition set_index_error : exn :=
  key_error (double_quote ++ "None of ['month'] are in the columns" ++ double_quote).

Definition month_column (raised : exn) (m : frame) : result frame :=
  match m with
  | [] => Raised raised
  | _ :: _ => Ok m
  end.

Definition fetch_all (ev : env) : result (dict frame) :=
  fold_left
    (fun acc sid =>
       raw <- acc ;;
       df <- fred_observations ev sid ;;
       ret (dict_set sid df raw))
    (map fst SERIES) (Ok []).

Definition monthly_as_is (raw : dict frame) (acc : result (dict frame))
  (sid : string) : result (dict frame) :=
  monthly <- acc ;;
  df <- getitem raw sid ;;
  m <- month_column set_index_error (to_monthly df "last") ;;
  ret (dict_set sid m monthly).

(** The monthly series of the run: the change of CPI over a year, and the
    other five series as they are. *)
Definition monthly_series (ev : env) (raw : dict frame) : result (dict frame) :=
  df <- getitem raw "CPIAUCSL" ;;
  cpi_m <- month_column sort_values_error (to_monthly df "last") ;;
  let cpi_yoy := yoy_from_level (pct_change_pads ev) cpi_m in
  let monthly := dict_set "CPI_YOY" cpi_yoy [] in
  monthly <- fold_left (monthly_as_is raw) ["UNRATE"; "FEDFUNDS"]%string (Ok monthly) ;;
  fold_left (monthly_as_is raw) ["T10Y2Y"; "BAMLH0A0HYM2"; "SP500"]%string
            (Ok monthly).

(** [compute_macro_score_and_drivers] from the loop over [driver_specs]
    on. *)
Definition score_and_drivers (zf : frame -> float) (monthly : dict frame)
  : result (float * list driver * extras) :=
  ' (drivers, contribs) <- drivers_loop zf monthly ;;
  let score_now := composite_score contribs in
  let delta := fold_left
                 (fun acc d => dict_set (key d) (delta_of monthly (key d)) acc)
                 drivers [] in
  sp <- getitem monthly "SP500" ;;
  let ex := {| sp500_latest := match dropna sp with
                               | [] => None
                               | r :: _ => Some (snd (last (dropna sp) r))
                               end;
               sp500_month := match dropna sp with
                              | [] => None
                              | r :: _ => Some (fst (last (dropna sp) r))
                              end;
               delta_proxy := delta |} in
  ret (score_now, drivers, ex).

(** [compute_macro_score_and_drivers()] *)
Definition compute_macro_score_and_drivers (ev : env)
  : result (float * list driver * extras) :=
  raw <- fetch_all ev ;;
  monthly <- monthly_series ev raw ;;
  score_and_drivers (fun s => zscore s 120) monthly.

(** ** Run orchestrator *)

(** The two tables of the store. *)
Record month_row : Type :=
  { anio : Z;
    mes : Z;
    score : float;
    regime : string;
    drivers : list driver;
    updated_at : string }.

Record driver_ref : Type :=
  { ref_key : string; ref_name : string; ref_contribution : float }.

Record run_summary : Type :=
  { score_now : float;
    best_driver : driver_ref;
    worst_driver : driver_ref;
    summary_sp500_latest : option float;
    summary_sp500_month : option date;
    generated_at_utc : string }.

(** The summary column holds the summary of a run or the empty object. *)
Inductive summary_obj : Type :=
| empty_summary
| summary_of (s : run_summary).

Record log_entry : Type :=
  { status : string;
    summary : summary_obj;
    error : option string }.

Record out_line : Type :=
  { out_ok : bool; out_score_now : float; out_generated_at : string }.

(** The world a run acts on: both tables, standard output, and how many
    clock readings and store calls the run has made. *)
Record world : Type :=
  mkworld { macro_regime_monthly_us : list month_row;
            macro_regime_run_log : list log_entry;
            stdout : list out_line;
            clock_reads : nat;
            store_calls : nat }.

(** Programs that act on the world and may raise. *)
Definition M (A : Type) : Type := world -> result A * world.

#[export] Instance M_monad : Monad M :=
  { ret := fun A a w => (Ok a, w);
    bind := fun A B c k w =>
              match c w with
              | (Raised e, w') => (Raised e, w')
              | (Ok a, w') => k a w'
              end }.

Definition raise {A : Type} (e : exn) : M A := fun w => (Raised e, w).

Definition lift {A : Type} (r : result A) : M A := fun w => (r, w).

(** [try: body except Exception as e: handler(e)].  An exception that the
    handler raises, or raises again, leaves the statement. *)
Definition try_except {A : Type} (body : M A) (handler : exn -> M A) : M A :=
  fun w =>
    match body w with
    | (Raised e, w') => handler e w'
    | (Ok a, w') => (Ok a, w')
    end.

(** [datetime.utcnow().isoformat()] *)
Definition now (ev : env) : M string :=
  fun w =>
    (Ok (utcnow ev (clock_reads w)),
     mkworld (macro_regime_monthly_us w) (macro_regime_run_log w) (stdout w)
             (S (clock_reads w)) (store_calls w)).

(** [.execute()] of a write to the store. *)
Definition execute (ev : env) (write : world -> world) : M unit :=
  fun w =>
    let w' := mkworld (macro_regime_monthly_us w) (macro_regime_run_log w)
                      (stdout w) (clock_reads w) (S (store_calls w)) in
    match store_fault ev (store_calls w) with
    | Some e => (Raised e, w')
    | None => (Ok tt, write w')
    end.

Definition same_month (a b : month_row) : bool :=
  ((anio a =? anio b) && (mes a =? mes b))%Z.

(** [upsert(row, on_conflict="anio,mes")] on the rows of the table. *)
Fixpoint upsert_row (row : month_row) (t : list month_row) : list month_row :=
  match t with
  | [] => [row]
  | r :: t' => if same_month r row then row :: t' else r :: upsert_row row t'
  end.

Definition upsert (ev : env) (row : month_row) : M unit :=
  execute ev (fun w =>
    mkworld (upsert_row row (macro_regime_monthly_us w))
            (macro_regime_run_log w) (stdout w) (clock_reads w) (store_calls w)).

Definition insert_log (ev : env) (entry : log_entry) : M unit :=
  execute ev (fun w =>
    mkworld (macro_regime_monthly_us w)
            (macro_regime_run_log w ++ [entry]) (stdout w)
            (clock_reads w) (store_calls w)).

Definition print (line : out_line) : M unit :=
  fun w =>
    (Ok tt,
     mkworld (macro_regime_monthly_us w) (macro_regime_run_log w)
             (stdout w ++ [line]) (clock_reads w) (store_calls w)).

Fixpoint for_each {A : Type} (l : list A) (body : A -> M unit) : M unit :=
  match l with
  | [] => ret tt
  | x :: t => body x ;;; for_each t body
  end.

(** [enumerate(l, start)] *)
Definition enumerate {A : Type} (l : list A) (start : Z) : list (Z * A) :=
  combine (Zseq start (length l)) l.

(** The loop that builds the twelve rows; every row reads the clock. *)
Fixpoint build_rows (ev : env) (drivers : list driver)
  (items : list (Z * float)) (rows : list month_row) : M (list month_row) :=
  match items with
  | [] => ret rows
  | (i, score) :: items' =>
      t <- now ev ;;
      build_rows ev drivers items'
        (rows ++ [ {| anio := TARGET_YEAR;
                      mes := i;
                      score := score;
                      regime := regime_from_score score;
                      drivers := drivers;
                      updated_at := t |} ])
  end.

Definition contribution_lt (a b : driver) : bool :=
  flt (contribution a) (contribution b).

Definition ref_of (d : driver) : driver_ref :=
  {| ref_key := key d; ref_name := name d;
     ref_contribution := contribution d |}.

(** The two entries a run may add to the run log. *)
Definition success_entry (s : run_summary) : log_entry :=
  {| status := "success"; summary := summary_of s; error := None |}.

Definition error_entry (e : exn) : log_entry :=
  {| status := "error"; summary := empty_summary; error := Some (str e) |}.

(** The body of the [try] statement of [main]. *)
Definition main_body (ev : env) (started : string) : M unit :=
  ' (score_now, drivers, ex) <- lift (compute_macro_score_and_drivers ev) ;;
  let curve := exp_decay_curve score_now 12 (fin (22 / 100)) in
  rows <- build_rows ev drivers (enumerate curve 1) [] ;;
  for_each rows (upsert ev) ;;;
  let sorted_drivers := sort_by contribution_lt drivers in
  match sorted_drivers with
  | [] => raise (mkexn "IndexError" "list index out of range")
  | worst :: _ =>
      let best := last sorted_drivers worst in
      let summary :=
        {| score_now := score_now;
           best_driver := ref_of best;
           worst_driver := ref_of worst;
           summary_sp500_latest := sp500_latest ex;
           summary_sp500_month := sp500_month ex;
           generated_at_utc := (started ++ "Z")%string |} in
      insert_log ev (success_entry summary) ;;;
      print {| out_ok := true; out_score_now := score_now;
               out_generated_at := generated_at_utc summary |}
  end.

(** The handler of [main]: one error entry, then the exception again. *)
Definition main_handler (ev : env) (e : exn) : M unit :=
  insert_log ev (error_entry e) ;;;
  raise e.

(** [main()] *)
Definition main (ev : env) : M unit :=
  started <- now ev ;;
  try_except (main_body ev started) (main_handler ev).

(** The outcome of the [try] body of the run that starts in [w]: the
    run fails at a pipeline step when this raises. *)
Definition try_body_outcome (ev : env) (w : world) : result unit * world :=
  main_body ev (utcnow ev (clock_reads w)) (snd (now ev w)).

(** ** The helpers on machine floats

    [clamp] and [regime_from_score] only compare their argument, so they
    can be given on IEEE 754 binary64 as they stand, infinities and
    rounding included; the facts on them check that the numbers above lose
    nothing there.  [zscore] adds, divides and takes a square root: on
    binary64 every one of these rounds, and the sums depend on the order
    in which pandas adds. *)

Module Binary64.
Import Floats.
Local Open Scope float_scope.

Definition py_min (a b : float) : float := if b <? a then b else a.
Definition py_max (a b : float) : float := if a <? b then b else a.

Definition clamp (x lo hi : float) : float :=
  if is_nan x then 0
  else py_max lo (py_min hi x).

Definition regime_from_score (score : float) : string :=
  if 0.5 <=? score then "bull"%string
  else if score <=? -0.5 then "bear"%string
  else "neutral"%string.

(** The sum of a float column.  Bottleneck, where pandas finds it, adds
    the values in sequence. *)
Fixpoint sum_from (acc : float) (l : list float) : float :=
  match l with
  | [] => acc
  | x :: l' => sum_from (acc + x) l'
  end.

Definition sum_sequential (l : list float) : float := sum_from 0 l.

(** NumPy (pairwise summation): fewer than 8 values are added in
    sequence; up to 128 values are added in eight running sums, one per
    position modulo 8, which are then added two by two, and the values
    left over after the last block of 8 are added in sequence; a longer
    array is cut in two near its middle, at a multiple of 8. *)
Fixpoint add_lanes (r l : list float) : list float :=
  match r, l with
  | x :: r', y :: l' => (x + y) :: add_lanes r' l'
  | _, _ => r
  end.

Fixpoint sum_lanes (blocks : nat) (r l : list float) : list float * list float :=
  match blocks with
  | O => (r, l)
  | S b => sum_lanes b (add_lanes r (firstn 8 l)) (skipn 8 l)
  end.

Definition sum_block (l : list float) : float :=
  if (length l <? 8)%nat then sum_from 0 l
  else
    let (r, rest) := sum_lanes (length l / 8 - 1) (firstn 8 l) (skipn 8 l) in
    match r with
    | [r0; r1; r2; r3; r4; r5; r6; r7] =>
        sum_from (((r0 + r1) + (r2 + r3)) + ((r4 + r5) + (r6 + r7))) rest
    | _ => nan
    end.

Fixpoint sum_halves (fuel : nat) (l : list float) : float :=
  match fuel with
  | O => sum_block l
  | S f =>
      if (length l <=? 128)%nat then sum_block l
      else
        let n2 := (length l / 2 - (length l / 2) mod 8)%nat in
        sum_halves f (firstn n2 l) + sum_halves f (skipn n2 l)
  end.

Definition sum_pairwise (l : list float) : float := sum_halves (length l) l.

Definition of_nat (n : nat) : float := of_uint63 (Uint63.of_Z (Z.of_nat n)).

(** [Series.mean()] and [Series.std(ddof=0)] of a column without missing
    values, the sum being taken by [fsum]. *)
Definition series_mean (fsum : list float -> float) (l : list float) : float :=
  fsum l / of_nat (length l).

Definition series_std (fsum : list float -> float) (l : list float) : float :=
  let count := of_nat (length l) in
  let avg := fsum l / count in
  let sqr := map (fun v => (avg - v) * (avg - v)) l in
  sqrt (fsum sqr / count).

(** [zscore(series, window)] on the values of the series; [mean_sum] and
    [std_sum] are the sums that the mean and the deviation are taken
    with. *)
Definition zscore (mean_sum std_sum : list float -> float)
  (series : list float) (window : Z) : float :=
  let s := filter (fun v => negb (is_nan v)) series in
  if (Z.of_nat (length s) <? Z.max 24 (window / 4))%Z then nan
  else
    let tail := if (Z.of_nat (length s) >=? window)%Z
                then iloc_from (- window) s else s in
    let mu := series_mean mean_sum tail in
    let sd := series_std std_sum tail in
    if (sd =? 0) || is_nan sd then nan
    else (last s nan - mu) / sd.

(** Thirty values at 0.1, the closest binary64 number to it. *)
Definition flat_30 : list float := repeat 0x1.999999999999ap-4 30.

End Binary64.

(** ** The words of the specification *)

(** Population mean and population standard deviation (divisor N). *)
Definition population_mean (xs : list R) : R := Rsum xs / INR (length xs).

Definition population_std (xs : list R) : R :=
  sqrt (Rsum (map (fun x => (x - population_mean xs) ^ 2) xs)
        / INR (length xs)).

(** The trailing [n] elements of a list, all of it when it is shorter. *)
Definition trailing {A : Type} (n : nat) (l : list A) : list A :=
  skipn (length l - n) l.

(** A frame has one row for each month of a run of consecutive months. *)
Definition consecutive_months (x : frame) : Prop :=
  exists lo : Z, map fst x = map month_start (Zseq lo (length x)).

(** Dates of the calendar, and frames in date order. *)
Definition valid_date (d : date) : Prop :=
  (1 <= d_month d <= 12 /\ 1 <= d_day d <= 31)%Z.

Definition date_le (a b : date * float) : Prop :=
  (date_key (fst a) <= date_key (fst b))%Z.

Definition in_date_order (x : frame) : Prop := StronglySorted date_le x.

(** All values of a list are missing. *)
Definition all_missing (l : list float) : Prop := Forall (fun v => v = nan) l.

(** The number of rows of a month in a frame. *)
Definition rows_of_month (k : Z) (x : frame) : nat :=
  length (filter (fun r => (month_ord (fst r) =? k)%Z) x).

(** The output of [to_monthly] as section 4.2 has it: a row for the
    populated months and for no other month. *)
Definition one_row_per_populated_month (df out : frame) : Prop :=
  forall k : Z,
    In (month_start k) (map fst out) <-> (0 < rows_of_month k df)%nat.

(** The output of [yoy_from_level] as section 4.3 has it: a row for month
    [m] exactly when the series has month [m] and the month twelve months
    before it, with the change against that month. *)
Definition change_on_twelve_months (df out : frame) : Prop :=
  forall (m : date) (v : R),
    In (m, fin v) out <->
    exists a b : R,
      In (m, fin a) df /\
      In (month_start (month_ord m - 12), fin b) df /\
      v = (a / b - 1) * 100.

(** The failure policy as section 7 has it: whatever happens to the error
    entry, the exception of the failed step is the one that leaves. *)
Definition original_exception_propagates (ev : env) (w : world) : Prop :=
  forall (e : exn) (w2 : world),
    try_body_outcome ev w = (Raised e, w2) -> fst (main ev w) = Raised e.

(** ** Reading the observations

    The part of [fred_observations] that follows the request: the rows of
    the answer are coerced, the rows without a date go and the rest is put
    in date order.  [to_datetime] and [to_numeric] are the coercions of
    pandas with the option to coerce: no date, resp. [nan], for a text
    that does not parse.  ([sort_values] fixes no order among equal dates;
    the stable one is taken here.) *)
Definition observations_frame (to_datetime : string -> option date)
  (to_numeric : string -> float) (obs : list (string * string)) : frame :=
  match obs with
  | [] => []
  | _ :: _ =>
      let df := map (fun o => (to_datetime (fst o), to_numeric (snd o))) obs in
      let df := flat_map (fun r => match fst r with
                                   | Some d => [(d, snd r)]
                                   | None => []
                                   end) df in
      sort_by date_lt df
  end.

(** The row of the monthly table under a key, if there is one. *)
Definition lookup_month (a m : Z) (t : list month_row) : option month_row :=
  find (fun r => ((anio r =? a) && (mes r =? m))%Z) t.

Definition month_keys (t : list month_row) : list (Z * Z) :=
  map (fun r => (anio r, mes r)) t.

(** The number a float stands for, 0 for the missing one. *)
Definition number_of (v : float) : R :=
  match v with fin x => x | nan => 0 end.

(** The rows of a run of consecutive months, from month [lo] on. *)
Definition months_from (lo : Z) (x : frame) : Prop :=
  map fst x = map month_start (Zseq lo (length x)).

(** ** Sample inputs *)

(** Monthly series with no rows at all, one per key of a run. *)
Definition sample_monthly : dict frame :=
  [ ("CPI_YOY", []); ("UNRATE", []); ("FEDFUNDS", []); ("T10Y2Y", []);
    ("BAMLH0A0HYM2", []); ("SP500", []) ]%string.


Definition empty_world : world := mkworld [] [] [] 0 0.

(** A run that finds one observation per series and a store that works. *)
Definition sample_env : env :=
  {| fred_observations := fun _ => Ok [(mkdate 2025 1 31, fin 1)];
     pct_change_pads := false;
     store_fault := fun _ => None;
     utcnow := fun _ => "2026-01-01T00:00:00"%string |}.

(** A run whose first request fails, with a store that works, and the
    same run with a store whose first call fails. *)
Definition fetch_error : exn := mkexn "HTTPError" "500 Server Error".
Definition store_error : exn := mkexn "APIError" "connection refused".

Definition failing_env (store_down : bool) : env :=
  {| fred_observations := fun _ => Raised fetch_error;
     pct_change_pads := false;
     store_fault := fun n => if store_down then
                               match n with O => Some store_error | S _ => None end
                             else None;
     utcnow := fun _ => "2026-01-01T00:00:00"%string |}.

(** The run of [sample_env] with a store whose call of rank [j] fails. *)
Definition flaky_env (j : nat) : env :=
  {| fred_observations := fred_observations sample_env;
     pct_change_pads := false;
     store_fault := fun n => if Nat.eqb n j then Some store_error else None;
     utcnow := utcnow sample_env |}.

(** The run of [sample_env] with another answer for the benchmark. *)
Definition other_benchmark_env : env :=
  {| fred_observations :=
       fun sid => if String.eqb sid "SP500"
                  then Ok [(mkdate 2025 1 31, fin 5000); (mkdate 2025 2 28, fin 5100)]
                  else fred_observations sample_env sid;
     pct_change_pads := false;
     store_fault := fun _ => None;
     utcnow := utcnow sample_env |}.

(** Thirty consecutive months at the same value [c]. *)
Definition flat_months (c : R) : frame :=
  map (fun k => (month_start k, fin c)) (Zseq 24240 30).

(** Thirteen consecutive monthly levels, 100 to 112. *)
Definition levels_13 : frame :=
  [ (mkdate 2020 1 1, fin 100); (mkdate 2020 2 1, fin 101);
    (mkdate 2020 3 1, fin 102); (mkdate 2020 4 1, fin 103);
    (mkdate 2020 5 1, fin 104); (mkdate 2020 6 1, fin 105);
    (mkdate 2020 7 1, fin 106); (mkdate 2020 8 1, fin 107);
    (mkdate 2020 9 1, fin 108); (mkdate 2020 10 1, fin 109);
    (mkdate 2020 11 1, fin 110); (mkdate 2020 12 1, fin 111);
    (mkdate 2021 1 1, fin 112) ].

(** The same levels on thirteen months with July 2020 left out. *)
Definition levels_gap : frame :=
  [ (mkdate 2020 1 1, fin 100); (mkdate 2020 2 1, fin 101);
    (mkdate 2020 3 1, fin 102); (mkdate 2020 4 1, fin 103);
    (mkdate 2020 5 1, fin 104); (mkdate 2020 6 1, fin 105);
    (mkdate 2020 8 1, fin 106); (mkdate 2020 9 1, fin 107);
    (mkdate 2020 10 1, fin 108); (mkdate 2020 11 1, fin 109);
    (mkdate 2020 12 1, fin 110); (mkdate 2021 1 1, fin 111);
    (mkdate 2021 2 1, fin 112) ].

(** Monthly series of a run in which only the yield curve has rows. *)
Definition sample_monthly_curve : dict frame :=
  [ ("CPI_YOY", []); ("UNRATE", []); ("FEDFUNDS", []); ("T10Y2Y", levels_13);
    ("BAMLH0A0HYM2", []); ("SP500", []) ]%string.

(** The records of a run on [monthly] that takes [zf] as z-score. *)
Definition drivers_with (zf : frame -> float) (monthly : dict frame)
  : list driver :=
  map (fun d => let s := match dict_get monthly (spec_key d) with
                         | Some s => s
                         | None => []
                         end in
                driver_record d s (zf s)) driver_specs.

(** * Properties *)

(** ** Basic facts on comparisons *)

Lemma Rltb_true (a b : R) : Rltb a b = true <-> a < b.
Proof. unfold Rltb; destruct (Rlt_dec a b); split; intros; try easy. Qed.

Lemma Rltb_false (a b : R) : Rltb a b = false <-> b <= a.
Proof. unfold Rltb; destruct (Rlt_dec a b); split; intros; try easy; lra. Qed.

Lemma Rleb_true (a b : R) : Rleb a b = true <-> a <= b.
Proof. unfold Rleb; destruct (Rle_dec a b); split; intros; try easy. Qed.

Lemma Rleb_false (a b : R) : Rleb a b = false <-> b < a.
Proof. unfold Rleb; destruct (Rle_dec a b); split; intros; try easy; lra. Qed.

Lemma Reqb_true (a b : R) : Reqb a b = true <-> a = b.
Proof. unfold Reqb; destruct (Req_dec_T a b); split; intros; try easy. Qed.

Lemma Reqb_false (a b : R) : Reqb a b = false <-> a <> b.
Proof. unfold Reqb; destruct (Req_dec_T a b); split; intros; try easy. Qed.

(** Decide the comparisons that occur in a goal, keeping the facts. *)
Ltac cmp_cases :=
  repeat match goal with
  | |- context [Rltb ?a ?b] =>
      let H := fresh "Hc" in
      destruct (Rltb a b) eqn:H;
      [apply Rltb_true in H | apply Rltb_false in H]
  | |- context [Rleb ?a ?b] =>
      let H := fresh "Hc" in
      destruct (Rleb a b) eqn:H;
      [apply Rleb_true in H | apply Rleb_false in H]
  | |- context [Reqb ?a ?b] =>
      let H := fresh "Hc" in
      destruct (Reqb a b) eqn:H;
      [apply Reqb_true in H | apply Reqb_false in H]
  end.

(** ** Ordering of frames *)

Lemma insert_by_perm {A : Type} (lt : A -> A -> bool) (x : A) (l : list A) :
  Permutation (insert_by lt x l) (x :: l).
Proof.
  induction l as [|y l IH]; simpl; [reflexivity|].
  destruct (lt y x); [|reflexivity].
  rewrite IH. apply perm_swap.
Qed.

Lemma sort_by_perm {A : Type} (lt : A -> A -> bool) (l : list A) :
  Permutation (sort_by lt l) l.
Proof.
  induction l as [|x l IH]; simpl; [reflexivity|].
  rewrite insert_by_perm, IH. reflexivity.
Qed.

Lemma insert_date_sorted (x : date * float) (l : frame) :
  in_date_order l -> in_date_order (insert_by date_lt x l).
Proof.
  unfold in_date_order. induction 1 as [|y l Hl IH Hy]; simpl.
  - repeat constructor.
  - unfold date_lt at 1. destruct (Z.ltb_spec (date_key (fst y)) (date_key (fst x))).
    + constructor; [exact IH|].
      apply (Permutation_Forall (Permutation_sym (insert_by_perm date_lt x l))).
      constructor; [unfold date_le; lia | exact Hy].
    + constructor; [constructor; assumption|].
      constructor; [exact H|].
      eapply Forall_impl; [|exact Hy]. unfold date_le. intros a Ha. lia.
Qed.

Lemma sort_by_date_sorted (l : frame) : in_date_order (sort_by date_lt l).
Proof.
  induction l as [|x l IH]; simpl; [constructor|].
  apply insert_date_sorted, IH.
Qed.

(** A frame in date order is left as it is. *)
Lemma sort_by_date_id (l : frame) : in_date_order l -> sort_by date_lt l = l.
Proof.
  unfold in_date_order. induction 1 as [|x l Hl IH Hx]; simpl; [reflexivity|].
  rewrite IH. destruct l as [|y l]; [reflexivity|]. simpl.
  inversion Hx as [|? ? Hxy _]; subst. unfold date_lt, date_le in *.
  destruct (Z.ltb_spec (date_key (fst y)) (date_key (fst x))); [lia | reflexivity].
Qed.

Lemma month_ord_start (k : Z) : month_ord (month_start k) = k.
Proof.
  unfold month_ord, month_start; cbn [d_year d_month].
  pose proof (Z.div_mod k 12 ltac:(lia)). lia.
Qed.

Lemma month_start_ord (d : date) :
  valid_date d -> month_start (month_ord d) = mkdate (d_year d) (d_month d) 1.
Proof.
  intros [Hm _]. unfold month_start, month_ord.
  replace (12 * d_year d + (d_month d - 1))%Z
    with ((d_month d - 1) + d_year d * 12)%Z by lia.
  rewrite Z.div_add, Z.mod_add, Z.div_small, Z.mod_small by lia.
  f_equal; lia.
Qed.

Lemma date_le_month (a b : date * float) :
  valid_date (fst a) -> valid_date (fst b) -> date_le a b ->
  (month_ord (fst a) <= month_ord (fst b))%Z.
Proof. unfold valid_date, date_le, date_key. lia. Qed.

Lemma Zseq_In (lo : Z) (n : nat) (k : Z) :
  In k (Zseq lo n) <-> (lo <= k < lo + Z.of_nat n)%Z.
Proof.
  unfold Zseq. rewrite in_map_iff. split.
  - intros (i & <- & Hi). apply in_seq in Hi. lia.
  - intros Hk. exists (Z.to_nat (k - lo)). split; [lia|]. apply in_seq. lia.
Qed.

Lemma Zseq_length (lo : Z) (n : nat) : length (Zseq lo n) = n.
Proof. unfold Zseq. rewrite length_map, length_seq. reflexivity. Qed.

Lemma last_cons_default {A : Type} (x : A) (l : list A) (d d' : A) :
  last (x :: l) d = last (x :: l) d'.
Proof.
  revert x. induction l as [|y l IH]; intros x; [reflexivity|].
  change (last (y :: l) d = last (y :: l) d'). apply IH.
Qed.

(** In a frame in date order the first row is in the earliest month and
    the last row in the latest one. *)
Lemma date_order_bounds (r0 : date * float) (l : frame) :
  Forall (fun r => valid_date (fst r)) (r0 :: l) ->
  in_date_order (r0 :: l) ->
  Forall (fun r => (month_ord (fst r0) <= month_ord (fst r)
                    <= month_ord (fst (last (r0 :: l) r0)))%Z) (r0 :: l).
Proof.
  revert r0. induction l as [|r1 l IH]; intros r0 Hv Hs.
  - constructor; [simpl; lia | constructor].
  - inversion Hs as [|? ? Hs' Hr0]; subst.
    inversion Hv as [|? ? Hv0 Hv']; subst.
    specialize (IH r1 Hv' Hs').
    change (last (r0 :: r1 :: l) r0) with (last (r1 :: l) r0).
    rewrite (last_cons_default r1 l r0 r1).
    assert (H01 : (month_ord (fst r0) <= month_ord (fst r1))%Z).
    { inversion Hr0; subst. inversion Hv'; subst. apply date_le_month; assumption. }
    constructor.
    + inversion IH; subst. lia.
    + eapply Forall_impl; [|exact IH]. simpl. intros a Ha. lia.
Qed.

(** ** Monthly resampling *)

Lemma group_last_snoc (l : list float) (v : float) :
  group_last (l ++ [v]) = if isnan v then group_last l else v.
Proof. unfold group_last. rewrite fold_left_app. reflexivity. Qed.

(** [group_last] is the last value that is not missing. *)
Lemma group_last_spec (l : list float) :
  (all_missing l /\ group_last l = nan) \/
  (exists (l1 : list float) (x : R) (l2 : list float),
     l = l1 ++ fin x :: l2 /\ all_missing l2 /\ group_last l = fin x).
Proof.
  induction l as [|v l IH] using rev_ind.
  - left. split; [constructor | reflexivity].
  - rewrite group_last_snoc. destruct v as [|x]; simpl.
    + destruct IH as [(Hall & Hg) | (l1 & x & l2 & -> & Hall & Hg)].
      * left. split; [|exact Hg].
        apply Forall_app. split; [exact Hall | repeat constructor].
      * right. exists l1, x, (l2 ++ [nan]). rewrite <- app_assoc. simpl.
        split; [reflexivity|]. split; [|exact Hg].
        apply Forall_app. split; [exact Hall | repeat constructor].
    + right. exists l, x, []. repeat split. constructor.
Qed.

(** The rows that [resample] returns for a frame that has rows: one per
    month, from the month of the earliest row to the month of the latest
    one. *)
Lemma resample_MS_grid (agg : list float -> float) (df : frame) :
  Forall (fun r => valid_date (fst r)) df ->
  df <> [] ->
  exists (lo : Z) (n : nat),
    resample_MS agg df
    = map (fun k => (month_start k, agg (bucket k (sort_by date_lt df))))
          (Zseq lo n) /\
    forall k : Z,
      In k (Zseq lo n) <->
      exists a b, In a df /\ In b df /\
                  (month_ord (fst a) <= k <= month_ord (fst b))%Z.
Proof.
  intros Hv Hne. unfold resample_MS.
  pose proof (sort_by_perm date_lt df) as Hperm.
  pose proof (sort_by_date_sorted df) as Hsorted.
  assert (Hvs : Forall (fun r => valid_date (fst r)) (sort_by date_lt df)).
  { apply (Permutation_Forall (Permutation_sym Hperm)). exact Hv. }
  destruct (sort_by date_lt df) as [|r0 l] eqn:Hs.
  { apply Permutation_nil in Hperm. contradiction. }
  pose proof (date_order_bounds r0 l Hvs Hsorted) as Hb.
  set (lo := month_ord (fst r0)) in *.
  set (hi := month_ord (fst (last (r0 :: l) r0))) in *.
  assert (Hlohi : (lo <= hi)%Z) by (inversion Hb; subst; lia).
  exists lo, (Z.to_nat (hi - lo + 1)). split; [reflexivity|].
  intros k. rewrite Zseq_In. split.
  - intros Hk. exists r0, (last (r0 :: l) r0). repeat split.
    + apply (Permutation_in _ Hperm). left; reflexivity.
    + apply (Permutation_in _ Hperm).
      destruct (exists_last (l := r0 :: l)) as (l' & z & E); [discriminate|].
      rewrite E, last_last. apply in_or_app. right. left; reflexivity.
    + fold lo. lia.
    + fold hi. lia.
  - intros (a & b & Ha & Hb' & Hk).
    apply (Permutation_in _ (Permutation_sym Hperm)) in Ha, Hb'.
    rewrite Forall_forall in Hb.
    pose proof (Hb a Ha). pose proof (Hb b Hb'). lia.
Qed.

(** C7 as stated fails: with an observation in January and one in March
    the output has a row for February, the month without observations. *)
Lemma to_monthly_keeps_unpopulated_month :
  to_monthly [(mkdate 2020 1 15, fin 1); (mkdate 2020 3 10, fin 3)] "last"
  = [(mkdate 2020 1 1, fin 1); (mkdate 2020 2 1, nan); (mkdate 2020 3 1, fin 3)] /\
  ~ one_row_per_populated_month
      [(mkdate 2020 1 15, fin 1); (mkdate 2020 3 10, fin 3)]
      (to_monthly [(mkdate 2020 1 15, fin 1); (mkdate 2020 3 10, fin 3)] "last").
Proof.
  split; [reflexivity|].
  intros H. specialize (H (month_ord (mkdate 2020 2 1))).
  apply proj1 in H.
  assert (Hlt : (0 < 0)%nat); [|lia].
  apply H. right. left. reflexivity.
Qed.

(** C7, amended.  [to_monthly] returns an empty input as it is; otherwise
    the output has one row for every calendar month from the month of the
    earliest observation to the month of the latest one, keyed by the first
    day of the month and in ascending order, also for a month without
    observations; every observation falls in the row keyed by the first
    day of its month.  With the observations of a month taken in date order,
    "mean" gives the average of the values that are not missing and "last"
    the last value that is not missing; a month with no such value has the
    missing value. *)
Theorem to_monthly_month_grid (df : frame) (how : string) :
  Forall (fun r => valid_date (fst r)) df ->
  let s := sort_by date_lt df in
  let out := to_monthly df how in
  (df = [] -> out = []) /\
  consecutive_months out /\
  (forall r : date * float,
     In r df -> In (mkdate (d_year (fst r)) (d_month (fst r)) 1) (map fst out)) /\
  (forall k : Z,
     In (month_start k) (map fst out) <->
     exists a b, In a df /\ In b df /\
                 (month_ord (fst a) <= k <= month_ord (fst b))%Z) /\
  (forall (k : Z) (v : float),
     In (month_start k, v) out ->
     (how = "mean"%string ->
      v = match notna_values (bucket k s) with
          | [] => nan
          | xs => fin (population_mean xs)
          end) /\
     (how = "last"%string ->
      (all_missing (bucket k s) /\ v = nan) \/
      (exists (l1 : list float) (x : R) (l2 : list float),
         bucket k s = l1 ++ fin x :: l2 /\ all_missing l2 /\ v = fin x))).
Proof.
  intros Hv.
  destruct df as [|r df'].
  { simpl. split; [reflexivity|]. split; [exists 0%Z; reflexivity|].
    split; [intros r []|]. split.
    - intros k. split; [intros [] | intros (a & _ & [] & _)].
    - intros k v []. }
  assert (Hne : r :: df' <> []) by discriminate.
  revert Hv Hne. generalize (r :: df') as df. clear r df'.
  intros df Hv Hne s out.
  set (agg := if String.eqb how "mean" then series_mean else group_last).
  assert (Hout : out = resample_MS agg df).
  { subst out agg. unfold to_monthly.
    destruct df; [contradiction|]. simpl.
    destruct (String.eqb how "mean"); reflexivity. }
  destruct (resample_MS_grid agg df Hv Hne) as (lo & n & Hgrid & Hmonths).
  rewrite Hgrid in Hout. fold s in Hout.
  assert (Hfst : map fst out = map month_start (Zseq lo n)).
  { rewrite Hout, map_map. reflexivity. }
  split; [intros E; contradiction|]. split.
  { exists lo. rewrite Hfst. f_equal. f_equal.
    rewrite Hout, length_map, Zseq_length. reflexivity. }
  assert (Hrange : forall k : Z,
            In (month_start k) (map fst out) <->
            exists a b, In a df /\ In b df /\
                        (month_ord (fst a) <= k <= month_ord (fst b))%Z).
  { intros k. rewrite <- Hmonths, Hfst, in_map_iff. split.
    - intros (k' & E & Hk'). apply (f_equal month_ord) in E.
      rewrite !month_ord_start in E. subst k'. exact Hk'.
    - intros Hk. exists k. split; [reflexivity | exact Hk]. }
  split.
  { intros r Hr. rewrite <- month_start_ord.
    - apply Hrange. exists r, r. repeat split; try assumption; lia.
    - rewrite Forall_forall in Hv. apply Hv, Hr. }
  split; [exact Hrange|].
  intros k v Hin. rewrite Hout in Hin. apply in_map_iff in Hin.
  destruct Hin as (k' & E & _).
  pose proof (f_equal (fun row => month_ord (fst row)) E) as Ek.
  pose proof (f_equal snd E) as Ev. cbn [fst snd] in Ek, Ev.
  rewrite !month_ord_start in Ek. subst k'.
  subst v agg. split.
  - intros ->. simpl. unfold series_mean, population_mean.
    destruct (notna_values (bucket k s)); reflexivity.
  - intros ->. simpl. destruct (group_last_spec (bucket k s)) as [(H1 & H2) | H].
    + left. split; assumption.
    + right. exact H.
Qed.

Lemma to_monthly_month_grid_witness :
  let df := [(mkdate 2020 1 15, fin 1); (mkdate 2020 3 10, fin 3)] in
  let s := sort_by date_lt df in
  let out := to_monthly df "last" in
  (df = [] -> out = []) /\
  consecutive_months out /\
  (forall r : date * float,
     In r df -> In (mkdate (d_year (fst r)) (d_month (fst r)) 1) (map fst out)) /\
  (forall k : Z,
     In (month_start k) (map fst out) <->
     exists a b, In a df /\ In b df /\
                 (month_ord (fst a) <= k <= month_ord (fst b))%Z) /\
  (forall (k : Z) (v : float),
     In (month_start k, v) out ->
     ("last"%string = "mean"%string ->
      v = match notna_values (bucket k s) with
          | [] => nan
          | xs => fin (population_mean xs)
          end) /\
     ("last"%string = "last"%string ->
      (all_missing (bucket k s) /\ v = nan) \/
      (exists (l1 : list float) (x : R) (l2 : list float),
         bucket k s = l1 ++ fin x :: l2 /\ all_missing l2 /\ v = fin x))).
Proof.
  apply (to_monthly_month_grid
           [(mkdate 2020 1 15, fin 1); (mkdate 2020 3 10, fin 3)] "last").
  repeat constructor; simpl; lia.
Defined.

(** ** Year-over-year change *)

Lemma nth_error_combine {A B : Type} (l : list A) (l' : list B) (i : nat) :
  nth_error (combine l l') i
  = match nth_error l i, nth_error l' i with
    | Some a, Some b => Some (a, b)
    | _, _ => None
    end.
Proof.
  revert l' i. induction l as [|a l IH]; intros [|b l'] [|i]; simpl;
    try reflexivity.
  - destruct (nth_error l i); reflexivity.
  - apply IH.
Qed.

Lemma In_combine_nth_error {A B : Type} (l : list A) (l' : list B) (a : A) (b : B) :
  In (a, b) (combine l l') <->
  exists i : nat, nth_error l i = Some a /\ nth_error l' i = Some b.
Proof.
  split.
  - intros H. apply In_nth_error in H. destruct H as (i & Hi).
    rewrite nth_error_combine in Hi. exists i.
    destruct (nth_error l i), (nth_error l' i); try discriminate.
    injection Hi as -> ->. split; reflexivity.
  - intros (i & Ha & Hb). apply (nth_error_In _ i).
    rewrite nth_error_combine, Ha, Hb. reflexivity.
Qed.

Lemma nth_error_shift (p : nat) (l : list float) (i : nat) :
  nth_error (shift p l) i
  = if (i <? length l)%nat
    then if (i <? p)%nat then Some nan else nth_error l (i - p)
    else None.
Proof.
  unfold shift. rewrite nth_error_firstn.
  destruct (Nat.ltb_spec i (length l)) as [Hi | Hi]; [|reflexivity].
  destruct (Nat.ltb_spec i p) as [Hp | Hp].
  - rewrite nth_error_app1 by (rewrite repeat_length; exact Hp).
    apply nth_error_repeat. exact Hp.
  - rewrite nth_error_app2 by (rewrite repeat_length; exact Hp).
    rewrite repeat_length. reflexivity.
Qed.

(** The change in percent of [d] against [sh] is a number exactly when
    both are. *)
Lemma pct_value (d sh v : float) :
  fmul (fsub (fdiv d sh) (fin 1)) (fin 100) = v /\ notna v = true <->
  exists a b : R, d = fin a /\ sh = fin b /\ v = fin ((a / b - 1) * 100).
Proof.
  split.
  - intros (<- & Hn). destruct d as [|a], sh as [|b]; try discriminate.
    exists a, b. repeat split.
  - intros (a & b & -> & -> & ->). split; reflexivity.
Qed.

Lemma ffill_from_length (prev : float) (l : list float) :
  length (ffill_from prev l) = length l.
Proof.
  revert prev. induction l as [|x l IH]; intros prev; simpl; [|rewrite IH];
    reflexivity.
Qed.

(** A column without missing values is not changed by the forward fill. *)
Lemma ffill_from_notna (prev : float) (l : list float) :
  Forall (fun v => v <> nan) l -> ffill_from prev l = l.
Proof.
  intros H. revert prev. induction H as [|x l Hx _ IH]; intros prev; simpl;
    [reflexivity|].
  destruct x; [contradiction|]. simpl. rewrite IH. reflexivity.
Qed.

(** The rows of the output of [yoy_from_level], by their position in month
    order. *)
Lemma yoy_from_level_In (pad : bool) (monthly_df : frame) (m : date) (v : float) :
  let x := sort_by date_lt monthly_df in
  let data := if pad then ffill (map snd x) else map snd x in
  In (m, v) (yoy_from_level pad monthly_df) <->
  exists (i : nat) (a b : R),
    (12 <= i)%nat /\
    nth_error (map fst x) i = Some m /\
    nth_error data i = Some (fin a) /\
    nth_error data (i - 12) = Some (fin b) /\
    v = fin ((a / b - 1) * 100).
Proof.
  intros x data. unfold yoy_from_level, dropna, pct_change.
  fold x. fold data. rewrite filter_In, In_combine_nth_error. cbn [snd].
  split.
  - intros ((i & Hm & Hv) & Hn).
    rewrite !nth_error_map, nth_error_combine, nth_error_shift in Hv.
    destruct (nth_error data i) as [d|] eqn:Hd; [|discriminate].
    assert (Hi : (i < length data)%nat) by (apply nth_error_Some; congruence).
    destruct (Nat.ltb_spec i (length data)) as [_ | Hc]; [|lia].
    destruct (Nat.ltb_spec i 12) as [Hlt | Hge].
    + simpl in Hv. injection Hv as <-. destruct d; discriminate.
    + destruct (nth_error data (i - 12)) as [sh|] eqn:Hsh; [|discriminate].
      simpl in Hv. injection Hv as Hv.
      destruct (proj1 (pct_value d sh v) (conj Hv Hn)) as (a & b & -> & -> & ->).
      exists i, a, b. repeat split; assumption.
  - intros (i & a & b & Hi & Hm & Ha & Hb & ->). split; [|reflexivity].
    exists i. split; [exact Hm|].
    rewrite !nth_error_map, nth_error_combine, nth_error_shift, Ha.
    assert (Hlen : (i < length data)%nat) by (apply nth_error_Some; congruence).
    destruct (Nat.ltb_spec i (length data)) as [_ | Hc]; [|lia].
    destruct (Nat.ltb_spec i 12) as [Hlt | _]; [lia|].
    rewrite Hb. reflexivity.
Qed.

Lemma nth_error_Zseq (lo : Z) (n i : nat) :
  (i < n)%nat -> nth_error (Zseq lo n) i = Some (lo + Z.of_nat i)%Z.
Proof.
  intros Hi. unfold Zseq. rewrite nth_error_map, nth_error_seq.
  destruct (Nat.ltb_spec i n); [reflexivity | lia].
Qed.





(** ** Trailing z-score *)

Lemma dropna_values (series : frame) :
  map snd (dropna series) = map fin (notna_values (map snd series)).
Proof.
  induction series as [|[d [|x]] series IH]; simpl; [reflexivity | exact IH |].
  rewrite IH. reflexivity.
Qed.

Lemma notna_values_fin (xs : list R) : notna_values (map fin xs) = xs.
Proof. induction xs as [|x xs IH]; simpl; [|rewrite IH]; reflexivity. Qed.

Lemma last_map_fin (xs : list R) :
  xs <> [] -> last (map fin xs) nan = fin (last xs 0).
Proof.
  induction xs as [|x [|y xs] IH]; intros H; [contradiction | reflexivity |].
  change (last (map fin (y :: xs)) nan = fin (last (y :: xs) 0)).
  apply IH. discriminate.
Qed.

(** The slice [s.iloc[-window:]], taken when the series has at least
    [window] points, and the whole series otherwise, are the trailing
    [window] points. *)
Lemma zscore_tail {A : Type} (window : Z) (s : list A) :
  (0 < window)%Z ->
  (if (Z.of_nat (length s) >=? window)%Z then iloc_from (- window) s else s)
  = trailing (Z.to_nat window) s.
Proof.
  intros Hw. unfold trailing, iloc_from.
  destruct (Z.geb_spec (Z.of_nat (length s)) window) as [Hge | Hlt].
  - destruct (Z.ltb_spec (- window) 0) as [_ | Hc]; [|lia].
    f_equal. lia.
  - replace (length s - Z.to_nat window)%nat with 0%nat by lia. reflexivity.
Qed.

Lemma series_mean_fin (xs : list R) :
  xs <> [] -> series_mean (map fin xs) = fin (population_mean xs).
Proof.
  intros H. unfold series_mean. rewrite notna_values_fin.
  destruct xs; [contradiction | reflexivity].
Qed.

Lemma series_std_fin (xs : list R) :
  xs <> [] -> series_std 0 (map fin xs) = fin (population_std xs).
Proof.
  intros H. unfold series_std, population_std, population_mean.
  rewrite notna_values_fin.
  destruct (Z.leb_spec (Z.of_nat (length xs)) 0) as [Hle | Hgt].
  { destruct xs; [contradiction | simpl in Hle; lia]. }
  rewrite Z.sub_0_r, <- INR_IZR_INZ.
  rewrite (map_ext (fun v => (Rsum xs / INR (length xs) - v) ^ 2)
                   (fun x => (x - Rsum xs / INR (length xs)) ^ 2))
    by (intros v; ring).
  reflexivity.
Qed.

(** On exact numbers [zscore] is the population z-score: with the
    missing values removed, a series of fewer than max(24, window / 4)
    points (the quotient is the integer one) has an undefined z-score;
    otherwise, over the trailing [window] points (all of them when there
    are fewer), the z-score is undefined when the population standard
    deviation is 0 and it is (last value - mean) / deviation when it is
    not, mean and deviation being the population ones (divisor N). *)
Lemma zscore_population (series : frame) (window : Z) :
  (0 < window)%Z ->
  let s := notna_values (map snd series) in
  let tail := trailing (Z.to_nat window) s in
  ((Z.of_nat (length s) < Z.max 24 (window / 4))%Z ->
   zscore series window = nan) /\
  ((Z.max 24 (window / 4) <= Z.of_nat (length s))%Z ->
   (population_std tail = 0 -> zscore series window = nan) /\
   (population_std tail <> 0 ->
    zscore series window
    = fin ((last s 0 - population_mean tail) / population_std tail))).
Proof.
  intros Hw s tail. unfold zscore. rewrite dropna_values. fold s.
  rewrite zscore_tail by exact Hw. rewrite length_map. split.
  - intros Hn. destruct (Z.ltb_spec (Z.of_nat (length s)) (Z.max 24 (window / 4)));
      [reflexivity | lia].
  - intros Hn. destruct (Z.ltb_spec (Z.of_nat (length s)) (Z.max 24 (window / 4)));
      [lia|].
    unfold trailing. rewrite length_map, skipn_map. fold (trailing (Z.to_nat window) s).
    fold tail.
    assert (Hs : s <> []) by (intros E; rewrite E in Hn; simpl in Hn; lia).
    assert (Ht : tail <> []).
    { intros E. apply (f_equal (@length R)) in E. unfold tail, trailing in E.
      rewrite length_skipn in E. simpl in E. lia. }
    rewrite series_mean_fin, series_std_fin, last_map_fin by assumption.
    unfold feq, isnan. rewrite orb_false_r. split; intros Hsd.
    + destruct (Reqb _ 0) eqn:E; [reflexivity|].
      apply Reqb_false in E. contradiction.
    + destruct (Reqb _ 0) eqn:E; [apply Reqb_true in E; contradiction|].
      reflexivity.
Qed.


(** ** The clamp *)

Lemma clamp_nan (lo hi : float) : clamp nan lo hi = fin 0.
Proof. reflexivity. Qed.

Lemma clamp_fin (x lo hi : R) :
  lo <= hi ->
  clamp (fin x) (fin lo) (fin hi) = fin (Rmax lo (Rmin hi x)).
Proof.
  intros Hlh. unfold clamp, py_max, py_min, fgt, flt; simpl.
  cmp_cases; simpl; cmp_cases; f_equal;
    unfold Rmin; destruct (Rle_dec hi x);
    unfold Rmax; destruct (Rle_dec lo _); lra.
Qed.

Lemma clamp_range (x : float) (lo hi : R) :
  lo <= 0 <= hi ->
  exists r, clamp x (fin lo) (fin hi) = fin r /\ lo <= r <= hi.
Proof.
  intros Hlh. destruct x as [|x].
  - exists 0. split; [reflexivity | lra].
  - exists (Rmax lo (Rmin hi x)). split.
    + apply clamp_fin; lra.
    + unfold Rmin; destruct (Rle_dec hi x);
        unfold Rmax; destruct (Rle_dec lo _); lra.
Qed.

(** ** The comparing helpers on machine floats *)

Module Binary64Facts.
Import Floats.
Local Open Scope float_scope.

Lemma ltb_leb (x y : float) : (x <? y) = true -> (x <=? y) = true.
Proof.
  rewrite ltb_spec, leb_spec. unfold SFltb, SFleb.
  destruct (SFcompare (Prim2SF x) (Prim2SF y)) as [[| |]|]; congruence.
Qed.

(** Every binary64 value, an infinity or the undefined one too, is
    clamped into the bounds of the source. *)
Lemma clamp_within (x : float) :
  (-2 <=? Binary64.clamp x (-2) 2) = true /\
  (Binary64.clamp x (-2) 2 <=? 2) = true /\
  (-3 <=? Binary64.clamp x (-3) 3) = true /\
  (Binary64.clamp x (-3) 3 <=? 3) = true.
Proof.
  unfold Binary64.clamp, Binary64.py_max, Binary64.py_min.
  destruct (is_nan x); [repeat split; reflexivity|].
  repeat split.
  - destruct (x <? 2) eqn:H1; [|reflexivity].
    destruct (-2 <? x) eqn:H2; [apply ltb_leb, H2 | reflexivity].
  - destruct (x <? 2) eqn:H1; [|reflexivity].
    destruct (-2 <? x) eqn:H2; [apply ltb_leb, H1 | reflexivity].
  - destruct (x <? 3) eqn:H1; [|reflexivity].
    destruct (-3 <? x) eqn:H2; [apply ltb_leb, H2 | reflexivity].
  - destruct (x <? 3) eqn:H1; [|reflexivity].
    destruct (-3 <? x) eqn:H2; [apply ltb_leb, H1 | reflexivity].
Qed.

Lemma clamp_extremes :
  Binary64.clamp infinity (-3) 3 = 3 /\
  Binary64.clamp neg_infinity (-3) 3 = -3 /\
  Binary64.clamp nan (-3) 3 = 0 /\
  Binary64.clamp 0x1p+1000 (-2) 2 = 2.
Proof. repeat split; reflexivity. Qed.

Lemma regime_boundaries :
  Binary64.regime_from_score 0.5 = "bull"%string /\
  Binary64.regime_from_score (-0.5) = "bear"%string /\
  Binary64.regime_from_score 0 = "neutral"%string /\
  Binary64.regime_from_score nan = "neutral"%string /\
  Binary64.regime_from_score infinity = "bull"%string /\
  Binary64.regime_from_score neg_infinity = "bear"%string.
Proof. repeat split; reflexivity. Qed.

End Binary64Facts.

(** ** Composite scorer *)

(** What the loop over [driver_specs] returns when every series is
    there: one record per indicator, in the order of [driver_specs]. *)
Lemma drivers_loop_inv (zf : frame -> float) (monthly : dict frame)
  (ds : list driver) (contribs : list float) :
  drivers_loop zf monthly = Ok (ds, contribs) ->
  exists ss : list frame,
    length ss = 5%nat /\
    Forall2 (fun d s => series_of monthly (spec_key d) = Ok s) driver_specs ss /\
    ds = map (fun p => driver_record (fst p) (snd p) (zf (snd p)))
             (combine driver_specs ss) /\
    contribs = map contribution ds.
Proof.
  unfold drivers_loop, driver_specs; simpl.
  destruct (series_of monthly "CPI_YOY") as [e1|s1] eqn:E1; simpl; [discriminate|].
  destruct (series_of monthly "UNRATE") as [e2|s2] eqn:E2; simpl; [discriminate|].
  destruct (series_of monthly "FEDFUNDS") as [e3|s3] eqn:E3; simpl; [discriminate|].
  destruct (series_of monthly "T10Y2Y") as [e4|s4] eqn:E4; simpl; [discriminate|].
  destruct (series_of monthly "BAMLH0A0HYM2") as [e5|s5] eqn:E5; simpl; [discriminate|].
  intros H. injection H as <- <-.
  exists [s1; s2; s3; s4; s5]. repeat split.
  repeat constructor; assumption.
Qed.

(** The adjusted z-score of a record is a number between -3 and 3, and
    its contribution is a number. *)
Lemma driver_record_fin (d : driver_spec) (s : frame) (z : float) :
  In d driver_specs ->
  exists a w : R,
    spec_weight d = fin w /\ 0 <= w <= 1 /\
    z_adj (driver_record d s z) = fin a /\ -3 <= a <= 3 /\
    contribution (driver_record d s z) = fin (w * a).
Proof.
  intros Hd.
  destruct (clamp_range (fmul (of_int (direction d)) z) (-3) 3) as (a & Ha & Hr);
    [lra|].
  assert (Hw : exists w, spec_weight d = fin w /\ 0 <= w <= 1).
  { simpl in Hd.
    repeat (destruct Hd as [<- | Hd]; [eexists; split; [reflexivity | lra] |]).
    contradiction. }
  destruct Hw as (w & Hw & Hwr).
  exists a, w. unfold driver_record; cbn [z_adj contribution].
  change (of_int (-3)) with (fin (-3)). change (of_int 3) with (fin 3).
  rewrite Ha, Hw. repeat split; lra.
Qed.


Lemma nansum_fin (cs : list R) : nansum (map fin cs) = fin (Rsum cs).
Proof.
  unfold nansum. rewrite map_map; simpl.
  assert (G : forall acc, fold_left fadd (map (fun x => fin x) cs) (fin acc)
                          = fin (acc + Rsum cs)).
  { induction cs as [|c cs IH]; intros acc; simpl.
    - f_equal; lra.
    - rewrite IH. f_equal; lra. }
  rewrite G. f_equal; lra.
Qed.




(** ** Regime label *)

(** C4.  The regime label depends on the score alone, with both thresholds
    inclusive: a score of at least 0.5 is "bull", a score of at most -0.5
    is "bear", every other score (the undefined one too) is "neutral"; in
    particular 0.5 is "bull", -0.5 is "bear" and 0.0 is "neutral". *)
Theorem regime_from_score_thresholds :
  (forall s : R, 5 / 10 <= s -> regime_from_score (fin s) = "bull"%string) /\
  (forall s : R, s <= - (5 / 10) -> regime_from_score (fin s) = "bear"%string) /\
  (forall s : R, - (5 / 10) < s < 5 / 10 ->
                 regime_from_score (fin s) = "neutral"%string) /\
  regime_from_score nan = "neutral"%string /\
  regime_from_score (fin (5 / 10)) = "bull"%string /\
  regime_from_score (fin (- (5 / 10))) = "bear"%string /\
  regime_from_score (fin 0) = "neutral"%string.
Proof.
  assert (Hbull : forall s : R, 5 / 10 <= s ->
                    regime_from_score (fin s) = "bull"%string).
  { intros s Hs. unfold regime_from_score, fge, fle. cmp_cases; try reflexivity; lra. }
  assert (Hbear : forall s : R, s <= - (5 / 10) ->
                    regime_from_score (fin s) = "bear"%string).
  { intros s Hs. unfold regime_from_score, fge, fle. cmp_cases; try reflexivity; lra. }
  assert (Hneutral : forall s : R, - (5 / 10) < s < 5 / 10 ->
                    regime_from_score (fin s) = "neutral"%string).
  { intros s Hs. unfold regime_from_score, fge, fle. cmp_cases; try reflexivity; lra. }
  repeat split; auto.
  - apply Hbull; lra.
  - apply Hbear; lra.
  - apply Hneutral; lra.
Qed.

(** ** Decaying projection *)

Lemma fold_left_snoc_map {A B : Type} (f : A -> B) (l : list A) (init : list B) :
  fold_left (fun acc x => acc ++ [f x]) l init = init ++ map f l.
Proof.
  revert init. induction l as [|x l IH]; intros init; simpl.
  - now rewrite app_nil_r.
  - rewrite IH, <- app_assoc. reflexivity.
Qed.

(** The loop of [exp_decay_curve] computes one value per month index. *)
Lemma exp_decay_curve_map (score_now : float) (months : Z) (k : float) :
  exp_decay_curve score_now months k
  = map (fun m => fmul score_now (fexp (fmul (fneg k) (of_int m))))
        (py_range months).
Proof.
  unfold exp_decay_curve, exp_decay_step.
  apply (fold_left_snoc_map
           (fun m => fmul score_now (fexp (fmul (fneg k) (of_int m))))).
Qed.

Lemma py_range_length (n : Z) : Z.of_nat (length (py_range n)) = Z.max 0 n.
Proof. unfold py_range. rewrite length_map, length_seq. lia. Qed.

Lemma py_range_nth (n : Z) (i : nat) :
  (i < length (py_range n))%nat -> nth i (py_range n) 0%Z = Z.of_nat i.
Proof.
  unfold py_range. rewrite length_map, length_seq. intros Hi.
  change 0%Z with (Z.of_nat 0). rewrite map_nth, seq_nth by exact Hi.
  reflexivity.
Qed.

(** The partial sums of the alternating series of [exp (- x)] enclose it
    when [0 <= x <= 1]. *)
Lemma exp_neg_enclosure (x : R) (N : nat) :
  0 <= x <= 1 ->
  sum_f_R0 (tg_alt (fun i => x ^ i / INR (fact i))) (S (2 * N)) <= exp (- x)
  <= sum_f_R0 (tg_alt (fun i => x ^ i / INR (fact i))) (2 * N).
Proof.
  intros Hx. apply alternated_series_ineq.
  - intros n. simpl pow. rewrite fact_simpl, mult_INR.
    assert (Hf : 0 < INR (fact n)) by apply INR_fact_lt_0.
    assert (Hn : 1 <= INR (S n)) by (rewrite S_INR; pose proof (pos_INR n); lra).
    assert (Hp : 0 <= x ^ n) by (apply pow_le; lra).
    unfold Rdiv. rewrite Rinv_mult.
    assert (Hi : 0 < / INR (fact n)) by (apply Rinv_0_lt_compat; exact Hf).
    assert (Hs : 0 < / INR (S n) <= 1).
    { split; [apply Rinv_0_lt_compat; lra|].
      rewrite <- Rinv_1. apply Rinv_le_contravar; lra. }
    set (a := x ^ n * / INR (fact n)).
    assert (Hq : 0 <= a) by (unfold a; nra).
    assert (Hb : 0 <= x * / INR (S n) <= 1) by nra.
    replace (x * x ^ n * (/ INR (S n) * / INR (fact n)))
      with (a * (x * / INR (S n))) by (unfold a; ring).
    nra.
  - apply cv_speed_pow_fact.
  - unfold exp. destruct (exist_exp (- x)) as (l & Hl); simpl.
    intros eps Heps. destruct (Hl eps Heps) as (n0 & Hn0).
    exists n0. intros n Hn. specialize (Hn0 n Hn).
    replace (sum_f_R0 (tg_alt (fun i => x ^ i / INR (fact i))) n)
      with (sum_f_R0 (fun i => / INR (fact i) * (- x) ^ i) n); [exact Hn0|].
    apply sum_eq. intros i _. unfold tg_alt.
    replace (- x) with (-1 * x) by ring. rewrite Rpow_mult_distr.
    unfold Rdiv. ring.
Qed.

Lemma exp_neg_022 : 802518 / 1000000 <= exp (- (22 / 100)) <= 802523 / 1000000.
Proof.
  pose proof (exp_neg_enclosure (22 / 100) 2) as H.
  unfold tg_alt in H. simpl in H.
  assert (Hx : 0 <= 22 / 100 <= 1) by lra. specialize (H Hx). lra.
Qed.

(** C5.  The projection is an ordered sequence of exactly [horizon] values
    (none for a horizon below 1), the value at index [i] is
    [score_now * exp (- decay_k * i)], the first one is [score_now]
    itself, and for a score of 1.0, a horizon of 3 and a decay of 0.22 the
    values are 1.0, 0.8025 and 0.6440 to four decimals. *)
Theorem exp_decay_curve_values (score_now : float) (horizon : Z) (decay_k : float) :
  let curve := exp_decay_curve score_now horizon decay_k in
  Z.of_nat (length curve) = Z.max 0 horizon /\
  (forall i : nat, (i < length curve)%nat ->
     nth i curve nan
     = fmul score_now (fexp (fmul (fneg decay_k) (of_int (Z.of_nat i))))) /\
  (isnan decay_k = false -> (0 < horizon)%Z -> nth 0 curve nan = score_now) /\
  exists v1 v2 : R,
    exp_decay_curve (fin 1) 3 (fin (22 / 100)) = [fin 1; fin v1; fin v2] /\
    Rabs (v1 - 8025 / 10000) <= 5 / 100000 /\
    Rabs (v2 - 6440 / 10000) <= 5 / 100000.
Proof.
  cbv zeta. rewrite !exp_decay_curve_map.
  assert (Hnth : forall i : nat,
    (i < length (map (fun m => fmul score_now (fexp (fmul (fneg decay_k) (of_int m))))
                     (py_range horizon)))%nat ->
    nth i (map (fun m => fmul score_now (fexp (fmul (fneg decay_k) (of_int m))))
               (py_range horizon)) nan
    = fmul score_now (fexp (fmul (fneg decay_k) (of_int (Z.of_nat i))))).
  { intros i Hi. rewrite length_map in Hi.
    rewrite (nth_indep _ nan
               (fmul score_now (fexp (fmul (fneg decay_k) (of_int 0)))))
      by (rewrite length_map; exact Hi).
    rewrite (map_nth (fun m => fmul score_now (fexp (fmul (fneg decay_k) (of_int m))))).
    rewrite py_range_nth by exact Hi. reflexivity. }
  split; [|split; [|split]].
  - rewrite length_map. apply py_range_length.
  - exact Hnth.
  - intros Hk Hh. rewrite Hnth.
    + destruct decay_k as [|k]; [discriminate|].
      destruct score_now as [|s]; [reflexivity|].
      simpl. f_equal. rewrite Rmult_0_r, exp_0. ring.
    + rewrite length_map. pose proof (py_range_length horizon). lia.
  - exists (1 * exp (- (22 / 100) * 1)), (1 * exp (- (22 / 100) * 2)).
    split.
    { change (py_range 3) with [0%Z; 1%Z; 2%Z]. cbn [map fmul fexp fneg lift1 lift2 of_int].
      f_equal. f_equal. rewrite Rmult_0_r, exp_0. lra. }
    pose proof exp_neg_022 as H.
    assert (H2 : exp (- (22 / 100) * 2) = exp (- (22 / 100)) * exp (- (22 / 100))).
    { rewrite <- exp_plus. f_equal. lra. }
    replace (- (22 / 100) * 1) with (- (22 / 100)) by lra.
    rewrite H2. split; apply Rabs_le; nra.
Qed.

(** The values of a projection from a number, with a decay that is a
    number. *)
Lemma exp_decay_curve_fin (s k : R) (months : Z) :
  exp_decay_curve (fin s) months (fin k)
  = map (fun m => fin (s * exp (- k * IZR m))) (py_range months).
Proof. rewrite exp_decay_curve_map. reflexivity. Qed.

(** C10.  With a decay that is not negative the projection moves toward
    neutral: it has one value per month asked for, starting at the current
    score; every value has the sign of the current score or is zero,
    consecutive values do not grow in absolute value, and a current score
    between -2 and 2 keeps every projected value between -2 and 2. *)
Theorem exp_decay_curve_toward_neutral (s k : R) (months : Z) :
  0 <= k ->
  exists vs : list R,
    exp_decay_curve (fin s) months (fin k) = map fin vs /\
    length vs = Z.to_nat months /\
    ((0 < months)%Z -> nth 0 vs 0 = s) /\
    (forall i : nat, (i < length vs)%nat ->
       (0 <= s -> 0 <= nth i vs 0) /\ (s <= 0 -> nth i vs 0 <= 0)) /\
    (forall i : nat, (S i < length vs)%nat ->
       Rabs (nth (S i) vs 0) <= Rabs (nth i vs 0)) /\
    (-2 <= s <= 2 -> forall v : R, In v vs -> -2 <= v <= 2).
Proof.
  intros Hk.
  exists (map (fun m => s * exp (- k * IZR m)) (py_range months)).
  assert (Hnth : forall i : nat, (i < length (py_range months))%nat ->
            nth i (map (fun m => s * exp (- k * IZR m)) (py_range months)) 0
            = s * exp (- k * INR i)).
  { intros i Hi.
    rewrite (nth_indep _ 0 (s * exp (- k * IZR 0))) by (rewrite length_map; exact Hi).
    rewrite (map_nth (fun m => s * exp (- k * IZR m))).
    rewrite py_range_nth by exact Hi. rewrite <- INR_IZR_INZ. reflexivity. }
  split; [|split; [|split; [|split; [|split]]]].
  - rewrite exp_decay_curve_fin, map_map. reflexivity.
  - rewrite length_map. pose proof (py_range_length months). lia.
  - intros Hm. rewrite Hnth by (pose proof (py_range_length months); lia).
    cbn [INR]. rewrite Rmult_0_r, exp_0. ring.
  - intros i Hi. rewrite length_map in Hi. rewrite Hnth by exact Hi.
    pose proof (exp_pos (- k * INR i)) as He. split; intros; nra.
  - intros i Hi. rewrite length_map in Hi.
    rewrite !Hnth by lia. rewrite !Rabs_mult.
    rewrite (Rabs_pos_eq (exp _)) by (left; apply exp_pos).
    rewrite (Rabs_pos_eq (exp _)) by (left; apply exp_pos).
    apply Rmult_le_compat_l; [apply Rabs_pos|].
    assert (Hle : - k * INR (S i) <= - k * INR i) by (rewrite S_INR; nra).
    destruct Hle as [Hlt | Heq]; [left; apply exp_increasing; exact Hlt|].
    rewrite Heq. apply Rle_refl.
  - intros Hs v Hv. apply in_map_iff in Hv. destruct Hv as (m & <- & Hm).
    unfold py_range in Hm. apply in_map_iff in Hm. destruct Hm as (n & <- & _).
    pose proof (exp_pos (- k * IZR (Z.of_nat n))) as Hp.
    assert (He : exp (- k * IZR (Z.of_nat n)) <= 1).
    { rewrite <- exp_0.
      assert (Hle : - k * IZR (Z.of_nat n) <= 0).
      { rewrite <- INR_IZR_INZ. pose proof (pos_INR n). nra. }
      destruct Hle as [Hlt | Heq]; [left; apply exp_increasing; exact Hlt|].
      rewrite Heq. apply Rle_refl. }
    nra.
Qed.

Lemma exp_decay_curve_toward_neutral_witness :
  exists vs : list R,
    exp_decay_curve (fin 1) 12 (fin (22 / 100)) = map fin vs /\
    length vs = Z.to_nat 12 /\
    ((0 < 12)%Z -> nth 0 vs 0 = 1) /\
    (forall i : nat, (i < length vs)%nat ->
       (0 <= 1 -> 0 <= nth i vs 0) /\ (1 <= 0 -> nth i vs 0 <= 0)) /\
    (forall i : nat, (S i < length vs)%nat ->
       Rabs (nth (S i) vs 0) <= Rabs (nth i vs 0)) /\
    (-2 <= 1 <= 2 -> forall v : R, In v vs -> -2 <= v <= 2).
Proof.
  apply (exp_decay_curve_toward_neutral 1 (22 / 100) 12). lra.
Defined.

(** ** Run orchestrator *)

Lemma map_fst_combine {A B : Type} (l : list A) (l' : list B) :
  length l = length l' -> map fst (combine l l') = l.
Proof.
  revert l'. induction l as [|a l IH]; intros [|b l'] H; simpl in *;
    try discriminate; [reflexivity|]. f_equal. apply IH. lia.
Qed.

Lemma map_snd_combine {A B : Type} (l : list A) (l' : list B) :
  length l = length l' -> map snd (combine l l') = l'.
Proof.
  revert l'. induction l as [|a l IH]; intros [|b l'] H; simpl in *;
    try discriminate; [reflexivity|]. f_equal. apply IH. lia.
Qed.

Lemma sort_by_length {A : Type} (lt : A -> A -> bool) (l : list A) :
  length (sort_by lt l) = length l.
Proof.
  assert (Hins : forall x l', length (insert_by lt x l') = S (length l')).
  { intros x l'. induction l' as [|y l' IH]; simpl; [reflexivity|].
    destruct (lt y x); simpl; [rewrite IH|]; reflexivity. }
  induction l as [|x l IH]; simpl; [reflexivity|].
  rewrite Hins, IH. reflexivity.
Qed.

Lemma to_monthly_nonempty (df : frame) (how : string) :
  Forall (fun r => valid_date (fst r)) df -> df <> [] -> to_monthly df how <> [].
Proof.
  intros Hv Hne.
  set (agg := if String.eqb how "mean" then series_mean else group_last).
  assert (Hout : to_monthly df how = resample_MS agg df).
  { subst agg. unfold to_monthly. destruct df; [contradiction|]. simpl.
    destruct (String.eqb how "mean"); reflexivity. }
  destruct (resample_MS_grid agg df Hv Hne) as (lo & n & Hgrid & Hmonths).
  rewrite Hout, Hgrid. destruct df as [|r df']; [contradiction|].
  assert (Hin : In (month_ord (fst r)) (Zseq lo n)).
  { apply Hmonths. exists r, r. repeat split; try (left; reflexivity); lia. }
  destruct (Zseq lo n); [destruct Hin | discriminate].
Qed.

(** The computation of a run returns as soon as every request returns at
    least one observation. *)
Lemma compute_succeeds (ev : env) :
  (forall sid : string,
     In sid (map fst SERIES) ->
     exists df : frame,
       fred_observations ev sid = Ok df /\ df <> [] /\
       Forall (fun r => valid_date (fst r)) df) ->
  exists out, compute_macro_score_and_drivers ev = Ok out.
Proof.
  intros H.
  assert (Hm : forall sid, In sid (map fst SERIES) ->
            exists df r m, fred_observations ev sid = Ok df /\
                           to_monthly df "last" = r :: m).
  { intros sid Hsid. destruct (H sid Hsid) as (df & Hf & Hne & Hv).
    pose proof (to_monthly_nonempty df "last" Hv Hne) as Hn.
    destruct (to_monthly df "last") as [|r m] eqn:E; [contradiction|].
    exists df, r, m. split; [exact Hf | exact E]. }
  destruct (Hm "CPIAUCSL"%string) as (d1 & r1 & m1 & F1 & T1); [simpl; tauto|].
  destruct (Hm "UNRATE"%string) as (d2 & r2 & m2 & F2 & T2); [simpl; tauto|].
  destruct (Hm "FEDFUNDS"%string) as (d3 & r3 & m3 & F3 & T3); [simpl; tauto|].
  destruct (Hm "T10Y2Y"%string) as (d4 & r4 & m4 & F4 & T4); [simpl; tauto|].
  destruct (Hm "BAMLH0A0HYM2"%string) as (d5 & r5 & m5 & F5 & T5); [simpl; tauto|].
  destruct (Hm "SP500"%string) as (d6 & r6 & m6 & F6 & T6); [simpl; tauto|].
  unfold compute_macro_score_and_drivers, fetch_all.
  cbn -[to_monthly yoy_from_level zscore].
  rewrite F1; cbn -[to_monthly yoy_from_level zscore].
  rewrite F2; cbn -[to_monthly yoy_from_level zscore].
  rewrite F3; cbn -[to_monthly yoy_from_level zscore].
  rewrite F4; cbn -[to_monthly yoy_from_level zscore].
  rewrite F5; cbn -[to_monthly yoy_from_level zscore].
  rewrite F6; cbn -[to_monthly yoy_from_level zscore].
  unfold monthly_series, monthly_as_is.
  cbn -[to_monthly yoy_from_level zscore].
  rewrite T1; cbn -[to_monthly yoy_from_level zscore].
  rewrite T2; cbn -[to_monthly yoy_from_level zscore].
  rewrite T3; cbn -[to_monthly yoy_from_level zscore].
  rewrite T4; cbn -[to_monthly yoy_from_level zscore].
  rewrite T5; cbn -[to_monthly yoy_from_level zscore].
  rewrite T6; cbn -[to_monthly yoy_from_level zscore].
  eexists. reflexivity.
Qed.

Section Run.

Variable ev : env.

Lemma M_bind_eq {A B : Type} (c : M A) (k : A -> M B) (w : world) :
  bind c k w = match c w with
               | (Raised e, w') => (Raised e, w')
               | (Ok a, w') => k a w'
               end.
Proof. reflexivity. Qed.

(** Building the rows never fails and touches the clock only: one row per
    item, with the index and the score of the item, the target year and
    the drivers handed in. *)
Lemma build_rows_spec (ds : list driver) (items : list (Z * float)) :
  forall (rows0 : list month_row) (w : world),
  exists (rows : list month_row) (w' : world),
    build_rows ev ds items rows0 w = (Ok (rows0 ++ rows), w') /\
    map mes rows = map fst items /\
    map score rows = map snd items /\
    Forall (fun r => anio r = TARGET_YEAR /\ drivers r = ds /\
                     regime r = regime_from_score (score r)) rows /\
    macro_regime_monthly_us w' = macro_regime_monthly_us w /\
    macro_regime_run_log w' = macro_regime_run_log w /\
    store_calls w' = store_calls w.
Proof.
  induction items as [|[i sc] items IH]; intros rows0 w.
  - exists [], w. simpl. rewrite app_nil_r. repeat split; constructor.
  - cbn [build_rows]. rewrite M_bind_eq. unfold now at 1.
    match goal with |- context [build_rows ev ds items ?r ?w1] =>
      destruct (IH r w1) as (rows & w' & Hrun & Hmes & Hsc & Hall & Ht & Hl & Hc)
    end.
    eexists (_ :: rows), w'. rewrite Hrun, <- app_assoc. simpl.
    repeat split; try (f_equal; assumption); try assumption.
    constructor; [repeat split | exact Hall].
Qed.

(** The loop of upserts: either every row is written, in order, or a call
    fails; the run log is not touched. *)
Lemma for_each_upsert_cases (rows : list month_row) :
  forall w : world,
  exists (r : result unit) (w' : world),
    for_each rows (upsert ev) w = (r, w') /\
    macro_regime_run_log w' = macro_regime_run_log w /\
    (r = Ok tt ->
     macro_regime_monthly_us w'
     = fold_left (fun t row => upsert_row row t) rows (macro_regime_monthly_us w)).
Proof.
  induction rows as [|row rows IH]; intros w.
  - exists (Ok tt), w. repeat split.
  - cbn [for_each]. rewrite M_bind_eq. unfold upsert at 1, execute.
    destruct (store_fault ev (store_calls w)) as [e|].
    + eexists (Raised e), _. split; [reflexivity|]. split; [reflexivity|].
      discriminate.
    + match goal with |- context [for_each rows (upsert ev) ?w1] =>
        destruct (IH w1) as (r & w' & Hrun & Hl & Ht)
      end.
      exists r, w'. rewrite Hrun. repeat split; assumption.
Qed.

(** The two ways the body of the [try] statement ends: it raises and has
    logged nothing, or it returns after twelve rows, built from one
    computation, were written and one success entry was logged. *)
Lemma main_body_cases (started : string) (w : world) :
  exists (r : result unit) (w' : world),
    main_body ev started w = (r, w') /\
    ((exists e, r = Raised e) /\
     macro_regime_run_log w' = macro_regime_run_log w
     \/
     r = Ok tt /\
     exists (score_now : float) (ds : list driver) (ex : extras)
            (rows : list month_row) (s : run_summary),
       compute_macro_score_and_drivers ev = Ok (score_now, ds, ex) /\
       map mes rows = map fst (enumerate (exp_decay_curve score_now 12 (fin (22 / 100))) 1) /\
       map score rows = exp_decay_curve score_now 12 (fin (22 / 100)) /\
       Forall (fun r => anio r = TARGET_YEAR /\ drivers r = ds /\
                        regime r = regime_from_score (score r)) rows /\
       macro_regime_monthly_us w'
       = fold_left (fun t row => upsert_row row t) rows (macro_regime_monthly_us w) /\
       macro_regime_run_log w' = macro_regime_run_log w ++ [success_entry s]).
Proof.
  unfold main_body. rewrite M_bind_eq. unfold lift at 1.
  destruct (compute_macro_score_and_drivers ev) as [e|[[score_now ds] ex]] eqn:Hc.
  { eexists _, _. split; [reflexivity|]. left. split; [eexists; reflexivity | reflexivity]. }
  cbv zeta. rewrite M_bind_eq.
  destruct (build_rows_spec ds
              (enumerate (exp_decay_curve score_now 12 (fin (22 / 100))) 1) [] w)
    as (rows & w1 & Hb & Hmes & Hsc & Hall & Ht1 & Hl1 & _).
  rewrite Hb. cbn [app]. rewrite M_bind_eq.
  destruct (for_each_upsert_cases rows w1) as (r2 & w2 & Hu & Hl2 & Ht2).
  rewrite Hu. destruct r2 as [e|[]].
  { eexists _, _. split; [reflexivity|]. left.
    split; [eexists; reflexivity | congruence]. }
  specialize (Ht2 eq_refl).
  destruct (sort_by contribution_lt ds) as [|worst rest].
  { eexists _, _. split; [reflexivity|]. left.
    split; [eexists; reflexivity | simpl; congruence]. }
  rewrite M_bind_eq. unfold insert_log at 1, execute.
  destruct (store_fault ev (store_calls w2)) as [e|].
  { eexists _, _. split; [reflexivity|]. left.
    split; [eexists; reflexivity | simpl; congruence]. }
  eexists _, _. split; [reflexivity|]. right. split; [reflexivity|].
  exists score_now, ds, ex, rows. eexists. split; [reflexivity|].
  split; [exact Hmes|]. split.
  { rewrite Hsc. unfold enumerate. rewrite map_snd_combine; [reflexivity|].
    unfold Zseq. rewrite length_map, length_seq. reflexivity. }
  split; [exact Hall|]. split.
  { simpl. rewrite Ht2, Ht1. reflexivity. }
  simpl. rewrite Hl2, Hl1. reflexivity.
Qed.

(** A run whose computation succeeds and whose store calls all succeed
    returns. *)
Lemma main_succeeds (w : world) :
  (forall n, store_fault ev n = None) ->
  (exists out, compute_macro_score_and_drivers ev = Ok out) ->
  exists w', main ev w = (Ok tt, w').
Proof.
  intros Hstore ([[score_now ds] ex] & Hc).
  assert (Hds : length ds = 5%nat).
  { unfold compute_macro_score_and_drivers in Hc. simpl in Hc.
    destruct (fetch_all ev) as [|raw]; [discriminate|].
    destruct (monthly_series ev raw) as [|monthly]; [discriminate|].
    unfold score_and_drivers in Hc. simpl in Hc.
    destruct (drivers_loop _ monthly) as [|[ds' contribs]] eqn:Hloop; [discriminate|].
    destruct (getitem monthly "SP500"); [discriminate|].
    injection Hc as _ <- _.
    destruct (drivers_loop_inv _ _ _ _ Hloop) as (ss & Hlen & _ & -> & _).
    rewrite length_map, length_combine, Hlen. reflexivity. }
  unfold main. rewrite M_bind_eq. unfold now at 1, try_except.
  unfold main_body. rewrite M_bind_eq. unfold lift at 1. rewrite Hc.
  cbv zeta. rewrite M_bind_eq.
  match goal with |- context [build_rows ev ds ?items [] ?w1] =>
    destruct (build_rows_spec ds items [] w1) as (rows & w1' & Hb & _)
  end.
  rewrite Hb. cbn [app]. rewrite M_bind_eq.
  assert (Hup : forall rs w0, exists w0', for_each rs (upsert ev) w0 = (Ok tt, w0')).
  { induction rs as [|r rs IH]; intros w0; [eexists; reflexivity|].
    cbn [for_each]. rewrite M_bind_eq. unfold upsert at 1, execute.
    rewrite Hstore. apply IH. }
  destruct (Hup rows w1') as (w2 & Hu). rewrite Hu.
  pose proof (sort_by_length contribution_lt ds) as Hs.
  destruct (sort_by contribution_lt ds) as [|worst rest];
    [rewrite Hds in Hs; discriminate|].
  rewrite M_bind_eq. unfold insert_log at 1, execute. rewrite Hstore.
  eexists. reflexivity.
Qed.

(** A run returns when every request returns at least one observation
    and no store call fails. *)
Lemma main_returns (w : world) :
  (forall n, store_fault ev n = None) ->
  (forall sid : string,
     In sid (map fst SERIES) ->
     exists df : frame,
       fred_observations ev sid = Ok df /\ df <> [] /\
       Forall (fun r => valid_date (fst r)) df) ->
  exists w', main ev w = (Ok tt, w').
Proof.
  intros Hstore Hfetch. apply main_succeeds; [exact Hstore|].
  apply compute_succeeds. exact Hfetch.
Qed.


(** C9.  A run that returns has built exactly twelve rows for the target
    year, with the month index running through 1 to 12 once each, and every
    row carries the drivers computed once for the run; these are the rows
    written to the monthly table. *)
Theorem main_builds_twelve_rows (w w' : world) :
  main ev w = (Ok tt, w') ->
  exists (score_now : float) (ds : list driver) (ex : extras)
         (rows : list month_row),
    compute_macro_score_and_drivers ev = Ok (score_now, ds, ex) /\
    length rows = 12%nat /\
    map mes rows = [1; 2; 3; 4; 5; 6; 7; 8; 9; 10; 11; 12]%Z /\
    Forall (fun r => anio r = TARGET_YEAR /\ drivers r = ds) rows /\
    map score rows = exp_decay_curve score_now 12 (fin (22 / 100)) /\
    macro_regime_monthly_us w'
    = fold_left (fun t row => upsert_row row t) rows
        (macro_regime_monthly_us w).
Proof.
  unfold main. rewrite M_bind_eq. unfold now at 1, try_except.
  match goal with |- context [main_body ev ?st ?w1] =>
    destruct (main_body_cases st w1) as (r & w2 & Hrun & Hcases)
  end.
  rewrite Hrun.
  destruct Hcases as [((e & ->) & _) | (-> & Hok)].
  { unfold main_handler. rewrite M_bind_eq. unfold insert_log, execute.
    destruct (store_fault ev (store_calls w2)); discriminate. }
  intros H. injection H as <-.
  destruct Hok as (score_now & ds & ex & rows & s & Hc & Hmes & Hsc & Hall & Ht & _).
  assert (Hlen : length (exp_decay_curve score_now 12 (fin (22 / 100))) = 12%nat).
  { rewrite exp_decay_curve_map, length_map. reflexivity. }
  exists score_now, ds, ex, rows. split; [exact Hc|]. split.
  { rewrite <- (length_map score), Hsc. exact Hlen. }
  split.
  { rewrite Hmes. unfold enumerate. rewrite map_fst_combine.
    - rewrite Hlen. reflexivity.
    - unfold Zseq. rewrite length_map, length_seq. reflexivity. }
  split.
  { eapply Forall_impl; [|exact Hall]. intros r (Ha & Hd & _). split; assumption. }
  split; [exact Hsc | exact Ht].
Qed.

(** C8, amended.  When a pipeline step fails, nothing has been logged by
    then and the handler writes one entry with status error, the empty
    summary and the message of the exception.  If that write succeeds the
    run log gains exactly this entry and the same exception leaves [main];
    if the write fails, the exception of the write leaves [main] in place
    of the original one and the run log is unchanged. *)
Theorem main_failure_logged (w : world) (e : exn) (w2 : world) :
  try_body_outcome ev w = (Raised e, w2) ->
  error_entry e
  = {| status := "error"; summary := empty_summary; error := Some (exn_msg e) |} /\
  macro_regime_run_log w2 = macro_regime_run_log w /\
  (store_fault ev (store_calls w2) = None ->
   exists w3 : world,
     main ev w = (Raised e, w3) /\
     macro_regime_run_log w3 = macro_regime_run_log w ++ [error_entry e] /\
     macro_regime_monthly_us w3 = macro_regime_monthly_us w2) /\
  (forall e2 : exn,
     store_fault ev (store_calls w2) = Some e2 ->
     exists w3 : world,
       main ev w = (Raised e2, w3) /\
       macro_regime_run_log w3 = macro_regime_run_log w /\
       macro_regime_monthly_us w3 = macro_regime_monthly_us w2).
Proof.
  unfold try_body_outcome. intros Hbody.
  assert (Hlog : macro_regime_run_log w2 = macro_regime_run_log w).
  { destruct (main_body_cases (utcnow ev (clock_reads w)) (snd (now ev w)))
      as (r & w2' & Hrun & Hcases).
    rewrite Hbody in Hrun. injection Hrun as <- <-.
    destruct Hcases as [(_ & Hl) | (Hr & _)]; [exact Hl | discriminate]. }
  split; [reflexivity|]. split; [exact Hlog|].
  assert (Hmain : main ev w = main_handler ev e w2).
  { unfold main. rewrite M_bind_eq. unfold now at 1, try_except.
    unfold now in Hbody. simpl in Hbody. rewrite Hbody. reflexivity. }
  rewrite Hmain. unfold main_handler. rewrite M_bind_eq.
  unfold insert_log, execute. split.
  - intros Hnone. rewrite Hnone. eexists. split; [reflexivity|].
    simpl. rewrite Hlog. split; reflexivity.
  - intros e2 Hsome. rewrite Hsome. eexists. split; [reflexivity|].
    simpl. rewrite Hlog. split; reflexivity.
Qed.

End Run.

Lemma main_builds_twelve_rows_witness :
  exists (score_now : float) (ds : list driver) (ex : extras)
         (rows : list month_row),
    compute_macro_score_and_drivers sample_env = Ok (score_now, ds, ex) /\
    length rows = 12%nat /\
    map mes rows = [1; 2; 3; 4; 5; 6; 7; 8; 9; 10; 11; 12]%Z /\
    Forall (fun r => anio r = TARGET_YEAR /\ drivers r = ds) rows /\
    map score rows = exp_decay_curve score_now 12 (fin (22 / 100)) /\
    macro_regime_monthly_us (snd (main sample_env empty_world))
    = fold_left (fun t row => upsert_row row t) rows
        (macro_regime_monthly_us empty_world).
Proof.
  apply (main_builds_twelve_rows sample_env empty_world).
  destruct (main_succeeds sample_env empty_world) as (w' & Hw').
  - reflexivity.
  - eexists. reflexivity.
  - rewrite Hw'. reflexivity.
Defined.

(** C8 as stated fails: when the first request fails and the write of the
    error entry fails too, the run ends with the exception of the write,
    not with the one of the request, and the run log stays empty. *)
Lemma main_log_failure_masks_original :
  try_body_outcome (failing_env true) empty_world
  = (Raised fetch_error, snd (now (failing_env true) empty_world)) /\
  fst (main (failing_env true) empty_world) = Raised store_error /\
  macro_regime_run_log (snd (main (failing_env true) empty_world)) = [] /\
  ~ original_exception_propagates (failing_env true) empty_world.
Proof.
  repeat split; try reflexivity.
  intros H. specialize (H fetch_error _ eq_refl).
  change (fst (main (failing_env true) empty_world))
    with (@Raised unit store_error) in H.
  discriminate H.
Qed.

Lemma main_failure_logged_witness :
  error_entry fetch_error
  = {| status := "error"; summary := empty_summary;
       error := Some (exn_msg fetch_error) |} /\
  macro_regime_run_log (snd (now (failing_env false) empty_world))
  = macro_regime_run_log empty_world /\
  (store_fault (failing_env false)
     (store_calls (snd (now (failing_env false) empty_world))) = None ->
   exists w3 : world,
     main (failing_env false) empty_world = (Raised fetch_error, w3) /\
     macro_regime_run_log w3
     = macro_regime_run_log empty_world ++ [error_entry fetch_error] /\
     macro_regime_monthly_us w3
     = macro_regime_monthly_us (snd (now (failing_env false) empty_world))) /\
  (forall e2 : exn,
     store_fault (failing_env false)
       (store_calls (snd (now (failing_env false) empty_world))) = Some e2 ->
     exists w3 : world,
       main (failing_env false) empty_world = (Raised e2, w3) /\
       macro_regime_run_log w3 = macro_regime_run_log empty_world /\
       macro_regime_monthly_us w3
       = macro_regime_monthly_us (snd (now (failing_env false) empty_world))).
Proof.
  apply (main_failure_logged (failing_env false) empty_world fetch_error).
  reflexivity.
Defined.

(** * Further properties *)

(** ** The z-score looks at the trailing window only *)

Lemma dropna_app (a b : frame) : dropna (a ++ b) = dropna a ++ dropna b.
Proof. unfold dropna. apply filter_app. Qed.

Lemma trailing_app {A : Type} (n : nat) (l1 l2 : list A) :
  (n <= length l2)%nat -> trailing n (l1 ++ l2) = trailing n l2.
Proof.
  intros H. unfold trailing. rewrite length_app, skipn_app.
  replace (length l1 + length l2 - n - length l1)%nat
    with (length l2 - n)%nat by lia.
  rewrite skipn_all2 by lia. reflexivity.
Qed.

Lemma last_app_cons {A : Type} (l1 l2 : list A) (d : A) :
  l2 <> [] -> last (l1 ++ l2) d = last l2 d.
Proof.
  intros H. induction l1 as [|x l1 IH]; [reflexivity|].
  simpl. destruct (l1 ++ l2) eqn:E; [|exact IH].
  apply app_eq_nil in E. destruct E as [_ E]. contradiction.
Qed.

(** X1.  Observations older than the trailing window do not change the
    z-score: when the recent part of a series holds at least [window] and
    at least 24 values that are not missing, whatever comes before it is
    ignored. *)
Theorem zscore_ignores_older (older recent : frame) (window : Z) :
  (0 < window)%Z ->
  (window <= Z.of_nat (length (dropna recent)))%Z ->
  (24 <= length (dropna recent))%nat ->
  zscore (older ++ recent) window = zscore recent window.
Proof.
  intros Hw Hlen H24. unfold zscore.
  rewrite dropna_app, map_app.
  set (s1 := map snd (dropna older)). set (s2 := map snd (dropna recent)).
  assert (Hl2 : length s2 = length (dropna recent)) by apply length_map.
  assert (Hdiv : (window / 4 <= window)%Z).
  { apply Z.div_le_upper_bound; lia. }
  rewrite !zscore_tail by exact Hw.
  rewrite trailing_app by lia.
  rewrite last_app_cons by (intros E; rewrite E in Hl2; simpl in Hl2; lia).
  rewrite length_app.
  destruct (Z.ltb_spec (Z.of_nat (length s1 + length s2)) (Z.max 24 (window / 4)));
    [lia|].
  destruct (Z.ltb_spec (Z.of_nat (length s2)) (Z.max 24 (window / 4))); [lia|].
  reflexivity.
Qed.

Lemma zscore_ignores_older_witness :
  let recent := map (fun k => (month_start k, fin (IZR k))) (Zseq 24240 24) in
  zscore ([(mkdate 2000 1 1, fin 5); (mkdate 2000 2 1, nan)] ++ recent) 24
  = zscore recent 24.
Proof.
  cbv zeta. apply zscore_ignores_older.
  - reflexivity.
  - vm_compute. discriminate.
  - vm_compute. lia.
Defined.

(** ** Indicators short of history *)

Lemma zscore_short (s : frame) :
  (length (dropna s) < 30)%nat -> zscore s 120 = nan.
Proof.
  intros H. unfold zscore. rewrite length_map.
  change (Z.max 24 (120 / 4)) with 30%Z.
  destruct (Z.ltb_spec (Z.of_nat (length (dropna s))) 30); [reflexivity | lia].
Qed.

Lemma spec_weight_fin (d : driver_spec) :
  In d driver_specs -> exists w : R, spec_weight d = fin w /\ 0 < w <= 1.
Proof.
  intros Hd. simpl in Hd.
  repeat (destruct Hd as [<- | Hd]; [eexists; split; [reflexivity | lra] |]).
  contradiction.
Qed.

(** X2.  In a run (window 120) an indicator with fewer than 30 monthly
    values that are not missing has no raw z-score, an adjusted z-score of
    0 and a contribution of exactly 0. *)
Theorem short_history_contributes_nothing (d : driver_spec) (s : frame) :
  In d driver_specs ->
  (length (dropna s) < 30)%nat ->
  z_raw (driver_record d s (zscore s 120)) = None /\
  z_adj (driver_record d s (zscore s 120)) = fin 0 /\
  contribution (driver_record d s (zscore s 120)) = fin 0.
Proof.
  intros Hd Hs. rewrite (zscore_short s Hs).
  destruct (spec_weight_fin d Hd) as (w & Hw & _).
  unfold driver_record; cbn [z_raw z_adj contribution isnan].
  rewrite Hw. simpl. repeat split. f_equal. lra.
Qed.

Lemma short_history_contributes_nothing_witness :
  z_raw (driver_record (mkspec "UNRATE" "Unemployment rate" (-1) (fin (25 / 100)))
           levels_13 (zscore levels_13 120)) = None /\
  z_adj (driver_record (mkspec "UNRATE" "Unemployment rate" (-1) (fin (25 / 100)))
           levels_13 (zscore levels_13 120)) = fin 0 /\
  contribution (driver_record (mkspec "UNRATE" "Unemployment rate" (-1) (fin (25 / 100)))
                  levels_13 (zscore levels_13 120)) = fin 0.
Proof.
  apply short_history_contributes_nothing.
  - simpl. tauto.
  - vm_compute. lia.
Defined.

Lemma composite_score_fin (cs : list R) :
  composite_score (map fin cs) = fin (Rmax (-2) (Rmin 2 (Rsum cs))).
Proof.
  unfold composite_score. rewrite nansum_fin. apply clamp_fin. lra.
Qed.

Lemma exp_decay_curve_zero (months : Z) (k : R) :
  Forall (fun v => v = fin 0) (exp_decay_curve (fin 0) months (fin k)).
Proof.
  rewrite exp_decay_curve_fin. apply Forall_forall. intros v Hv.
  apply in_map_iff in Hv. destruct Hv as (m & <- & _). f_equal. ring.
Qed.

Lemma regime_neutral_band (s : R) :
  - (5 / 10) < s < 5 / 10 -> regime_from_score (fin s) = "neutral"%string.
Proof.
  intros Hs. unfold regime_from_score, fge, fle. cmp_cases; try reflexivity; lra.
Qed.

(** X3.  Cold start: when every scored indicator has fewer than 30
    monthly values, the composite score of the run is exactly 0, every
    driver contributes 0, and the whole projected curve is 0 with the
    label "neutral". *)
Theorem cold_start_is_neutral (monthly : dict frame) (score_now : float)
  (ds : list driver) (ex : extras) :
  score_and_drivers (fun s => zscore s 120) monthly = Ok (score_now, ds, ex) ->
  (forall (d : driver_spec) (s : frame),
     In d driver_specs -> series_of monthly (spec_key d) = Ok s ->
     (length (dropna s) < 30)%nat) ->
  score_now = fin 0 /\
  Forall (fun dr => z_raw dr = None /\ contribution dr = fin 0) ds /\
  Forall (fun v => v = fin 0 /\ regime_from_score v = "neutral"%string)
         (exp_decay_curve score_now 12 (fin (22 / 100))).
Proof.
  unfold score_and_drivers. simpl.
  destruct (drivers_loop _ monthly) as [e|[ds' contribs]] eqn:Hloop; [discriminate|].
  destruct (getitem monthly "SP500") as [e|sp]; [discriminate|].
  intros H Hshort. injection H as <- <- _.
  destruct (drivers_loop_inv _ _ _ _ Hloop) as (ss & Hlen & Hss & -> & ->).
  assert (Hds : Forall (fun dr => z_raw dr = None /\ contribution dr = fin 0)
                  (map (fun p => driver_record (fst p) (snd p) (zscore (snd p) 120))
                       (combine driver_specs ss))).
  { apply Forall_forall. intros dr Hdr. apply in_map_iff in Hdr.
    destruct Hdr as ([d s] & <- & Hp). cbn [fst snd].
    assert (Hd : In d driver_specs) by (apply in_combine_l in Hp; exact Hp).
    assert (Hs : series_of monthly (spec_key d) = Ok s).
    { clear - Hss Hp. induction Hss as [|d0 s0 l l' H0 _ IH]; [destruct Hp|].
      destruct Hp as [E | Hp]; [injection E as <- <-; exact H0 | exact (IH Hp)]. }
    rewrite (zscore_short s (Hshort d s Hd Hs)).
    destruct (spec_weight_fin d Hd) as (w & Hw & _).
    unfold driver_record; cbn [z_raw contribution isnan].
    rewrite Hw. simpl. split; [reflexivity|]. f_equal. lra. }
  assert (Hscore : composite_score
            (map contribution
               (map (fun p => driver_record (fst p) (snd p) (zscore (snd p) 120))
                    (combine driver_specs ss))) = fin 0).
  { assert (Hc : map contribution
               (map (fun p => driver_record (fst p) (snd p) (zscore (snd p) 120))
                    (combine driver_specs ss))
             = map fin (map (fun _ => 0) (combine driver_specs ss))).
    { rewrite !map_map. apply map_ext_in. intros p Hp.
      rewrite Forall_forall in Hds.
      apply (Hds (driver_record (fst p) (snd p) (zscore (snd p) 120))).
      apply in_map_iff. exists p. split; [reflexivity | exact Hp]. }
    rewrite Hc, composite_score_fin. f_equal.
    assert (Hz : forall l : list (driver_spec * frame),
               Rsum (map (fun _ => 0) l) = 0).
    { induction l as [|p l IH]; simpl; [reflexivity | rewrite IH; lra]. }
    rewrite Hz. unfold Rmin, Rmax.
    destruct (Rle_dec 2 0); [lra|]. destruct (Rle_dec (-2) 0); lra. }
  rewrite Hscore. split; [reflexivity|]. split; [exact Hds|].
  eapply Forall_impl; [|apply exp_decay_curve_zero].
  intros v ->. split; [reflexivity|].
  apply regime_neutral_band. lra.
Qed.

Lemma cold_start_is_neutral_witness :
  let ds := map (fun d => driver_record d [] (zscore [] 120)) driver_specs in
  let score0 := composite_score (map contribution ds) in
  score0 = fin 0 /\
  Forall (fun dr => z_raw dr = None /\ contribution dr = fin 0) ds /\
  Forall (fun v => v = fin 0 /\ regime_from_score v = "neutral"%string)
         (exp_decay_curve score0 12 (fin (22 / 100))).
Proof.
  cbv zeta. eapply (cold_start_is_neutral sample_monthly).
  - reflexivity.
  - intros d s Hd Hs. simpl in Hd.
    repeat (destruct Hd as [<- | Hd];
            [simpl in Hs; injection Hs as <-; simpl; lia |]).
    contradiction.
Defined.

(** ** Polarity *)

Lemma clamp_fin_mono (x y lo hi : R) :
  lo <= hi -> x <= y ->
  Rmax lo (Rmin hi x) <= Rmax lo (Rmin hi y).
Proof.
  intros Hlh Hxy. apply Rle_max_compat_l. apply Rle_min_compat_l. exact Hxy.
Qed.

Lemma Rsum_le (cs cs' : list R) :
  Forall2 Rle cs cs' -> Rsum cs <= Rsum cs'.
Proof. induction 1; simpl; lra. Qed.

(** The adjusted z-score as a number. *)
Lemma adjusted_value (dir : Z) (z : float) :
  clamp (fmul (of_int dir) z) (fin (-3)) (fin 3)
  = fin match z with
        | nan => 0
        | fin x => Rmax (-3) (Rmin 3 (IZR dir * x))
        end.
Proof.
  destruct z as [|x]; [reflexivity|]. simpl. apply clamp_fin. lra.
Qed.

(** X4.  Polarity: between two runs on the same series, if for every
    scored indicator the z-score either is undefined in both or moves in
    the favourable direction of the indicator (up for direction +1, down
    for direction -1), the composite score does not fall. *)
Theorem favourable_moves_keep_score (zf zf' : frame -> float)
  (monthly : dict frame) (score_now score_now' : float)
  (ds ds' : list driver) (ex ex' : extras) :
  score_and_drivers zf monthly = Ok (score_now, ds, ex) ->
  score_and_drivers zf' monthly = Ok (score_now', ds', ex') ->
  (forall (d : driver_spec) (s : frame),
     In d driver_specs -> series_of monthly (spec_key d) = Ok s ->
     (zf s = nan /\ zf' s = nan) \/
     (exists z z' : R, zf s = fin z /\ zf' s = fin z' /\
                       IZR (direction d) * z <= IZR (direction d) * z')) ->
  exists r r' : R, score_now = fin r /\ score_now' = fin r' /\ r <= r'.
Proof.
  unfold score_and_drivers. simpl.
  destruct (drivers_loop zf monthly) as [e|[d1 c1]] eqn:Hloop; [discriminate|].
  destruct (drivers_loop zf' monthly) as [e|[d2 c2]] eqn:Hloop'; [discriminate|].
  destruct (getitem monthly "SP500") as [e|sp]; [discriminate|].
  intros H H' Hmove. injection H as <- <- _. injection H' as <- <- _.
  destruct (drivers_loop_inv _ _ _ _ Hloop) as (ss & _ & Hss & -> & ->).
  destruct (drivers_loop_inv _ _ _ _ Hloop') as (ss' & _ & Hss' & -> & ->).
  assert (Ess : ss' = ss).
  { clear - Hss Hss'. revert ss' Hss'.
    induction Hss as [|d s l ss H0 _ IH]; intros ss' Hss';
      inversion Hss' as [|? s' ? ss1 H0' Hrest]; subst; [reflexivity|].
    rewrite H0 in H0'. injection H0' as <-. f_equal. apply IH. exact Hrest. }
  subst ss'. clear Hss' Hloop Hloop'.
  assert (Hcs : forall l : list (driver_spec * frame),
            (forall p, In p l -> In (fst p) driver_specs /\
                                 series_of monthly (spec_key (fst p)) = Ok (snd p)) ->
            exists cs cs' : list R,
              map contribution
                (map (fun p => driver_record (fst p) (snd p) (zf (snd p))) l)
              = map fin cs /\
              map contribution
                (map (fun p => driver_record (fst p) (snd p) (zf' (snd p))) l)
              = map fin cs' /\
              Forall2 Rle cs cs').
  { induction l as [|[d s] l IH]; intros Hl.
    - exists [], []. repeat split. constructor.
    - destruct IH as (cs & cs' & E & E' & Hle).
      { intros q Hq. apply Hl. right; exact Hq. }
      destruct (Hl (d, s) (or_introl eq_refl)) as (Hd & Hs). cbn [fst snd] in *.
      destruct (spec_weight_fin d Hd) as (w & Hw & Hwr).
      set (a := match zf s with
                | nan => 0 | fin x => Rmax (-3) (Rmin 3 (IZR (direction d) * x)) end).
      set (a' := match zf' s with
                 | nan => 0 | fin x => Rmax (-3) (Rmin 3 (IZR (direction d) * x)) end).
      exists (w * a :: cs), (w * a' :: cs'). cbn [map fst snd].
      unfold driver_record at 1 3; cbn [contribution].
      change (of_int (-3)) with (fin (-3)). change (of_int 3) with (fin 3).
      rewrite !adjusted_value, Hw, E, E'. fold a a'.
      split; [reflexivity|]. split; [reflexivity|].
      constructor; [|exact Hle].
      apply Rmult_le_compat_l; [lra|]. subst a a'.
      destruct (Hmove d s Hd Hs) as [(-> & ->) | (z & z' & -> & -> & Hz)];
        [lra | apply clamp_fin_mono; lra]. }
  destruct (Hcs (combine driver_specs ss)) as (cs & cs' & E & E' & Hle).
  { intros [d s] Hp. cbn [fst snd]. split; [apply in_combine_l in Hp; exact Hp|].
    clear - Hss Hp. induction Hss as [|d0 s0 l l' H0 _ IH]; [destruct Hp|].
    destruct Hp as [Eq | Hp]; [injection Eq as <- <-; exact H0 | exact (IH Hp)]. }
  rewrite E, E', !composite_score_fin.
  eexists _, _. split; [reflexivity|]. split; [reflexivity|].
  apply clamp_fin_mono; [lra|]. apply Rsum_le, Hle.
Qed.

Lemma favourable_moves_keep_score_witness :
  let zf := fun _ : frame => fin 0 in
  let zf' := fun s : frame => match s with [] => fin 0 | _ :: _ => fin 1 end in
  exists r r' : R,
    composite_score (map contribution (drivers_with zf sample_monthly_curve)) = fin r /\
    composite_score (map contribution (drivers_with zf' sample_monthly_curve)) = fin r' /\
    r <= r'.
Proof.
  cbv zeta.
  eapply (favourable_moves_keep_score
            (fun _ => fin 0)
            (fun s => match s with [] => fin 0 | _ :: _ => fin 1 end)
            sample_monthly_curve).
  - reflexivity.
  - reflexivity.
  - intros d s Hd Hs. right. simpl in Hd.
    repeat (destruct Hd as [<- | Hd];
            [simpl in Hs; injection Hs as <-; eexists _, _;
             split; [reflexivity | split; [reflexivity | simpl; lra]] |]).
    contradiction.
Defined.

(** ** Labels along the projection *)

Lemma regime_bull_iff (v : R) :
  regime_from_score (fin v) = "bull"%string <-> 5 / 10 <= v.
Proof.
  unfold regime_from_score, fge, fle. cmp_cases; split; intros H;
    try reflexivity; try discriminate; lra.
Qed.

Lemma regime_bear_iff (v : R) :
  regime_from_score (fin v) = "bear"%string <-> v <= - (5 / 10).
Proof.
  unfold regime_from_score, fge, fle. cmp_cases; split; intros H;
    try reflexivity; try discriminate; lra.
Qed.

Lemma regime_neutral_iff (v : R) :
  regime_from_score (fin v) = "neutral"%string <-> - (5 / 10) < v < 5 / 10.
Proof.
  unfold regime_from_score, fge, fle. cmp_cases; split; intros H;
    try reflexivity; try discriminate; lra.
Qed.

Lemma exp_decay_labels_nth (s k : R) (months : Z) (i : nat) :
  (i < length (exp_decay_curve (fin s) months (fin k)))%nat ->
  nth i (map regime_from_score (exp_decay_curve (fin s) months (fin k))) ""%string
  = regime_from_score (fin (s * exp (- k * INR i))).
Proof.
  rewrite exp_decay_curve_fin, map_map, length_map. intros Hi.
  rewrite (nth_indep _ ""%string
             (regime_from_score (fin (s * exp (- k * IZR 0)))))
    by (rewrite length_map; exact Hi).
  rewrite (map_nth (fun m => regime_from_score (fin (s * exp (- k * IZR m))))).
  rewrite py_range_nth by exact Hi. rewrite <- INR_IZR_INZ. reflexivity.
Qed.

Lemma exp_decay_factor (k : R) (i j : nat) :
  0 <= k -> (i <= j)%nat -> 0 < exp (- k * INR j) <= exp (- k * INR i).
Proof.
  intros Hk Hij. split; [apply exp_pos|].
  assert (Hle : - k * INR j <= - k * INR i).
  { apply le_INR in Hij. nra. }
  destruct Hle as [Hlt | Heq]; [left; apply exp_increasing; exact Hlt|].
  rewrite Heq. apply Rle_refl.
Qed.

(** X5.  With a decay that is not negative the labels of the projected
    months never change side: a score that is not negative never gets the
    label "bear", one that is not positive never gets "bull", and once a
    month is "neutral" every later month is; the first month has the label
    of the current score. *)
Theorem projected_labels_never_flip (s k : R) (months : Z) :
  0 <= k ->
  let labels := map regime_from_score (exp_decay_curve (fin s) months (fin k)) in
  (0 <= s -> ~ In "bear"%string labels) /\
  (s <= 0 -> ~ In "bull"%string labels) /\
  (forall i j : nat,
     (i <= j < length labels)%nat ->
     nth i labels ""%string = "neutral"%string ->
     nth j labels ""%string = "neutral"%string) /\
  ((0 < months)%Z -> nth 0 labels ""%string = regime_from_score (fin s)).
Proof.
  intros Hk labels.
  assert (Hin : forall l : string, In l labels ->
            exists i : nat, l = regime_from_score (fin (s * exp (- k * INR i)))).
  { intros l Hl. apply (In_nth _ _ ""%string) in Hl.
    destruct Hl as (i & Hi & <-). exists i. subst labels.
    rewrite length_map in Hi. apply exp_decay_labels_nth. exact Hi. }
  split; [|split; [|split]].
  - intros Hs Hbear. destruct (Hin _ Hbear) as (i & E). symmetry in E.
    apply regime_bear_iff in E. pose proof (exp_pos (- k * INR i)). nra.
  - intros Hs Hbull. destruct (Hin _ Hbull) as (i & E). symmetry in E.
    apply regime_bull_iff in E. pose proof (exp_pos (- k * INR i)). nra.
  - intros i j Hij. subst labels. rewrite length_map in Hij.
    rewrite !exp_decay_labels_nth by lia.
    rewrite !regime_neutral_iff.
    destruct (exp_decay_factor k i j Hk) as (Hpos & Hle); [lia|].
    pose proof (exp_pos (- k * INR i)) as Hi. intros Hn.
    destruct (Rle_dec 0 s); nra.
  - intros Hm. subst labels. rewrite exp_decay_labels_nth.
    + simpl INR. rewrite Rmult_0_r, exp_0, Rmult_1_r. reflexivity.
    + rewrite exp_decay_curve_fin, length_map.
      pose proof (py_range_length months). lia.
Qed.

Lemma projected_labels_never_flip_witness :
  let labels := map regime_from_score
                    (exp_decay_curve (fin 1) 12 (fin (22 / 100))) in
  (0 <= 1 -> ~ In "bear"%string labels) /\
  (1 <= 0 -> ~ In "bull"%string labels) /\
  (forall i j : nat,
     (i <= j < length labels)%nat ->
     nth i labels ""%string = "neutral"%string ->
     nth j labels ""%string = "neutral"%string) /\
  ((0 < 12)%Z -> nth 0 labels ""%string = regime_from_score (fin 1)).
Proof.
  apply (projected_labels_never_flip 1 (22 / 100) 12). lra.
Defined.

(** ** Series that are monthly already *)

Lemma Zseq_cons (lo : Z) (n : nat) : Zseq lo (S n) = lo :: Zseq (lo + 1) n.
Proof.
  unfold Zseq. cbn [seq map]. f_equal; [lia|].
  rewrite <- seq_shift, map_map. apply map_ext. intros i. lia.
Qed.

Lemma months_from_cons (lo : Z) (r : date * float) (x : frame) :
  months_from lo (r :: x) <-> fst r = month_start lo /\ months_from (lo + 1) x.
Proof.
  unfold months_from. cbn [length map]. rewrite Zseq_cons. cbn [map].
  split.
  - intros H. injection H as H1 H2. split; assumption.
  - intros (H1 & H2). rewrite H1, H2. reflexivity.
Qed.

Lemma months_from_bound (lo : Z) (x : frame) :
  months_from lo x ->
  Forall (fun r => (lo <= month_ord (fst r))%Z /\
                   date_key (fst r) = (31 * month_ord (fst r))%Z) x.
Proof.
  revert lo. induction x as [|r x IH]; intros lo H; [constructor|].
  apply months_from_cons in H. destruct H as (Hr & Hx).
  constructor.
  - rewrite Hr. unfold date_key. rewrite !month_ord_start.
    cbn [d_day month_start]. lia.
  - eapply Forall_impl; [|apply (IH _ Hx)]. cbv beta. intros a (Ha & Hb).
    split; [lia | exact Hb].
Qed.

Lemma months_from_sorted (lo : Z) (x : frame) :
  months_from lo x -> in_date_order x.
Proof.
  revert lo. induction x as [|r x IH]; intros lo H; [constructor|].
  apply months_from_cons in H. destruct H as (Hr & Hx).
  constructor; [apply (IH _ Hx)|].
  eapply Forall_impl; [|apply (months_from_bound _ _ Hx)].
  cbv beta. intros a (Ha & Hb). unfold date_le. rewrite Hb, Hr.
  unfold date_key. rewrite month_ord_start. cbn [d_day month_start]. lia.
Qed.

Lemma months_from_last (lo : Z) (r : date * float) (x : frame) (d : date * float) :
  months_from lo (r :: x) ->
  month_ord (fst (last (r :: x) d)) = (lo + Z.of_nat (length x))%Z.
Proof.
  revert lo r. induction x as [|r' x IH]; intros lo r H.
  - apply months_from_cons in H. destruct H as (Hr & _). simpl.
    rewrite Hr, month_ord_start. lia.
  - apply months_from_cons in H. destruct H as (_ & Hx).
    change (last (r :: r' :: x) d) with (last (r' :: x) d).
    rewrite (IH _ _ Hx). cbn [length]. lia.
Qed.

Lemma bucket_app (k : Z) (a b : frame) : bucket k (a ++ b) = bucket k a ++ bucket k b.
Proof. unfold bucket. rewrite filter_app, map_app. reflexivity. Qed.

Lemma bucket_other (k : Z) (x : frame) :
  Forall (fun r => month_ord (fst r) <> k) x -> bucket k x = [].
Proof.
  induction 1 as [|r x Hr _ IH]; [reflexivity|].
  unfold bucket in *. simpl.
  destruct (Z.eqb_spec (month_ord (fst r)) k); [contradiction | exact IH].
Qed.

Lemma agg_single (how : string) (v : float) :
  (if String.eqb how "mean" then series_mean else group_last) [v] = v.
Proof.
  destruct (String.eqb how "mean"); destruct v as [|x]; try reflexivity.
  unfold series_mean. simpl. f_equal. field.
Qed.

Lemma resample_rows_grid (agg : list float -> float) (x : frame) :
  (forall v, agg [v] = v) ->
  forall (lo : Z) (pre : frame),
    months_from lo x ->
    Forall (fun r => (month_ord (fst r) < lo)%Z) pre ->
    map (fun k => (month_start k, agg (bucket k (pre ++ x)))) (Zseq lo (length x))
    = x.
Proof.
  intros Hagg. induction x as [|r x IH]; intros lo pre Hx Hpre; [reflexivity|].
  pose proof Hx as Hx0.
  apply months_from_cons in Hx. destruct Hx as (Hr & Hx').
  cbn [length]. rewrite Zseq_cons. cbn [map]. f_equal.
  - rewrite bucket_app. change (r :: x) with ([r] ++ x). rewrite bucket_app.
    rewrite (bucket_other lo pre), (bucket_other lo x).
    + unfold bucket. simpl. rewrite Hr, month_ord_start, Z.eqb_refl. simpl.
      rewrite Hagg. rewrite <- Hr. destruct r; reflexivity.
    + eapply Forall_impl; [|apply (months_from_bound _ _ Hx')].
      simpl. intros a (Ha & _). lia.
    + eapply Forall_impl; [|exact Hpre]. simpl. intros a Ha. lia.
  - change (pre ++ r :: x) with (pre ++ [r] ++ x). rewrite app_assoc.
    apply IH; [exact Hx'|].
    apply Forall_app. split.
    + eapply Forall_impl; [|exact Hpre]. simpl. intros a Ha. lia.
    + constructor; [|constructor]. rewrite Hr, month_ord_start. lia.
Qed.

(** The output of [to_monthly] is a run of consecutive months. *)
Lemma to_monthly_consecutive (df : frame) (how : string) :
  Forall (fun r => valid_date (fst r)) df ->
  consecutive_months (to_monthly df how).
Proof.
  intros Hv. destruct df as [|r df']; [exists 0%Z; reflexivity|].
  set (df := r :: df') in *.
  set (agg := if String.eqb how "mean" then series_mean else group_last).
  assert (Hout : to_monthly df how = resample_MS agg df).
  { subst agg df. unfold to_monthly. simpl.
    destruct (String.eqb how "mean"); reflexivity. }
  destruct (resample_MS_grid agg df Hv) as (lo & n & Hgrid & _);
    [subst df; discriminate|].
  exists lo. rewrite Hout, Hgrid, map_map, length_map, Zseq_length. reflexivity.
Qed.

(** X6.  A date/value series that already has one row per consecutive
    calendar month, dated on the first day of the month, comes back from
    [to_monthly] with the same rows (its dates under the name month), under
    "last" as under "mean": the monthly series are taken as they are. *)
Theorem to_monthly_keeps_monthly (x : frame) (how : string) :
  consecutive_months x -> to_monthly x how = x.
Proof.
  intros (lo & Hx). fold (months_from lo x) in Hx.
  destruct x as [|r x]; [reflexivity|].
  unfold to_monthly. cbn [df_empty].
  assert (E : forall agg, (forall v, agg [v] = v) ->
                          resample_MS agg (r :: x) = r :: x).
  { intros agg Hagg. unfold resample_MS.
    rewrite (sort_by_date_id _ (months_from_sorted _ _ Hx)).
    rewrite (months_from_last lo r x r Hx).
    pose proof Hx as Hx0. apply months_from_cons in Hx0.
    destruct Hx0 as (Hr & _). rewrite Hr, month_ord_start.
    replace (Z.to_nat (lo + Z.of_nat (length x) - lo + 1)) with (length (r :: x))
      by (cbn [length]; lia).
    apply (resample_rows_grid agg (r :: x) Hagg lo []); [exact Hx | constructor]. }
  pose proof (agg_single how) as Hagg.
  destruct (String.eqb how "mean"); apply E; exact Hagg.
Qed.

Lemma to_monthly_keeps_monthly_witness :
  to_monthly levels_13 "last" = levels_13.
Proof.
  apply (to_monthly_keeps_monthly levels_13 "last").
  exists 24240%Z. reflexivity.
Defined.

(** ** The change over a year on the monthly grid *)

Lemma nth_error_pair {A B : Type} (l : list (A * B)) (i : nat) (a : A) (b : B) :
  nth_error l i = Some (a, b) <->
  nth_error (map fst l) i = Some a /\ nth_error (map snd l) i = Some b.
Proof.
  rewrite !nth_error_map. destruct (nth_error l i) as [[a' b']|]; simpl.
  - split.
    + intros H. injection H as -> ->. split; reflexivity.
    + intros (H1 & H2). injection H1 as ->. injection H2 as ->. reflexivity.
  - split; [discriminate | intros (H & _); discriminate].
Qed.

Lemma months_from_nth (lo : Z) (x : frame) (i : nat) (m : date) :
  months_from lo x ->
  nth_error (map fst x) i = Some m ->
  (i < length x)%nat /\ m = month_start (lo + Z.of_nat i).
Proof.
  intros Hx Hm.
  assert (Hi : (i < length x)%nat).
  { rewrite <- (length_map fst). apply nth_error_Some. congruence. }
  split; [exact Hi|].
  rewrite Hx, nth_error_map, nth_error_Zseq in Hm by exact Hi.
  injection Hm as <-. reflexivity.
Qed.

(** X7.  On the output of [to_monthly] the change over a year is the
    calendar one: for levels different from zero, and when [pct_change]
    does not pad or no month of the grid is missing, month [m] has a row in
    the output of [yoy_from_level] exactly when the grid has a value for
    [m] and a value for the month twelve months before, and the row holds
    (value[m] / value[m - 12 months] - 1) * 100. *)
Theorem yoy_of_to_monthly_is_calendar (pad : bool) (df : frame) (how : string) :
  Forall (fun r => valid_date (fst r)) df ->
  Forall (fun r => snd r <> fin 0) (to_monthly df how) ->
  pad = false \/ Forall (fun r => snd r <> nan) (to_monthly df how) ->
  change_on_twelve_months (to_monthly df how)
                          (yoy_from_level pad (to_monthly df how)).
Proof.
  intros Hv _ Hpad.
  destruct (to_monthly_consecutive df how Hv) as (lo & Hx).
  set (x := to_monthly df how) in *. fold (months_from lo x) in Hx.
  assert (Hsort : sort_by date_lt x = x)
    by (apply sort_by_date_id, (months_from_sorted lo), Hx).
  assert (Hdata : (if pad then ffill (map snd x) else map snd x) = map snd x).
  { destruct Hpad as [-> | Hn]; [reflexivity|].
    destruct pad; [|reflexivity]. apply ffill_from_notna.
    apply Forall_map. exact Hn. }
  intros m v. rewrite yoy_from_level_In. rewrite Hsort, Hdata. split.
  - intros (i & a & b & Hi & Hm & Ha & Hb & E). injection E as ->.
    destruct (months_from_nth lo x i m Hx Hm) as (Hlen & ->).
    exists a, b. split; [|split; [|reflexivity]].
    + apply (nth_error_In _ i). apply nth_error_pair. split; assumption.
    + apply (nth_error_In _ (i - 12)). apply nth_error_pair. split; [|exact Hb].
      rewrite Hx, nth_error_map, nth_error_Zseq by lia.
      simpl. rewrite month_ord_start. do 2 f_equal. lia.
  - intros (a & b & Ha & Hb & ->).
    apply In_nth_error in Ha, Hb.
    destruct Ha as (i & Ha). destruct Hb as (j & Hb).
    apply nth_error_pair in Ha, Hb.
    destruct Ha as (Hmi & Hai). destruct Hb as (Hmj & Hbj).
    destruct (months_from_nth lo x i m Hx Hmi) as (Hi & ->).
    destruct (months_from_nth lo x j _ Hx Hmj) as (Hj & E).
    apply (f_equal month_ord) in E. rewrite !month_ord_start in E.
    assert (Hji : j = (i - 12)%nat) by lia.
    exists i, a, b. subst j.
    split; [lia|]. split; [exact Hmi|]. split; [exact Hai|].
    split; [exact Hbj | reflexivity].
Qed.

Lemma yoy_of_to_monthly_is_calendar_witness :
  change_on_twelve_months (to_monthly levels_gap "last")
                          (yoy_from_level false (to_monthly levels_gap "last")).
Proof.
  apply yoy_of_to_monthly_is_calendar.
  - repeat constructor; simpl; lia.
  - replace (to_monthly levels_gap "last")
      with [ (mkdate 2020 1 1, fin 100); (mkdate 2020 2 1, fin 101);
             (mkdate 2020 3 1, fin 102); (mkdate 2020 4 1, fin 103);
             (mkdate 2020 5 1, fin 104); (mkdate 2020 6 1, fin 105);
             (mkdate 2020 7 1, nan); (mkdate 2020 8 1, fin 106);
             (mkdate 2020 9 1, fin 107); (mkdate 2020 10 1, fin 108);
             (mkdate 2020 11 1, fin 109); (mkdate 2020 12 1, fin 110);
             (mkdate 2021 1 1, fin 111); (mkdate 2021 2 1, fin 112) ]
      by reflexivity.
    repeat (apply Forall_cons;
            [cbn [snd]; intros E; try discriminate E; injection E; lra|]).
    apply Forall_nil.
  - left. reflexivity.
Defined.

(** ** What [yoy_from_level] returns *)

Lemma filter_none {A : Type} (f : A -> bool) (l : list A) :
  Forall (fun a => f a = false) l -> filter f l = [].
Proof.
  induction 1 as [|a l Ha _ IH]; [reflexivity|]. simpl. rewrite Ha. exact IH.
Qed.

Lemma date_order_filter (f : date * float -> bool) (x : frame) :
  in_date_order x -> in_date_order (filter f x).
Proof.
  unfold in_date_order. induction 1 as [|r x Hs IH Hr]; simpl; [constructor|].
  destruct (f r); [|exact IH].
  constructor; [exact IH|].
  rewrite Forall_forall in *. intros a Ha. apply filter_In in Ha.
  apply Hr. tauto.
Qed.

(** New values on the dates of a frame in date order are in date order. *)
Lemma date_order_combine (x : frame) (ys : list float) :
  in_date_order x -> in_date_order (combine (map fst x) ys).
Proof.
  unfold in_date_order. intros H. revert ys.
  induction H as [|r x Hs IH Hr]; intros [|y ys]; simpl; try constructor.
  - apply IH.
  - rewrite Forall_forall in *. intros [d v] Hd.
    apply in_combine_l in Hd. apply in_map_iff in Hd.
    destruct Hd as (r' & <- & Hr'). exact (Hr r' Hr').
Qed.

(** The first twelve rows in month order never reach the output. *)
Lemma yoy_from_level_length (pad : bool) (monthly_df : frame) :
  (length (yoy_from_level pad monthly_df) <= length monthly_df - 12)%nat.
Proof.
  unfold yoy_from_level.
  set (x := sort_by date_lt monthly_df).
  set (yoy := map (fun c => fmul c (fin 100)) (pct_change pad 12 (map snd x))).
  assert (Hperm : Permutation x monthly_df) by apply sort_by_perm.
  rewrite <- (Permutation_length Hperm). unfold dropna.
  rewrite <- (firstn_skipn 12 (combine (map fst x) yoy)), filter_app.
  rewrite filter_none.
  - cbn [app]. etransitivity; [apply filter_length_le|].
    rewrite length_skipn, length_combine, length_map. lia.
  - apply Forall_forall. intros [m v] Hin.
    apply In_nth_error in Hin. destruct Hin as (i & Hi).
    rewrite nth_error_firstn in Hi.
    destruct (Nat.ltb_spec i 12) as [Hlt | _]; [|discriminate].
    rewrite nth_error_combine in Hi.
    destruct (nth_error (map fst x) i); [|discriminate].
    destruct (nth_error yoy i) as [v'|] eqn:Hv; [|discriminate].
    injection Hi as _ <-. cbn [snd].
    subst yoy. unfold pct_change in Hv.
    rewrite !nth_error_map, nth_error_combine, nth_error_shift in Hv.
    destruct (nth_error _ i) as [d0|] eqn:Hd; [|discriminate].
    assert (Hi' : (i < length (if pad then ffill (map snd x) else map snd x))%nat)
      by (apply nth_error_Some; congruence).
    destruct (Nat.ltb_spec i (length (if pad then ffill (map snd x) else map snd x)));
      [|lia].
    destruct (Nat.ltb_spec i 12); [|lia].
    simpl in Hv. injection Hv as <-. destruct d0; reflexivity.
Qed.

(** X8.  The output of [yoy_from_level] has no missing value, is in month
    order, holds only months of the input and has at most as many rows as
    the input has beyond its first twelve: a series of twelve rows or
    fewer gives an empty output. *)
Theorem yoy_from_level_output (pad : bool) (monthly_df : frame) :
  let out := yoy_from_level pad monthly_df in
  Forall (fun r => snd r <> nan) out /\
  in_date_order out /\
  (forall m : date, In m (map fst out) -> In m (map fst monthly_df)) /\
  (length out <= length monthly_df - 12)%nat /\
  ((length monthly_df <= 12)%nat -> out = []).
Proof.
  intros out. subst out. unfold yoy_from_level.
  set (x := sort_by date_lt monthly_df).
  set (yoy := map (fun c => fmul c (fin 100)) (pct_change pad 12 (map snd x))).
  assert (Hperm : Permutation x monthly_df) by apply sort_by_perm.
  assert (Hlen : (length (dropna (combine (map fst x) yoy))
                  <= length monthly_df - 12)%nat)
    by apply (yoy_from_level_length pad monthly_df).
  split; [|split; [|split; [|split]]].
  - apply Forall_forall. intros r Hr. apply filter_In in Hr.
    destruct Hr as (_ & Hn). destruct (snd r); [discriminate Hn | discriminate].
  - apply date_order_filter, date_order_combine, sort_by_date_sorted.
  - intros m Hm. apply in_map_iff in Hm. destruct Hm as ([m' v] & <- & Hin).
    apply filter_In in Hin. destruct Hin as (Hin & _).
    apply in_combine_l in Hin.
    apply (Permutation_in _ (Permutation_map fst Hperm)). exact Hin.
  - exact Hlen.
  - intros Hshort. apply length_zero_iff_nil. lia.
Qed.

(** X9.  Inflation needs 42 months: with fewer than 42 monthly rows of the
    price level, the year-over-year series has fewer than 30 rows and its
    z-score at window 120 is undefined. *)
Theorem cpi_needs_42_months (pad : bool) (cpi_m : frame) :
  (length cpi_m < 42)%nat ->
  zscore (yoy_from_level pad cpi_m) 120 = nan.
Proof.
  intros H. apply zscore_short.
  pose proof (yoy_from_level_length pad cpi_m) as Hlen.
  pose proof (filter_length_le (fun r => notna (snd r)) (yoy_from_level pad cpi_m)) as Hd.
  unfold dropna. lia.
Qed.

Lemma cpi_needs_42_months_witness :
  zscore (yoy_from_level false levels_13) 120 = nan.
Proof.
  apply cpi_needs_42_months. simpl. lia.
Defined.

(** ** What a run leaves behind *)

Lemma upsert_row_lookup (row : month_row) (t : list month_row) (a m : Z) :
  lookup_month a m (upsert_row row t)
  = if ((anio row =? a) && (mes row =? m))%Z then Some row
    else lookup_month a m t.
Proof.
  unfold lookup_month. induction t as [|r t IH]; simpl.
  - destruct ((anio row =? a) && (mes row =? m))%Z; reflexivity.
  - unfold same_month.
    destruct (Z.eqb_spec (anio r) (anio row)) as [Ea | Ea];
    destruct (Z.eqb_spec (mes r) (mes row)) as [Em | Em]; simpl;
      try (rewrite IH; clear IH);
      try rewrite Ea; try rewrite Em;
      destruct (Z.eqb_spec (anio row) a); destruct (Z.eqb_spec (mes row) m);
      destruct (Z.eqb_spec (anio r) a); destruct (Z.eqb_spec (mes r) m);
      simpl; try reflexivity; try lia.
Qed.

(** An upsert never adds a second row under a key that is there. *)
Lemma upsert_row_keys (row : month_row) (t : list month_row) :
  month_keys (upsert_row row t)
  = if existsb (fun r => same_month r row) t then month_keys t
    else month_keys t ++ [(anio row, mes row)].
Proof.
  unfold month_keys. induction t as [|r t IH]; simpl; [reflexivity|].
  destruct (same_month r row) eqn:E; simpl.
  - unfold same_month in E. apply andb_true_iff in E.
    destruct E as (Ea & Em). apply Z.eqb_eq in Ea, Em. rewrite Ea, Em. reflexivity.
  - rewrite IH. destruct (existsb _ t); reflexivity.
Qed.

Lemma existsb_same_month (row : month_row) (t : list month_row) :
  existsb (fun r => same_month r row) t = true <->
  In (anio row, mes row) (month_keys t).
Proof.
  unfold month_keys. rewrite existsb_exists, in_map_iff. unfold same_month.
  split.
  - intros (r & Hr & E). apply andb_true_iff in E. destruct E as (Ea & Em).
    apply Z.eqb_eq in Ea, Em. exists r. rewrite Ea, Em. split; [reflexivity | exact Hr].
  - intros (r & E & Hr). injection E as Ea Em. exists r. split; [exact Hr|].
    rewrite Ea, Em, !Z.eqb_refl. reflexivity.
Qed.

Section RunFacts.

Variable ev : env.

Lemma build_rows_stdout (ds : list driver) (items : list (Z * float)) :
  forall (rows0 : list month_row) (w : world),
    stdout (snd (build_rows ev ds items rows0 w)) = stdout w /\
    clock_reads (snd (build_rows ev ds items rows0 w))
    = (clock_reads w + length items)%nat.
Proof.
  induction items as [|[i sc] items IH]; intros rows0 w.
  - simpl. split; [reflexivity | lia].
  - cbn [build_rows]. rewrite !M_bind_eq. unfold now. cbv beta iota.
    match goal with |- context [build_rows ev ds items ?r ?w1] =>
      destruct (IH r w1) as (H1 & H2)
    end.
    rewrite H1, H2. simpl. split; [reflexivity | lia].
Qed.

Lemma for_each_upsert_stdout (rows : list month_row) :
  forall w : world,
    stdout (snd (for_each rows (upsert ev) w)) = stdout w.
Proof.
  induction rows as [|row rows IH]; intros w; [reflexivity|].
  cbn [for_each]. rewrite M_bind_eq. unfold upsert at 1, execute.
  destruct (store_fault ev (store_calls w)); [reflexivity|].
  rewrite IH. reflexivity.
Qed.

(** A run that returns, in full: the computation it made, the rows it
    wrote, the entry it logged and the line it printed. *)
Lemma main_ok_inv (w w' : world) :
  main ev w = (Ok tt, w') ->
  exists (score_now : float) (ds : list driver) (ex : extras)
         (rows : list month_row) (worst : driver) (rest : list driver),
    compute_macro_score_and_drivers ev = Ok (score_now, ds, ex) /\
    map mes rows = [1; 2; 3; 4; 5; 6; 7; 8; 9; 10; 11; 12]%Z /\
    map score rows = exp_decay_curve score_now 12 (fin (22 / 100)) /\
    Forall (fun r => anio r = TARGET_YEAR /\ drivers r = ds /\
                     regime r = regime_from_score (score r)) rows /\
    macro_regime_monthly_us w'
    = fold_left (fun t row => upsert_row row t) rows (macro_regime_monthly_us w) /\
    sort_by contribution_lt ds = worst :: rest /\
    macro_regime_run_log w'
    = macro_regime_run_log w
      ++ [success_entry
            {| score_now := score_now;
               best_driver := ref_of (last (worst :: rest) worst);
               worst_driver := ref_of worst;
               summary_sp500_latest := sp500_latest ex;
               summary_sp500_month := sp500_month ex;
               generated_at_utc := (utcnow ev (clock_reads w) ++ "Z")%string |}] /\
    stdout w'
    = stdout w ++ [ {| out_ok := true; out_score_now := score_now;
                       out_generated_at :=
                         (utcnow ev (clock_reads w) ++ "Z")%string |} ].
Proof.
  unfold main. rewrite M_bind_eq. unfold now at 1, try_except.
  unfold main_body. rewrite M_bind_eq. unfold lift at 1.
  destruct (compute_macro_score_and_drivers ev) as [e|[[score_now ds] ex]] eqn:Hc.
  { unfold main_handler. rewrite M_bind_eq. unfold insert_log, execute.
    cbn [store_calls]. destruct (store_fault ev (store_calls w)); discriminate. }
  cbv zeta. rewrite M_bind_eq.
  match goal with |- context [build_rows ev ds ?items [] ?w1] =>
    destruct (build_rows_spec ev ds items [] w1)
      as (rows & w1' & Hb & Hmes & Hsc & Hall & Ht1 & Hl1 & _);
    pose proof (build_rows_stdout ds items [] w1) as (Ho1 & _)
  end.
  rewrite Hb in Ho1 |- *. cbn [app snd] in Ho1 |- *. rewrite M_bind_eq.
  destruct (for_each_upsert_cases ev rows w1') as (r2 & w2 & Hu & Hl2 & Ht2).
  pose proof (for_each_upsert_stdout rows w1') as Ho2.
  rewrite Hu in Ho2 |- *. cbn [snd] in Ho2.
  destruct r2 as [e|[]].
  { unfold main_handler. rewrite M_bind_eq. unfold insert_log, execute.
    destruct (store_fault ev (store_calls w2)); discriminate. }
  specialize (Ht2 eq_refl).
  destruct (sort_by contribution_lt ds) as [|worst rest] eqn:Hsort.
  { unfold raise, main_handler. rewrite M_bind_eq. unfold insert_log, execute.
    destruct (store_fault ev (store_calls w2)); discriminate. }
  rewrite M_bind_eq. unfold insert_log at 1, execute.
  destruct (store_fault ev (store_calls w2)) as [e|].
  { unfold main_handler. rewrite M_bind_eq. unfold insert_log, execute.
    cbn [store_calls]. destruct (store_fault ev (S (store_calls w2))); discriminate. }
  unfold print. intros H. injection H as <-.
  assert (Hlen : length (exp_decay_curve score_now 12 (fin (22 / 100))) = 12%nat).
  { rewrite exp_decay_curve_map, length_map. reflexivity. }
  exists score_now, ds, ex, rows, worst, rest.
  split; [reflexivity|]. split.
  { rewrite Hmes. unfold enumerate. rewrite map_fst_combine.
    - rewrite Hlen. reflexivity.
    - unfold Zseq. rewrite length_map, length_seq. reflexivity. }
  split.
  { rewrite Hsc. unfold enumerate. rewrite map_snd_combine; [reflexivity|].
    unfold Zseq. rewrite length_map, length_seq. reflexivity. }
  split; [exact Hall|]. split.
  { cbn [macro_regime_monthly_us]. rewrite Ht2, Ht1. reflexivity. }
  split; [exact Hsort|]. split.
  { cbn [macro_regime_run_log]. rewrite Hl2, Hl1. reflexivity. }
  cbn [stdout]. rewrite Ho2, Ho1. reflexivity.
Qed.

End RunFacts.

Lemma fold_upsert_keys_incl (rows : list month_row) :
  forall (t : list month_row) (k : Z * Z),
    In k (month_keys t) ->
    In k (month_keys (fold_left (fun t row => upsert_row row t) rows t)).
Proof.
  induction rows as [|row rows IH]; intros t k Hk; [exact Hk|].
  cbn [fold_left]. apply IH. rewrite upsert_row_keys.
  destruct (existsb _ t); [exact Hk | apply in_or_app; left; exact Hk].
Qed.

Lemma fold_upsert_keys_in (rows : list month_row) :
  forall (t : list month_row) (row : month_row),
    In row rows ->
    In (anio row, mes row)
       (month_keys (fold_left (fun t row => upsert_row row t) rows t)).
Proof.
  induction rows as [|r rows IH]; intros t row Hin; [destruct Hin|].
  cbn [fold_left]. destruct Hin as [-> | Hin]; [|apply IH; exact Hin].
  apply fold_upsert_keys_incl. rewrite upsert_row_keys.
  destruct (existsb _ t) eqn:E.
  - apply existsb_same_month. exact E.
  - apply in_or_app. right. left. reflexivity.
Qed.

Lemma fold_upsert_keys_present (rows : list month_row) :
  forall t : list month_row,
    Forall (fun row => In (anio row, mes row) (month_keys t)) rows ->
    month_keys (fold_left (fun t row => upsert_row row t) rows t) = month_keys t.
Proof.
  induction rows as [|r rows IH]; intros t H; [reflexivity|].
  inversion H as [|? ? Hr Hrest]; subst. cbn [fold_left].
  assert (E : month_keys (upsert_row r t) = month_keys t).
  { rewrite upsert_row_keys.
    rewrite (proj2 (existsb_same_month r t) Hr). reflexivity. }
  rewrite IH; [exact E|]. rewrite E. exact Hrest.
Qed.

Lemma fold_upsert_lookup_other (rows : list month_row) (a m : Z) :
  forall t : list month_row,
    Forall (fun row => ~ (anio row = a /\ mes row = m)) rows ->
    lookup_month a m (fold_left (fun t row => upsert_row row t) rows t)
    = lookup_month a m t.
Proof.
  induction rows as [|r rows IH]; intros t H; [reflexivity|].
  inversion H as [|? ? Hr Hrest]; subst. cbn [fold_left].
  rewrite IH by exact Hrest. rewrite upsert_row_lookup.
  destruct (Z.eqb_spec (anio r) a); destruct (Z.eqb_spec (mes r) m);
    simpl; try reflexivity. exfalso. apply Hr. split; assumption.
Qed.

(** After the rows [l1 ++ row :: l2] are upserted in order, the key of
    [row] reads [row] when no later row has that key. *)
Lemma fold_upsert_lookup_in (l1 l2 : list month_row) (row : month_row) :
  forall t : list month_row,
    Forall (fun r => ~ (anio r = anio row /\ mes r = mes row)) l2 ->
    lookup_month (anio row) (mes row)
      (fold_left (fun t r => upsert_row r t) (l1 ++ row :: l2) t)
    = Some row.
Proof.
  intros t H. rewrite fold_left_app. cbn [fold_left].
  rewrite fold_upsert_lookup_other by exact H.
  rewrite upsert_row_lookup, !Z.eqb_refl. reflexivity.
Qed.

(** X10.  After a run that returns, each month 1 to 12 of the target
    year reads back from the monthly table as the row of that run (its
    projected score, the label of that score, the drivers of the run),
    whatever the table held before, and every other key of the table reads
    as it did before the run. *)
Theorem run_rows_read_back (ev : env) (w w' : world) :
  main ev w = (Ok tt, w') ->
  exists (score_now : float) (ds : list driver) (ex : extras),
    compute_macro_score_and_drivers ev = Ok (score_now, ds, ex) /\
    (forall i : nat,
       (i < 12)%nat ->
       exists row : month_row,
         lookup_month TARGET_YEAR (Z.of_nat (S i)) (macro_regime_monthly_us w')
         = Some row /\
         anio row = TARGET_YEAR /\ mes row = Z.of_nat (S i) /\
         score row = nth i (exp_decay_curve score_now 12 (fin (22 / 100))) nan /\
         regime row = regime_from_score (score row) /\
         drivers row = ds) /\
    (forall a m : Z,
       a <> TARGET_YEAR \/ (m < 1)%Z \/ (12 < m)%Z ->
       lookup_month a m (macro_regime_monthly_us w')
       = lookup_month a m (macro_regime_monthly_us w)).
Proof.
  intros Hrun.
  destruct (main_ok_inv ev w w' Hrun)
    as (score_now & ds & ex & rows & _ & _ & Hc & Hmes & Hsc & Hall & Ht & _).
  exists score_now, ds, ex. split; [exact Hc|].
  assert (Hkeys : forall i : nat, (i < 12)%nat ->
            exists l1 row l2, rows = l1 ++ row :: l2 /\ length l1 = i /\
                              mes row = Z.of_nat (S i) /\
                              Forall (fun r => mes r <> mes row) l2).
  { intros i Hi.
    assert (Hlen : length rows = 12%nat)
      by (rewrite <- (length_map mes), Hmes; reflexivity).
    exists (firstn i rows).
    destruct (skipn i rows) as [|row l2] eqn:Hskip.
    { apply (f_equal (@length month_row)) in Hskip.
      rewrite length_skipn in Hskip. simpl in Hskip. lia. }
    exists row, l2.
    assert (Hrows : rows = firstn i rows ++ row :: l2)
      by (rewrite <- Hskip, firstn_skipn; reflexivity).
    split; [exact Hrows|]. split; [rewrite length_firstn; lia|].
    assert (Hm : map mes (row :: l2)
                 = skipn i [1; 2; 3; 4; 5; 6; 7; 8; 9; 10; 11; 12]%Z).
    { rewrite <- Hmes, <- Hskip. symmetry. apply skipn_map. }
    do 12 (destruct i as [|i];
           [cbn [skipn map] in Hm; injection Hm as Hm0 Hm1;
            split; [exact Hm0|];
            rewrite Hm0; apply Forall_forall; intros r Hr;
            apply (in_map mes) in Hr; rewrite Hm1 in Hr;
            simpl in Hr; intros E; try rewrite E in Hr;
            repeat (destruct Hr as [Hr | Hr]; [discriminate Hr|]); exact Hr |]).
    lia. }
  split.
  - intros i Hi. destruct (Hkeys i Hi) as (l1 & row & l2 & Hrows & Hl1 & Hm & Hl2).
    rewrite Forall_forall in Hall.
    destruct (Hall row) as (Ha & Hd & Hr).
    { rewrite Hrows. apply in_or_app. right. left. reflexivity. }
    exists row. rewrite Ht, Hrows, <- Ha, <- Hm.
    split.
    { apply fold_upsert_lookup_in. eapply Forall_impl; [|exact Hl2].
      cbv beta. intros r Hne (_ & E). exact (Hne E). }
    split; [reflexivity|]. split; [reflexivity|].
    split; [|split; [exact Hr | exact Hd]].
    rewrite <- Hsc, Hrows, map_app. cbn [map].
    rewrite app_nth2 by (rewrite length_map; lia).
    rewrite length_map, Hl1, Nat.sub_diag. reflexivity.
  - intros a m Hother. rewrite Ht. apply fold_upsert_lookup_other.
    apply Forall_forall. intros r Hr (Ea & Em).
    rewrite Forall_forall in Hall. destruct (Hall r Hr) as (Ha & _).
    apply (in_map mes) in Hr. rewrite Hmes, Em in Hr. simpl in Hr.
    destruct Hother as [Hy | Hm]; [congruence|].
    repeat (destruct Hr as [Hr | Hr]; [lia|]). exact Hr.
Qed.

Lemma run_rows_read_back_witness :
  exists (score_now : float) (ds : list driver) (ex : extras),
    compute_macro_score_and_drivers sample_env = Ok (score_now, ds, ex) /\
    (forall i : nat,
       (i < 12)%nat ->
       exists row : month_row,
         lookup_month TARGET_YEAR (Z.of_nat (S i))
           (macro_regime_monthly_us (snd (main sample_env empty_world)))
         = Some row /\
         anio row = TARGET_YEAR /\ mes row = Z.of_nat (S i) /\
         score row = nth i (exp_decay_curve score_now 12 (fin (22 / 100))) nan /\
         regime row = regime_from_score (score row) /\
         drivers row = ds) /\
    (forall a m : Z,
       a <> TARGET_YEAR \/ (m < 1)%Z \/ (12 < m)%Z ->
       lookup_month a m (macro_regime_monthly_us (snd (main sample_env empty_world)))
       = lookup_month a m (macro_regime_monthly_us empty_world)).
Proof.
  apply (run_rows_read_back sample_env empty_world).
  destruct (main_succeeds sample_env empty_world) as (w' & Hw').
  - reflexivity.
  - eexists. reflexivity.
  - rewrite Hw'. reflexivity.
Defined.

(** X11.  Running again adds no row: when a run returns and a second run
    (whatever it finds outside) returns on the table the first one left,
    the table has the same keys, in the same order, as after the first
    run. *)
Theorem rerun_adds_no_rows (ev ev' : env) (w w1 w2 : world) :
  main ev w = (Ok tt, w1) ->
  main ev' w1 = (Ok tt, w2) ->
  month_keys (macro_regime_monthly_us w2) = month_keys (macro_regime_monthly_us w1).
Proof.
  intros H1 H2.
  destruct (main_ok_inv ev w w1 H1)
    as (s1 & ds1 & ex1 & rows1 & _ & _ & _ & Hmes1 & _ & Hall1 & Ht1 & _).
  destruct (main_ok_inv ev' w1 w2 H2)
    as (s2 & ds2 & ex2 & rows2 & _ & _ & _ & Hmes2 & _ & Hall2 & Ht2 & _).
  rewrite Ht2. apply fold_upsert_keys_present.
  apply Forall_forall. intros r2 Hr2.
  rewrite Forall_forall in Hall1, Hall2.
  destruct (Hall2 r2 Hr2) as (Ha2 & _).
  assert (Hin : In (mes r2) (map mes rows1)).
  { rewrite Hmes1, <- Hmes2. apply in_map. exact Hr2. }
  apply in_map_iff in Hin. destruct Hin as (r1 & Em & Hr1).
  destruct (Hall1 r1 Hr1) as (Ha1 & _).
  rewrite Ht1, Ha2, <- Ha1, <- Em. apply fold_upsert_keys_in. exact Hr1.
Qed.

Lemma rerun_adds_no_rows_witness :
  month_keys (macro_regime_monthly_us
                (snd (main sample_env (snd (main sample_env empty_world)))))
  = month_keys (macro_regime_monthly_us (snd (main sample_env empty_world))).
Proof.
  destruct (main_succeeds sample_env empty_world) as (w1 & Hw1);
    [reflexivity | eexists; reflexivity |].
  destruct (main_succeeds sample_env w1) as (w2 & Hw2);
    [reflexivity | eexists; reflexivity |].
  rewrite Hw1. cbn [snd]. rewrite Hw2. cbn [snd].
  exact (rerun_adds_no_rows sample_env sample_env empty_world w1 w2 Hw1 Hw2).
Defined.

(** ** Output and summary of a run *)

Lemma main_body_raised_stdout (ev : env) (started : string) (w : world)
  (e : exn) (w' : world) :
  main_body ev started w = (Raised e, w') -> stdout w' = stdout w.
Proof.
  unfold main_body. rewrite M_bind_eq. unfold lift at 1.
  destruct (compute_macro_score_and_drivers ev) as [e0|[[score_now ds] ex]].
  { intros H. injection H as _ <-. reflexivity. }
  cbv zeta. rewrite M_bind_eq.
  match goal with |- context [build_rows ev ds ?items [] ?w1] =>
    destruct (build_rows_spec ev ds items [] w1) as (rows & w1' & Hb & _);
    pose proof (build_rows_stdout ev ds items [] w1) as (Ho1 & _)
  end.
  rewrite Hb in Ho1 |- *. cbn [app snd] in Ho1 |- *. rewrite M_bind_eq.
  pose proof (for_each_upsert_stdout ev rows w1') as Ho2.
  destruct (for_each rows (upsert ev) w1') as [[e2|[]] w2]; cbn [snd] in Ho2.
  { intros H. injection H as _ <-. congruence. }
  destruct (sort_by contribution_lt ds) as [|worst rest].
  { unfold raise. intros H. injection H as _ <-. congruence. }
  rewrite M_bind_eq. unfold insert_log at 1, execute.
  destruct (store_fault ev (store_calls w2)).
  { intros H. injection H as _ <-. cbn [stdout]. congruence. }
  unfold print. discriminate.
Qed.

(** X12.  A run prints its line of output exactly when it returns: the
    line carries the score of the run and the time the run started; a run
    that raises prints nothing. *)
Theorem main_prints_only_on_return (ev : env) (w : world) :
  match main ev w with
  | (Ok _, w') =>
      exists (score_now : float) (ds : list driver) (ex : extras),
        compute_macro_score_and_drivers ev = Ok (score_now, ds, ex) /\
        stdout w'
        = stdout w ++ [ {| out_ok := true; out_score_now := score_now;
                           out_generated_at :=
                             (utcnow ev (clock_reads w) ++ "Z")%string |} ]
  | (Raised _, w') => stdout w' = stdout w
  end.
Proof.
  destruct (main ev w) as [[e|[]] w'] eqn:Hrun.
  - unfold main in Hrun. rewrite M_bind_eq in Hrun.
    unfold now at 1, try_except in Hrun.
    match type of Hrun with context [main_body ev ?st ?w1] =>
      destruct (main_body ev st w1) as [[e1|[]] w2] eqn:Hbody
    end.
    + apply main_body_raised_stdout in Hbody. cbn [stdout] in Hbody.
      unfold main_handler in Hrun. rewrite M_bind_eq in Hrun.
      unfold insert_log, execute, raise in Hrun.
      destruct (store_fault ev (store_calls w2));
        injection Hrun as _ <-; cbn [stdout]; exact Hbody.
    + discriminate Hrun.
  - destruct (main_ok_inv ev w w' Hrun)
      as (score_now & ds & ex & _ & _ & _ & Hc & _ & _ & _ & _ & _ & _ & Hout).
    exists score_now, ds, ex. split; [exact Hc | exact Hout].
Qed.

Lemma insert_contribution_sorted (x : driver) (l : list driver) :
  (exists c, contribution x = fin c) ->
  Forall (fun d => exists c, contribution d = fin c) l ->
  StronglySorted (fun a b => number_of (contribution a) <= number_of (contribution b)) l ->
  StronglySorted (fun a b => number_of (contribution a) <= number_of (contribution b))
                 (insert_by contribution_lt x l).
Proof.
  intros (cx & Hx) Hfin Hs. induction Hs as [|y l Hl IH Hy]; simpl.
  - repeat constructor.
  - inversion Hfin as [|? ? (cy & Hcy) Hfin']; subst.
    unfold contribution_lt at 1. rewrite Hx, Hcy. simpl.
    destruct (Rltb cy cx) eqn:E.
    + apply Rltb_true in E. constructor; [apply IH; exact Hfin'|].
      apply (Permutation_Forall (Permutation_sym (insert_by_perm contribution_lt x l))).
      constructor; [rewrite Hx, Hcy; simpl; lra | exact Hy].
    + apply Rltb_false in E. constructor; [constructor; assumption|].
      constructor; [rewrite Hx, Hcy; simpl; lra|].
      eapply Forall_impl; [|exact Hy]. cbv beta. rewrite Hx, Hcy. simpl.
      intros a Ha. lra.
Qed.

Lemma sort_by_contribution_sorted (l : list driver) :
  Forall (fun d => exists c, contribution d = fin c) l ->
  StronglySorted (fun a b => number_of (contribution a) <= number_of (contribution b))
                 (sort_by contribution_lt l).
Proof.
  induction 1 as [|x l Hx Hl IH]; simpl; [constructor|].
  apply insert_contribution_sorted; [exact Hx | | exact IH].
  apply (Permutation_Forall (Permutation_sym (sort_by_perm contribution_lt l))).
  exact Hl.
Qed.

Lemma sorted_last_is_max {A : Type} (f : A -> R) (a : A) (l : list A) :
  StronglySorted (fun x y => f x <= f y) (a :: l) ->
  Forall (fun x => f a <= f x <= f (last (a :: l) a)) (a :: l).
Proof.
  revert a. induction l as [|b l IH]; intros a Hs.
  - constructor; [simpl; lra | constructor].
  - apply StronglySorted_inv in Hs. destruct Hs as (Hs' & Hfa).
    specialize (IH b Hs').
    change (last (a :: b :: l) a) with (last (b :: l) a).
    rewrite (last_cons_default b l a b).
    assert (Hab : f a <= f b) by (inversion Hfa; assumption).
    constructor.
    + inversion IH; subst. lra.
    + eapply Forall_impl; [|exact IH]. cbv beta. intros x Hx. lra.
Qed.

(** The drivers of a computation that returns have numbers as
    contributions. *)
Lemma compute_drivers_fin (ev : env) (score_now : float) (ds : list driver)
  (ex : extras) :
  compute_macro_score_and_drivers ev = Ok (score_now, ds, ex) ->
  Forall (fun d => exists c, contribution d = fin c) ds.
Proof.
  unfold compute_macro_score_and_drivers. simpl.
  destruct (fetch_all ev) as [|raw]; [discriminate|].
  destruct (monthly_series ev raw) as [|monthly]; [discriminate|].
  unfold score_and_drivers. simpl.
  destruct (drivers_loop _ monthly) as [|[ds' contribs]] eqn:Hloop; [discriminate|].
  destruct (getitem monthly "SP500"); [discriminate|].
  intros H. injection H as _ <- _.
  destruct (drivers_loop_inv _ _ _ _ Hloop) as (ss & _ & _ & -> & _).
  apply Forall_forall. intros dr Hdr. apply in_map_iff in Hdr.
  destruct Hdr as ([d s] & <- & Hp). apply in_combine_l in Hp.
  destruct (driver_record_fin d s (zscore s 120) Hp)
    as (adj & wt & _ & _ & _ & _ & Hc).
  eexists. exact Hc.
Qed.

(** X13.  The summary of a run that returns names, as worst and best
    driver, two drivers of the run whose contributions are the smallest
    and the largest of all, and it carries the score of the run. *)
Theorem summary_names_extremes (ev : env) (w w' : world) :
  main ev w = (Ok tt, w') ->
  exists (s : run_summary) (score0 : float) (ds : list driver) (ex : extras)
         (dw db : driver),
    compute_macro_score_and_drivers ev = Ok (score0, ds, ex) /\
    macro_regime_run_log w' = macro_regime_run_log w ++ [success_entry s] /\
    score_now s = score0 /\
    In dw ds /\ In db ds /\
    worst_driver s = ref_of dw /\ best_driver s = ref_of db /\
    Forall (fun d => number_of (contribution dw) <= number_of (contribution d)
                     <= number_of (contribution db)) ds.
Proof.
  intros Hrun.
  destruct (main_ok_inv ev w w' Hrun)
    as (score0 & ds & ex & rows & worst & rest & Hc & _ & _ & _ & _ & Hsort & Hlog & _).
  pose proof (sort_by_perm contribution_lt ds) as Hperm.
  pose proof (sort_by_contribution_sorted ds (compute_drivers_fin _ _ _ _ Hc)) as Hs.
  rewrite Hsort in Hperm, Hs.
  pose proof (sorted_last_is_max (fun d => number_of (contribution d)) worst rest Hs)
    as Hext.
  eexists _, score0, ds, ex, worst, (last (worst :: rest) worst).
  split; [exact Hc|]. split; [exact Hlog|]. split; [reflexivity|].
  split; [apply (Permutation_in _ Hperm); left; reflexivity|].
  split.
  { apply (Permutation_in _ Hperm).
    destruct (exists_last (l := worst :: rest)) as (l' & z & E); [discriminate|].
    rewrite E, last_last. apply in_or_app. right. left. reflexivity. }
  split; [reflexivity|]. split; [reflexivity|].
  apply (Permutation_Forall Hperm). exact Hext.
Qed.

Lemma summary_names_extremes_witness :
  exists (s : run_summary) (score0 : float) (ds : list driver) (ex : extras)
         (dw db : driver),
    compute_macro_score_and_drivers sample_env = Ok (score0, ds, ex) /\
    macro_regime_run_log (snd (main sample_env empty_world))
    = macro_regime_run_log empty_world ++ [success_entry s] /\
    score_now s = score0 /\
    In dw ds /\ In db ds /\
    worst_driver s = ref_of dw /\ best_driver s = ref_of db /\
    Forall (fun d => number_of (contribution dw) <= number_of (contribution d)
                     <= number_of (contribution db)) ds.
Proof.
  apply (summary_names_extremes sample_env empty_world).
  destruct (main_succeeds sample_env empty_world) as (w' & Hw').
  - reflexivity.
  - eexists. reflexivity.
  - rewrite Hw'. reflexivity.
Defined.

(** ** Requests that fail or come back empty *)

Lemma fetch_fold_raised (ev : env) (l : list string) (e : exn) :
  fold_left
    (fun acc sid =>
       raw <- acc ;;
       df <- fred_observations ev sid ;;
       ret (dict_set sid df raw))
    l (Raised e) = Raised e.
Proof. induction l as [|sid l IH]; [reflexivity | exact IH]. Qed.

Lemma fetch_fold_ok (ev : env) (l : list string) :
  forall raw : dict frame,
    (forall s, In s l -> exists df, fred_observations ev s = Ok df) ->
    exists raw' : dict frame,
      fold_left
        (fun acc sid =>
           raw <- acc ;;
           df <- fred_observations ev sid ;;
           ret (dict_set sid df raw))
        l (Ok raw) = Ok raw'.
Proof.
  induction l as [|sid l IH]; intros raw H; [eexists; reflexivity|].
  destruct (H sid) as (df & Hdf); [left; reflexivity|].
  cbn [fold_left bind result_monad]. rewrite Hdf. cbn [ret result_monad].
  apply IH. intros s Hs. apply H. right. exact Hs.
Qed.

(** X14.  The requests are made in the order of [SERIES] and the first
    one that fails ends the computation with its exception.  The run then
    writes no monthly row and prints nothing; it makes one store call, the
    one for the error entry. *)
Theorem failed_request_ends_run (ev : env) (w : world)
  (pre post : list string) (sid : string) (e : exn) :
  map fst SERIES = pre ++ sid :: post ->
  (forall s, In s pre -> exists df, fred_observations ev s = Ok df) ->
  fred_observations ev sid = Raised e ->
  compute_macro_score_and_drivers ev = Raised e /\
  macro_regime_monthly_us (snd (main ev w)) = macro_regime_monthly_us w /\
  stdout (snd (main ev w)) = stdout w /\
  store_calls (snd (main ev w)) = S (store_calls w) /\
  match store_fault ev (store_calls w) with
  | None =>
      fst (main ev w) = Raised e /\
      macro_regime_run_log (snd (main ev w))
      = macro_regime_run_log w ++ [error_entry e]
  | Some e2 =>
      fst (main ev w) = Raised e2 /\
      macro_regime_run_log (snd (main ev w)) = macro_regime_run_log w
  end.
Proof.
  intros Hsplit Hpre Hsid.
  assert (Hc : compute_macro_score_and_drivers ev = Raised e).
  { unfold compute_macro_score_and_drivers, fetch_all.
    rewrite Hsplit, fold_left_app.
    destruct (fetch_fold_ok ev pre [] Hpre) as (raw & Hraw).
    match goal with |- context [fold_left ?f pre ?a] =>
      replace (fold_left f pre a) with (@Ok (dict frame) raw)
        by (symmetry; exact Hraw)
    end.
    cbn [fold_left bind result_monad]. rewrite Hsid.
    match goal with |- context [fold_left ?f post ?a] =>
      replace (fold_left f post a) with (@Raised (dict frame) e)
        by (symmetry; exact (fetch_fold_raised ev post e))
    end.
    reflexivity. }
  split; [exact Hc|].
  assert (Hmain : main ev w = main_handler ev e (snd (now ev w))).
  { unfold main. rewrite M_bind_eq. unfold now, try_except, main_body.
    rewrite M_bind_eq. unfold lift. rewrite Hc. reflexivity. }
  rewrite Hmain. unfold main_handler. rewrite M_bind_eq.
  unfold insert_log, execute, raise, now. cbn [snd store_calls].
  destruct (store_fault ev (store_calls w)); repeat split; reflexivity.
Qed.

Lemma failed_request_ends_run_witness :
  compute_macro_score_and_drivers (failing_env false) = Raised fetch_error /\
  macro_regime_monthly_us (snd (main (failing_env false) empty_world))
  = macro_regime_monthly_us empty_world /\
  stdout (snd (main (failing_env false) empty_world)) = stdout empty_world /\
  store_calls (snd (main (failing_env false) empty_world))
  = S (store_calls empty_world) /\
  match store_fault (failing_env false) (store_calls empty_world) with
  | None =>
      fst (main (failing_env false) empty_world) = Raised fetch_error /\
      macro_regime_run_log (snd (main (failing_env false) empty_world))
      = macro_regime_run_log empty_world ++ [error_entry fetch_error]
  | Some e2 =>
      fst (main (failing_env false) empty_world) = Raised e2 /\
      macro_regime_run_log (snd (main (failing_env false) empty_world))
      = macro_regime_run_log empty_world
  end.
Proof.
  apply (failed_request_ends_run (failing_env false) empty_world
           [] (skipn 1 (map fst SERIES)) "CPIAUCSL" fetch_error).
  - reflexivity.
  - intros s [].
  - reflexivity.
Defined.

Lemma to_monthly_empty_inv (df : frame) (how : string) :
  Forall (fun r => valid_date (fst r)) df -> to_monthly df how = [] -> df = [].
Proof.
  intros Hv E. destruct df as [|r df]; [reflexivity|].
  exfalso. apply (to_monthly_nonempty (r :: df) how Hv); [discriminate | exact E].
Qed.

(** X15.  When every request returns (dates of the calendar only), the
    computation returns exactly when every series of [SERIES], the
    benchmark included, has at least one observation; a series without
    observations makes it raise a [KeyError]. *)
Theorem compute_needs_every_series (ev : env) :
  (forall sid : string,
     In sid (map fst SERIES) ->
     exists df : frame,
       fred_observations ev sid = Ok df /\
       Forall (fun r => valid_date (fst r)) df) ->
  ((exists out, compute_macro_score_and_drivers ev = Ok out) <->
   (forall sid : string,
      In sid (map fst SERIES) -> fred_observations ev sid <> Ok [])) /\
  (forall e : exn,
     compute_macro_score_and_drivers ev = Raised e ->
     exn_type e = "KeyError"%string).
Proof.
  intros H.
  destruct (H "CPIAUCSL"%string) as (d1 & F1 & V1); [simpl; tauto|].
  destruct (H "UNRATE"%string) as (d2 & F2 & V2); [simpl; tauto|].
  destruct (H "FEDFUNDS"%string) as (d3 & F3 & V3); [simpl; tauto|].
  destruct (H "T10Y2Y"%string) as (d4 & F4 & V4); [simpl; tauto|].
  destruct (H "BAMLH0A0HYM2"%string) as (d5 & F5 & V5); [simpl; tauto|].
  destruct (H "SP500"%string) as (d6 & F6 & V6); [simpl; tauto|].
  assert (Hraised :
    forall (sid : string) (df : frame) (e0 : exn),
      In sid (map fst SERIES) -> fred_observations ev sid = Ok df ->
      Forall (fun r => valid_date (fst r)) df ->
      to_monthly df "last" = [] ->
      exn_type e0 = "KeyError"%string ->
      ((exists out : float * list driver * extras, Raised e0 = Ok out) <->
       (forall sid : string,
          In sid (map fst SERIES) -> fred_observations ev sid <> Ok [])) /\
      (forall e : exn,
         @Raised (float * list driver * extras) e0 = Raised e ->
         exn_type e = "KeyError"%string)).
  { intros sid df e0 Hin Hf Hv Hm Hty. split; [split|].
    - intros (out & Hout). discriminate Hout.
    - intros Hne. exfalso. apply (Hne sid Hin). rewrite Hf. f_equal.
      apply (to_monthly_empty_inv df "last" Hv Hm).
    - intros e He. injection He as <-. exact Hty. }
  unfold compute_macro_score_and_drivers, fetch_all.
  cbn -[to_monthly yoy_from_level zscore].
  rewrite F1; cbn -[to_monthly yoy_from_level zscore].
  rewrite F2; cbn -[to_monthly yoy_from_level zscore].
  rewrite F3; cbn -[to_monthly yoy_from_level zscore].
  rewrite F4; cbn -[to_monthly yoy_from_level zscore].
  rewrite F5; cbn -[to_monthly yoy_from_level zscore].
  rewrite F6; cbn -[to_monthly yoy_from_level zscore].
  unfold monthly_series, monthly_as_is.
  cbn -[to_monthly yoy_from_level zscore].
  destruct (to_monthly d1 "last") as [|r1 m1] eqn:T1;
    cbn -[to_monthly yoy_from_level zscore].
  { apply (Hraised "CPIAUCSL"%string d1 sort_values_error); auto; simpl; tauto. }
  destruct (to_monthly d2 "last") as [|r2 m2] eqn:T2;
    cbn -[to_monthly yoy_from_level zscore].
  { apply (Hraised "UNRATE"%string d2 set_index_error); auto; simpl; tauto. }
  destruct (to_monthly d3 "last") as [|r3 m3] eqn:T3;
    cbn -[to_monthly yoy_from_level zscore].
  { apply (Hraised "FEDFUNDS"%string d3 set_index_error); auto; simpl; tauto. }
  destruct (to_monthly d4 "last") as [|r4 m4] eqn:T4;
    cbn -[to_monthly yoy_from_level zscore].
  { apply (Hraised "T10Y2Y"%string d4 set_index_error); auto; simpl; tauto. }
  destruct (to_monthly d5 "last") as [|r5 m5] eqn:T5;
    cbn -[to_monthly yoy_from_level zscore].
  { apply (Hraised "BAMLH0A0HYM2"%string d5 set_index_error); auto; simpl; tauto. }
  destruct (to_monthly d6 "last") as [|r6 m6] eqn:T6;
    cbn -[to_monthly yoy_from_level zscore].
  { apply (Hraised "SP500"%string d6 set_index_error); auto; simpl; tauto. }
  split; [split|].
  - intros _ sid Hin Hempty.
    assert (Hnil : to_monthly [] "last" = []) by reflexivity.
    simpl in Hin.
    destruct Hin as [<- | [<- | [<- | [<- | [<- | [<- | []]]]]]];
      rewrite Hempty in *;
      match goal with
      | F : Ok [] = Ok ?d, T : to_monthly ?d "last" = _ :: _ |- _ =>
          injection F as <-; rewrite Hnil in T; discriminate T
      end.
  - intros _. eexists. reflexivity.
  - intros e He. discriminate He.
Qed.

Lemma compute_needs_every_series_witness :
  ((exists out, compute_macro_score_and_drivers sample_env = Ok out) <->
   (forall sid : string,
      In sid (map fst SERIES) -> fred_observations sample_env sid <> Ok [])) /\
  (forall e : exn,
     compute_macro_score_and_drivers sample_env = Raised e ->
     exn_type e = "KeyError"%string).
Proof.
  apply (compute_needs_every_series sample_env).
  intros sid _. eexists. split; [reflexivity|].
  repeat constructor; simpl; lia.
Defined.

(** ** A store call that fails among the upserts *)

Lemma for_each_upsert_fails_at (ev : env) (rows : list month_row) :
  forall (j : nat) (e : exn) (w : world),
    (j < length rows)%nat ->
    (forall i : nat, (i < j)%nat -> store_fault ev (store_calls w + i) = None) ->
    store_fault ev (store_calls w + j) = Some e ->
    exists w' : world,
      for_each rows (upsert ev) w = (Raised e, w') /\
      macro_regime_monthly_us w'
      = fold_left (fun t row => upsert_row row t) (firstn j rows)
          (macro_regime_monthly_us w) /\
      macro_regime_run_log w' = macro_regime_run_log w /\
      stdout w' = stdout w /\
      store_calls w' = (store_calls w + S j)%nat.
Proof.
  induction rows as [|row rows IH]; intros j e w Hj Hbefore Hat.
  - simpl in Hj. lia.
  - cbn [for_each]. rewrite M_bind_eq. unfold upsert at 1, execute.
    destruct j as [|j].
    + rewrite Nat.add_0_r in Hat. rewrite Hat. eexists. split; [reflexivity|].
      cbn [firstn fold_left macro_regime_monthly_us macro_regime_run_log
           stdout store_calls].
      repeat split; lia.
    + rewrite <- (Nat.add_0_r (store_calls w)), (Hbefore 0%nat) by lia.
      match goal with |- context [for_each rows (upsert ev) ?w1] =>
        destruct (IH j e w1) as (w' & Hrun & Ht & Hl & Ho & Hc)
      end.
      * simpl in Hj. lia.
      * intros i Hi. cbn [store_calls].
        replace (S (store_calls w + 0) + i)%nat with (store_calls w + S i)%nat by lia.
        apply Hbefore. lia.
      * cbn [store_calls].
        replace (S (store_calls w + 0) + j)%nat with (store_calls w + S j)%nat by lia.
        exact Hat.
      * exists w'. split; [exact Hrun|].
        cbn [macro_regime_monthly_us macro_regime_run_log stdout store_calls]
          in Ht, Hl, Ho, Hc.
        cbn [firstn fold_left]. repeat split; try assumption. lia.
Qed.

(** X16.  The upserts are not undone.  When the computation returns
    and the store call of month [j + 1] is the first one to fail, the
    rows of the months 1 to [j] stay written, the later ones are not, and
    the run ends with the exception of that call after logging it (when
    the call for the log works); nothing is printed. *)
Theorem failed_upsert_keeps_earlier_rows (ev : env) (w : world) (j : nat)
  (e : exn) (score0 : float) (ds : list driver) (ex : extras) :
  compute_macro_score_and_drivers ev = Ok (score0, ds, ex) ->
  (j < 12)%nat ->
  (forall i : nat, (i < j)%nat -> store_fault ev (store_calls w + i) = None) ->
  store_fault ev (store_calls w + j) = Some e ->
  store_fault ev (store_calls w + S j) = None ->
  exists (rows : list month_row) (w' : world),
    main ev w = (Raised e, w') /\
    map mes rows = [1; 2; 3; 4; 5; 6; 7; 8; 9; 10; 11; 12]%Z /\
    map score rows = exp_decay_curve score0 12 (fin (22 / 100)) /\
    Forall (fun r => anio r = TARGET_YEAR /\ drivers r = ds) rows /\
    macro_regime_monthly_us w'
    = fold_left (fun t row => upsert_row row t) (firstn j rows)
        (macro_regime_monthly_us w) /\
    macro_regime_run_log w' = macro_regime_run_log w ++ [error_entry e] /\
    stdout w' = stdout w.
Proof.
  intros Hc Hj Hbefore Hat Hafter.
  assert (Hlen : length (exp_decay_curve score0 12 (fin (22 / 100))) = 12%nat).
  { rewrite exp_decay_curve_map, length_map. reflexivity. }
  unfold main. rewrite M_bind_eq. unfold now at 1, try_except.
  unfold main_body. rewrite M_bind_eq. unfold lift at 1. rewrite Hc.
  cbv zeta. rewrite M_bind_eq.
  match goal with |- context [build_rows ev ds ?items [] ?w1] =>
    destruct (build_rows_spec ev ds items [] w1)
      as (rows & w1' & Hb & Hmes & Hsc & Hall & Ht1 & Hl1 & Hs1);
    pose proof (build_rows_stdout ev ds items [] w1) as (Ho1 & _)
  end.
  rewrite Hb in Ho1 |- *. cbn [app snd] in Ho1 |- *. rewrite M_bind_eq.
  cbn [macro_regime_monthly_us macro_regime_run_log stdout store_calls]
    in Ht1, Hl1, Hs1, Ho1.
  assert (Hmes' : map mes rows = [1; 2; 3; 4; 5; 6; 7; 8; 9; 10; 11; 12]%Z).
  { rewrite Hmes. unfold enumerate. rewrite map_fst_combine.
    - rewrite Hlen. reflexivity.
    - unfold Zseq. rewrite length_map, length_seq. reflexivity. }
  destruct (for_each_upsert_fails_at ev rows j e w1')
    as (w2 & Hrun & Ht2 & Hl2 & Ho2 & Hs2).
  { rewrite <- (length_map mes), Hmes'. exact Hj. }
  { intros i Hi. rewrite Hs1. apply Hbefore. exact Hi. }
  { rewrite Hs1. exact Hat. }
  rewrite Hrun. unfold main_handler. rewrite M_bind_eq.
  unfold insert_log, execute, raise. rewrite Hs2, Hs1, Hafter.
  exists rows. eexists. split; [reflexivity|].
  split; [exact Hmes'|]. split.
  { rewrite Hsc. unfold enumerate. rewrite map_snd_combine; [reflexivity|].
    unfold Zseq. rewrite length_map, length_seq. reflexivity. }
  split.
  { eapply Forall_impl; [|exact Hall]. intros r (Ha & Hd & _). split; assumption. }
  cbn [macro_regime_monthly_us macro_regime_run_log stdout].
  rewrite Ht2, Ht1, Hl2, Hl1, Ho2, Ho1. repeat split; reflexivity.
Qed.

Lemma failed_upsert_keeps_earlier_rows_witness :
  exists (score0 : float) (ds : list driver) (ex : extras)
         (rows : list month_row) (w' : world),
    compute_macro_score_and_drivers (flaky_env 3) = Ok (score0, ds, ex) /\
    main (flaky_env 3) empty_world = (Raised store_error, w') /\
    map mes rows = [1; 2; 3; 4; 5; 6; 7; 8; 9; 10; 11; 12]%Z /\
    map score rows = exp_decay_curve score0 12 (fin (22 / 100)) /\
    Forall (fun r => anio r = TARGET_YEAR /\ drivers r = ds) rows /\
    macro_regime_monthly_us w'
    = fold_left (fun t row => upsert_row row t) (firstn 3 rows)
        (macro_regime_monthly_us empty_world) /\
    macro_regime_run_log w'
    = macro_regime_run_log empty_world ++ [error_entry store_error] /\
    stdout w' = stdout empty_world.
Proof.
  assert (Hc : exists out, compute_macro_score_and_drivers (flaky_env 3) = Ok out)
    by (eexists; reflexivity).
  destruct Hc as ([[score0 ds] ex] & Hc).
  exists score0, ds, ex.
  destruct (failed_upsert_keeps_earlier_rows (flaky_env 3) empty_world 3
              store_error score0 ds ex Hc) as (rows & w' & Hrun).
  - lia.
  - intros i Hi. do 3 (destruct i as [|i]; [reflexivity|]). lia.
  - reflexivity.
  - reflexivity.
  - exists rows, w'. split; [exact Hc | exact Hrun].
Defined.

(** ** The benchmark series *)

(** X17.  The benchmark does not move the score.  Two computations that
    return and that got the same answers for every series but SP500 have
    the same score, the same drivers and the same month-over-month
    changes; only the two benchmark fields may differ. *)
Theorem benchmark_leaves_score_alone (ev ev' : env)
  (s s' : float) (ds ds' : list driver) (ex ex' : extras) :
  (forall sid : string,
     sid <> "SP500"%string -> fred_observations ev' sid = fred_observations ev sid) ->
  pct_change_pads ev' = pct_change_pads ev ->
  compute_macro_score_and_drivers ev = Ok (s, ds, ex) ->
  compute_macro_score_and_drivers ev' = Ok (s', ds', ex') ->
  s' = s /\ ds' = ds /\ delta_proxy ex' = delta_proxy ex.
Proof.
  intros Hsame Hpad.
  unfold compute_macro_score_and_drivers, fetch_all.
  cbn -[to_monthly yoy_from_level zscore].
  rewrite !Hsame by discriminate. rewrite Hpad.
  destruct (fred_observations ev "CPIAUCSL") as [|d1];
    cbn -[to_monthly yoy_from_level zscore]; [discriminate|].
  destruct (fred_observations ev "UNRATE") as [|d2];
    cbn -[to_monthly yoy_from_level zscore]; [discriminate|].
  destruct (fred_observations ev "FEDFUNDS") as [|d3];
    cbn -[to_monthly yoy_from_level zscore]; [discriminate|].
  destruct (fred_observations ev "T10Y2Y") as [|d4];
    cbn -[to_monthly yoy_from_level zscore]; [discriminate|].
  destruct (fred_observations ev "BAMLH0A0HYM2") as [|d5];
    cbn -[to_monthly yoy_from_level zscore]; [discriminate|].
  destruct (fred_observations ev "SP500") as [|d6];
    cbn -[to_monthly yoy_from_level zscore]; [discriminate|].
  destruct (fred_observations ev' "SP500") as [|d6'];
    cbn -[to_monthly yoy_from_level zscore]; [intros _ H; discriminate H|].
  unfold monthly_series, monthly_as_is.
  cbn -[to_monthly yoy_from_level zscore].
  destruct (to_monthly d1 "last") as [|r1 m1];
    cbn -[to_monthly yoy_from_level zscore]; [discriminate|].
  destruct (to_monthly d2 "last") as [|r2 m2];
    cbn -[to_monthly yoy_from_level zscore]; [discriminate|].
  destruct (to_monthly d3 "last") as [|r3 m3];
    cbn -[to_monthly yoy_from_level zscore]; [discriminate|].
  destruct (to_monthly d4 "last") as [|r4 m4];
    cbn -[to_monthly yoy_from_level zscore]; [discriminate|].
  destruct (to_monthly d5 "last") as [|r5 m5];
    cbn -[to_monthly yoy_from_level zscore]; [discriminate|].
  destruct (to_monthly d6 "last") as [|r6 m6];
    cbn -[to_monthly yoy_from_level zscore]; [discriminate|].
  destruct (to_monthly d6' "last") as [|r6' m6'];
    cbn -[to_monthly yoy_from_level zscore]; [intros _ H; discriminate H|].
  intros H H'. injection H as <- <- <-. injection H' as <- <- <-.
  repeat split; reflexivity.
Qed.

Lemma benchmark_leaves_score_alone_witness :
  exists (s s' : float) (ds ds' : list driver) (ex ex' : extras),
    compute_macro_score_and_drivers sample_env = Ok (s, ds, ex) /\
    compute_macro_score_and_drivers other_benchmark_env = Ok (s', ds', ex') /\
    s' = s /\ ds' = ds /\ delta_proxy ex' = delta_proxy ex.
Proof.
  assert (Hc : exists out, compute_macro_score_and_drivers sample_env = Ok out)
    by (eexists; reflexivity).
  assert (Hc' : exists out,
            compute_macro_score_and_drivers other_benchmark_env = Ok out)
    by (eexists; reflexivity).
  destruct Hc as ([[s ds] ex] & Hc). destruct Hc' as ([[s' ds'] ex'] & Hc').
  exists s, s', ds, ds', ex, ex'.
  split; [exact Hc|]. split; [exact Hc'|].
  apply (benchmark_leaves_score_alone sample_env other_benchmark_env
           s s' ds ds' ex ex'); [| reflexivity | exact Hc | exact Hc'].
  intros sid Hne. cbn [fred_observations other_benchmark_env].
  destruct (String.eqb_spec sid "SP500"); [contradiction | reflexivity].
Defined.

(** ** What a request returns *)

(** X18.  The frame made of the observations of an answer is in date
    order and holds exactly the observations whose date parses, each
    once: an observation whose value does not parse stays, with the
    missing value; one whose date does not parse goes. *)
Theorem observations_frame_rows (to_datetime : string -> option date)
  (to_numeric : string -> float) (obs : list (string * string)) :
  in_date_order (observations_frame to_datetime to_numeric obs) /\
  (forall (d : date) (v : float),
     In (d, v) (observations_frame to_datetime to_numeric obs) <->
     exists o : string * string,
       In o obs /\ to_datetime (fst o) = Some d /\ to_numeric (snd o) = v) /\
  length (observations_frame to_datetime to_numeric obs)
  = length (filter (fun o => match to_datetime (fst o) with
                             | Some _ => true
                             | None => false
                             end) obs).
Proof.
  set (G := fun o : string * string => (to_datetime (fst o), to_numeric (snd o))).
  set (F := fun r : option date * float =>
              match fst r with Some d => [(d, snd r)] | None => [] end).
  assert (E : observations_frame to_datetime to_numeric obs
              = sort_by date_lt (flat_map F (map G obs)))
    by (destruct obs; reflexivity).
  rewrite E. clear E. split; [apply sort_by_date_sorted|]. split.
  - intros d v. split.
    + intros Hin. apply (Permutation_in _ (sort_by_perm date_lt _)) in Hin.
      apply in_flat_map in Hin. destruct Hin as ([od x] & Hr & Hd).
      apply in_map_iff in Hr. destruct Hr as (o & Ho & Hin).
      unfold G in Ho. injection Ho as Ho1 Ho2. unfold F in Hd. cbn [fst snd] in Hd.
      destruct od as [d0|]; [|destruct Hd].
      destruct Hd as [Hd | []]. injection Hd as -> ->.
      exists o. repeat split; assumption.
    + intros (o & Hin & Hd & Hv).
      apply (Permutation_in _ (Permutation_sym (sort_by_perm date_lt _))).
      apply in_flat_map. exists (Some d, v). split.
      * apply in_map_iff. exists o. unfold G. rewrite Hd, Hv. split; [reflexivity | exact Hin].
      * left. reflexivity.
  - rewrite sort_by_length. induction obs as [|o obs IH]; [reflexivity|].
    cbn [map flat_map filter]. rewrite length_app, IH. unfold F, G at 1.
    cbn [fst snd]. destruct (to_datetime (fst o)); reflexivity.
Qed.

(** ** The clamp on machine floats, for any bounds *)

Section Binary64Clamp.
Import Floats.
Local Open Scope float_scope.

Lemma SFcompare_refl (f : spec_float) :
  f <> S754_nan -> SFcompare f f = Some Eq.
Proof.
  destruct f as [s|s| |s m e]; intros H; simpl; try reflexivity.
  - destruct s; reflexivity.
  - contradiction.
  - rewrite Z.compare_refl, Pos.compare_cont_refl. destruct s; reflexivity.
Qed.

(** Two floats that compare are not the undefined one. *)
Lemma leb_refl_of (x y : float) :
  (x <=? y) = true -> (x <=? x) = true /\ (y <=? y) = true.
Proof.
  rewrite !leb_spec. unfold SFleb. intros H.
  assert (Hx : Prim2SF x <> S754_nan).
  { intros E. rewrite E in H. simpl in H. discriminate. }
  assert (Hy : Prim2SF y <> S754_nan).
  { intros E. rewrite E in H. destruct (Prim2SF x); simpl in H; discriminate. }
  rewrite !SFcompare_refl by assumption. split; reflexivity.
Qed.

(** X19.  On binary64, for any bounds with [lo <= hi]: the clamp of the
    undefined value is 0, whether 0 is within the bounds or not; the clamp
    of any other value, an infinity too, is that value or one of the
    bounds, and it is within the bounds. *)
Theorem binary64_clamp_bounds (x lo hi : float) :
  (lo <=? hi) = true ->
  (is_nan x = true -> Binary64.clamp x lo hi = 0) /\
  (is_nan x = false ->
   (lo <=? Binary64.clamp x lo hi) = true /\
   (Binary64.clamp x lo hi <=? hi) = true /\
   (Binary64.clamp x lo hi = x \/ Binary64.clamp x lo hi = lo \/
    Binary64.clamp x lo hi = hi)).
Proof.
  intros Hlh. destruct (leb_refl_of lo hi Hlh) as (Hlo & Hhi).
  unfold Binary64.clamp, Binary64.py_max, Binary64.py_min. split.
  - intros ->. reflexivity.
  - intros ->.
    destruct (x <? hi) eqn:H1.
    + destruct (lo <? x) eqn:H2; repeat split;
        auto using Binary64Facts.ltb_leb.
    + destruct (lo <? hi) eqn:H2; repeat split; auto.
Qed.

Lemma binary64_clamp_bounds_witness :
  (is_nan 5 = true -> Binary64.clamp 5 (-3) 3 = 0) /\
  (is_nan 5 = false ->
   (-3 <=? Binary64.clamp 5 (-3) 3) = true /\
   (Binary64.clamp 5 (-3) 3 <=? 3) = true /\
   (Binary64.clamp 5 (-3) 3 = 5 \/ Binary64.clamp 5 (-3) 3 = -3 \/
    Binary64.clamp 5 (-3) 3 = 3)).
Proof.
  apply (binary64_clamp_bounds 5 (-3) 3). reflexivity.
Defined.

End Binary64Clamp.

(** ** The calls of a run *)

Section RunCalls.

Variable ev : env.

(** Every row carries a clock reading of its own, taken in turn. *)
Lemma build_rows_stamps (ds : list driver) (items : list (Z * float)) :
  forall (rows0 rows : list month_row) (w w' : world),
    build_rows ev ds items rows0 w = (Ok (rows0 ++ rows), w') ->
    map updated_at rows
    = map (fun i => utcnow ev (clock_reads w + i)) (seq 0 (length items)).
Proof.
  induction items as [|[i sc] items IH]; intros rows0 rows w w' H.
  - simpl in H. injection H as H _.
    rewrite <- (app_nil_r rows0) in H at 1. apply app_inv_head in H.
    subst rows. reflexivity.
  - cbn [build_rows] in H. rewrite M_bind_eq in H. unfold now at 1 in H.
    match type of H with context [build_rows ev ds items ?r ?w1] =>
      destruct (build_rows_spec ev ds items r w1) as (rows' & w1' & Hb & _);
      pose proof (IH r rows' w1 w1' Hb) as Hst
    end.
    rewrite Hb in H. injection H as H _. rewrite <- app_assoc in H.
    apply app_inv_head in H. subst rows.
    cbn [app map length seq updated_at]. f_equal.
    + rewrite Nat.add_0_r. reflexivity.
    + rewrite Hst. cbn [clock_reads]. rewrite <- seq_shift, map_map.
      apply map_ext. intros k. f_equal. lia.
Qed.

Lemma for_each_upsert_returns (rows : list month_row) :
  forall w : world,
    (exists w', for_each rows (upsert ev) w = (Ok tt, w')) <->
    (forall i : nat,
       (i < length rows)%nat -> store_fault ev (store_calls w + i) = None).
Proof.
  induction rows as [|row rows IH]; intros w.
  - split; [intros _ i Hi; simpl in Hi; lia | intros _; eexists; reflexivity].
  - cbn [for_each]. rewrite M_bind_eq. unfold upsert at 1, execute.
    destruct (store_fault ev (store_calls w)) as [e|] eqn:E.
    + split; [intros (w' & H); discriminate H|].
      intros H. specialize (H 0%nat). rewrite Nat.add_0_r, E in H.
      simpl in H. discriminate H. lia.
    + rewrite IH. cbn [store_calls length]. split.
      * intros H [|i] Hi; [rewrite Nat.add_0_r; exact E|].
        replace (store_calls w + S i)%nat with (S (store_calls w) + i)%nat by lia.
        apply H. lia.
      * intros H i Hi.
        replace (S (store_calls w) + i)%nat with (store_calls w + S i)%nat by lia.
        apply H. lia.
Qed.

Lemma for_each_upsert_counts (rows : list month_row) :
  forall w w' : world,
    for_each rows (upsert ev) w = (Ok tt, w') ->
    store_calls w' = (store_calls w + length rows)%nat /\
    clock_reads w' = clock_reads w.
Proof.
  induction rows as [|row rows IH]; intros w w'.
  - simpl. intros H. injection H as <-. split; [lia | reflexivity].
  - cbn [for_each]. rewrite M_bind_eq. unfold upsert at 1, execute.
    destruct (store_fault ev (store_calls w)); [discriminate|].
    intros H. apply IH in H. cbn [store_calls clock_reads length] in H |- *.
    destruct H as (H1 & H2). split; [lia | exact H2].
Qed.

Lemma compute_drivers_length (score0 : float) (ds : list driver) (ex : extras) :
  compute_macro_score_and_drivers ev = Ok (score0, ds, ex) -> length ds = 5%nat.
Proof.
  unfold compute_macro_score_and_drivers. simpl.
  destruct (fetch_all ev) as [|raw]; [discriminate|].
  destruct (monthly_series ev raw) as [|monthly]; [discriminate|].
  unfold score_and_drivers. simpl.
  destruct (drivers_loop _ monthly) as [|[ds' contribs]] eqn:Hloop; [discriminate|].
  destruct (getitem monthly "SP500"); [discriminate|].
  intros H. injection H as _ <- _.
  destruct (drivers_loop_inv _ _ _ _ Hloop) as (ss & Hlen & _ & -> & _).
  rewrite length_map, length_combine, Hlen. reflexivity.
Qed.

(** A run that returns, by its calls: the clock readings of the rows
    and the store calls it made. *)
Lemma main_ok_calls (w w' : world) :
  main ev w = (Ok tt, w') ->
  exists rows : list month_row,
    map mes rows = [1; 2; 3; 4; 5; 6; 7; 8; 9; 10; 11; 12]%Z /\
    map updated_at rows
    = map (fun i => utcnow ev (clock_reads w + i)) (seq 1 12) /\
    macro_regime_monthly_us w'
    = fold_left (fun t row => upsert_row row t) rows (macro_regime_monthly_us w) /\
    (forall i : nat, (i < 13)%nat -> store_fault ev (store_calls w + i) = None) /\
    store_calls w' = (store_calls w + 13)%nat /\
    clock_reads w' = (clock_reads w + 13)%nat.
Proof.
  unfold main. rewrite M_bind_eq. unfold now at 1, try_except.
  unfold main_body. rewrite M_bind_eq. unfold lift at 1.
  destruct (compute_macro_score_and_drivers ev) as [e|[[score0 ds] ex]] eqn:Hc.
  { unfold main_handler. rewrite M_bind_eq. unfold insert_log, execute.
    cbn [store_calls]. destruct (store_fault ev (store_calls w)); discriminate. }
  assert (Hlen : length (exp_decay_curve score0 12 (fin (22 / 100))) = 12%nat).
  { rewrite exp_decay_curve_map, length_map. reflexivity. }
  cbv zeta. rewrite M_bind_eq.
  match goal with |- context [build_rows ev ds ?items [] ?w1] =>
    destruct (build_rows_spec ev ds items [] w1)
      as (rows & w1' & Hb & Hmes & _ & _ & Ht1 & _ & Hs1);
    pose proof (build_rows_stdout ev ds items [] w1) as (_ & Hk1);
    pose proof (build_rows_stamps ds items [] rows w1 w1' Hb) as Hst
  end.
  rewrite Hb in Hk1 |- *. cbn [app snd] in Hk1 |- *. rewrite M_bind_eq.
  cbn [macro_regime_monthly_us store_calls clock_reads] in Ht1, Hs1, Hk1, Hst.
  assert (Hitems : length (enumerate (exp_decay_curve score0 12 (fin (22 / 100))) 1)
                   = 12%nat).
  { unfold enumerate. rewrite length_combine, Zseq_length, Hlen. reflexivity. }
  rewrite Hitems in Hk1, Hst.
  assert (Hmes' : map mes rows = [1; 2; 3; 4; 5; 6; 7; 8; 9; 10; 11; 12]%Z).
  { rewrite Hmes. unfold enumerate. rewrite map_fst_combine.
    - rewrite Hlen. reflexivity.
    - rewrite Zseq_length. reflexivity. }
  assert (Hrows : length rows = 12%nat)
    by (rewrite <- (length_map mes), Hmes'; reflexivity).
  destruct (for_each_upsert_cases ev rows w1') as (r2 & w2 & Hu & _ & Ht2).
  rewrite Hu. destruct r2 as [e|[]].
  { unfold main_handler. rewrite M_bind_eq. unfold insert_log, execute.
    destruct (store_fault ev (store_calls w2)); discriminate. }
  specialize (Ht2 eq_refl).
  pose proof (proj1 (for_each_upsert_returns rows w1') (ex_intro _ w2 Hu)) as Hnone.
  destruct (for_each_upsert_counts rows w1' w2 Hu) as (Hs2 & Hk2).
  rewrite Hrows, Hs1 in Hs2. rewrite Hrows, Hs1 in Hnone.
  destruct (sort_by contribution_lt ds) as [|worst rest].
  { unfold raise, main_handler. rewrite M_bind_eq. unfold insert_log, execute.
    destruct (store_fault ev (store_calls w2)); discriminate. }
  rewrite M_bind_eq. unfold insert_log at 1, execute.
  destruct (store_fault ev (store_calls w2)) as [e|] eqn:Hlast.
  { unfold main_handler. rewrite M_bind_eq. unfold insert_log, execute.
    cbn [store_calls]. destruct (store_fault ev (S (store_calls w2))); discriminate. }
  unfold print. intros H. injection H as <-.
  exists rows. split; [exact Hmes'|]. split.
  { rewrite Hst. rewrite <- seq_shift, map_map. apply map_ext.
    intros k. f_equal. lia. }
  split.
  { cbn [macro_regime_monthly_us]. rewrite Ht2, Ht1. reflexivity. }
  split.
  { intros i Hi. destruct (Nat.eq_dec i 12) as [-> | Hne].
    - rewrite <- Hs2. exact Hlast.
    - apply Hnone. lia. }
  cbn [store_calls clock_reads]. split; lia.
Qed.

End RunCalls.

(** X20.  A run returns exactly when the computation returns and none
    of the thirteen store calls it then makes (twelve upserts, one log
    entry) fails. *)
Theorem main_returns_iff (ev : env) (w : world) :
  (exists w', main ev w = (Ok tt, w')) <->
  (exists out, compute_macro_score_and_drivers ev = Ok out) /\
  (forall i : nat, (i < 13)%nat -> store_fault ev (store_calls w + i) = None).
Proof.
  split.
  - intros (w' & Hrun). split.
    + destruct (main_ok_inv ev w w' Hrun) as (s & ds & ex & _ & _ & _ & Hc & _).
      eexists. exact Hc.
    + destruct (main_ok_calls ev w w' Hrun) as (rows & _ & _ & _ & Hnone & _).
      exact Hnone.
  - intros (([[score0 ds] ex] & Hc) & Hnone).
    assert (Hlen : length (exp_decay_curve score0 12 (fin (22 / 100))) = 12%nat).
    { rewrite exp_decay_curve_map, length_map. reflexivity. }
    unfold main. rewrite M_bind_eq. unfold now at 1, try_except.
    unfold main_body. rewrite M_bind_eq. unfold lift at 1. rewrite Hc.
    cbv zeta. rewrite M_bind_eq.
    match goal with |- context [build_rows ev ds ?items [] ?w1] =>
      destruct (build_rows_spec ev ds items [] w1)
        as (rows & w1' & Hb & Hmes & _ & _ & _ & _ & Hs1)
    end.
    rewrite Hb. cbn [app]. rewrite M_bind_eq. cbn [store_calls] in Hs1.
    assert (Hrows : length rows = 12%nat).
    { rewrite <- (length_map mes), Hmes, length_map. unfold enumerate.
      rewrite length_combine, Zseq_length, Hlen. reflexivity. }
    destruct (proj2 (for_each_upsert_returns ev rows w1')) as (w2 & Hu).
    { intros i Hi. rewrite Hs1. apply Hnone. lia. }
    rewrite Hu.
    destruct (for_each_upsert_counts ev rows w1' w2 Hu) as (Hs2 & _).
    pose proof (sort_by_length contribution_lt ds) as Hs.
    rewrite (compute_drivers_length ev score0 ds ex Hc) in Hs.
    destruct (sort_by contribution_lt ds) as [|worst rest]; [discriminate Hs|].
    rewrite M_bind_eq. unfold insert_log at 1, execute.
    rewrite Hs2, Hrows, Hs1, (Hnone 12%nat) by lia.
    eexists. reflexivity.
Qed.

(** X21.  In a run that returns every row has a clock reading of its
    own: the row of month [i] carries the [i]-th reading after the one
    taken at the start.  The run reads the clock thirteen times and calls
    the store thirteen times. *)
Theorem rows_stamped_in_turn (ev : env) (w w' : world) :
  main ev w = (Ok tt, w') ->
  exists rows : list month_row,
    macro_regime_monthly_us w'
    = fold_left (fun t row => upsert_row row t) rows (macro_regime_monthly_us w) /\
    map mes rows = [1; 2; 3; 4; 5; 6; 7; 8; 9; 10; 11; 12]%Z /\
    map updated_at rows
    = map (fun i => utcnow ev (clock_reads w + i)) (seq 1 12) /\
    clock_reads w' = (clock_reads w + 13)%nat /\
    store_calls w' = (store_calls w + 13)%nat.
Proof.
  intros Hrun.
  destruct (main_ok_calls ev w w' Hrun) as (rows & Hmes & Hst & Ht & _ & Hs & Hk).
  exists rows. repeat split; assumption.
Qed.

Lemma rows_stamped_in_turn_witness :
  exists rows : list month_row,
    macro_regime_monthly_us (snd (main sample_env empty_world))
    = fold_left (fun t row => upsert_row row t) rows
        (macro_regime_monthly_us empty_world) /\
    map mes rows = [1; 2; 3; 4; 5; 6; 7; 8; 9; 10; 11; 12]%Z /\
    map updated_at rows
    = map (fun i => utcnow sample_env (clock_reads empty_world + i)) (seq 1 12) /\
    clock_reads (snd (main sample_env empty_world))
    = (clock_reads empty_world + 13)%nat /\
    store_calls (snd (main sample_env empty_world))
    = (store_calls empty_world + 13)%nat.
Proof.
  apply (rows_stamped_in_turn sample_env empty_world).
  destruct (main_succeeds sample_env empty_world) as (w' & Hw').
  - reflexivity.
  - eexists. reflexivity.
  - rewrite Hw'. reflexivity.
Defined.

(** ** The z-score of a flat series *)

Lemma zscore_unfold (series : frame) (window : Z) :
  (0 < window)%Z ->
  zscore series window
  = let s := notna_values (map snd series) in
    let tail := trailing (Z.to_nat window) s in
    if (Z.of_nat (length s) <? Z.max 24 (window / 4))%Z then nan
    else if Reqb (population_std tail) 0 then nan
         else fin ((last s 0 - population_mean tail) / population_std tail).
Proof.
  intros Hw. cbv zeta. set (s := notna_values (map snd series)).
  unfold zscore. rewrite dropna_values. fold s.
  rewrite zscore_tail by exact Hw. rewrite length_map.
  destruct (Z.ltb_spec (Z.of_nat (length s)) (Z.max 24 (window / 4)));
    [reflexivity|].
  unfold trailing. rewrite length_map, skipn_map.
  fold (trailing (Z.to_nat window) s).
  assert (Hs : s <> []) by (intros E; rewrite E in *; simpl in *; lia).
  assert (Ht : trailing (Z.to_nat window) s <> []).
  { intros E. apply (f_equal (@length R)) in E. unfold trailing in E.
    rewrite length_skipn in E. simpl in E. lia. }
  rewrite series_mean_fin, series_std_fin, last_map_fin by assumption.
  unfold feq, isnan. rewrite orb_false_r.
  destruct (Reqb _ 0); reflexivity.
Qed.

Lemma Rsum_repeat (c : R) (n : nat) : Rsum (repeat c n) = INR n * c.
Proof.
  induction n as [|n IH]; [simpl; ring|].
  change (repeat c (S n)) with (c :: repeat c n). unfold Rsum in *.
  cbn [fold_right]. rewrite IH, S_INR. ring.
Qed.

(** A flat series has deviation zero. *)
Lemma population_std_flat (c : R) (n : nat) :
  population_std (repeat c (S n)) = 0.
Proof.
  unfold population_std, population_mean.
  rewrite Rsum_repeat, repeat_length.
  assert (Hn : INR (S n) <> 0) by (apply not_0_INR; discriminate).
  replace (INR (S n) * c / INR (S n)) with c by (field; exact Hn).
  rewrite (map_ext_in _ (fun _ => 0)).
  - assert (Hz : forall l : list R, Rsum (map (fun _ => 0) l) = 0).
    { induction l as [|x l IH]; [reflexivity|].
      unfold Rsum in *. cbn [map fold_right]. rewrite IH. ring. }
    rewrite Hz. unfold Rdiv. rewrite Rmult_0_l. apply sqrt_0.
  - intros x Hx. apply repeat_spec in Hx. subst x. ring.
Qed.

Section FlatSeries.
Import Floats.

(** C3.  A flat series where the program gives a number: thirty months
    at 0.1.  The deviation of a flat series is zero, and on exact numbers
    its z-score is undefined, as the claim has it.  On binary64 the mean
    of the thirty values is rounded to the second float above 0.1, the
    deviation comes out as 2^-55, the test against zero lets it pass and
    the z-score is -1, with the sums of NumPy as with sums in sequence; it
    is a number also when mean and deviation are summed the two ways. *)
Theorem zscore_flat_series_numeric :
  (forall c : R,
     population_std (repeat c 30) = 0%R /\
     isnan (zscore (flat_months c) 120) = true) /\
  Binary64.series_mean Binary64.sum_pairwise Binary64.flat_30
  = 0x1.999999999999cp-4%float /\
  Binary64.series_std Binary64.sum_pairwise Binary64.flat_30 = 0x1p-55%float /\
  Binary64.zscore Binary64.sum_pairwise Binary64.sum_pairwise
    Binary64.flat_30 120 = (-1)%float /\
  Binary64.zscore Binary64.sum_sequential Binary64.sum_sequential
    Binary64.flat_30 120 = (-1)%float /\
  Binary64.zscore Binary64.sum_sequential Binary64.sum_pairwise
    Binary64.flat_30 120 = (-1.5)%float /\
  Binary64.zscore Binary64.sum_pairwise Binary64.sum_sequential
    Binary64.flat_30 120 = (-0x1.5555555555555p-1)%float.
Proof.
  split.
  - intros c. split; [apply (population_std_flat c 29)|].
    rewrite zscore_unfold by lia. cbv zeta.
    replace (notna_values (map snd (flat_months c))) with (repeat c 30)
      by reflexivity.
    change (Z.of_nat (length (repeat c 30)) <? Z.max 24 (120 / 4))%Z with false.
    change (trailing (Z.to_nat 120) (repeat c 30)) with (repeat c 30).
    rewrite (population_std_flat c 29).
    rewrite (proj2 (Reqb_true 0 0) eq_refl). reflexivity.
  - repeat split; vm_compute; reflexivity.
Qed.

End FlatSeries.
